(** * fishbrain/logging-go: a shallow embedding of [logging.go]

    The package is a thin layer over logrus, go-nsq and bugsnag-go.  The
    embedding has three layers:

    - the parts of the Go standard library the package calls ([strings],
      [strconv], [unicode/utf8], [time], [errors], [fmt]), transcribed from
      their Go sources;
    - the parts of logrus, go-nsq and bugsnag-go the package calls, over an
      explicit store of heap objects (loggers and entries are pointers in Go);
    - the package itself, function by function, under the names of the
      source. *)

From Stdlib Require Import ZArith Ascii String List Lia Bool DecimalString
  DecimalPos.
From stdpp Require Import base option list gmap strings fin_maps.

Open Scope Z_scope.

(** ** Go strings

    A Go [string] is an immutable sequence of bytes; [len] counts bytes and
    indexing and slicing are by byte.  Rocq's [string] is a list of [ascii],
    that is, of 8-bit bytes. *)

Definition byte_val (c : ascii) : Z := Z.of_N (N_of_ascii c).

Definition len (s : string) : Z := Z.of_nat (String.length s).

(** [slice_from n s] is [s[n:]], [slice_to n s] is [s[:n]]; both are only
    called with [n <= len s], where Go does not panic. *)
Fixpoint slice_from (n : nat) (s : string) : string :=
  match n, s with
  | O, _ => s
  | S k, String _ t => slice_from k t
  | S _, EmptyString => EmptyString
  end.

Fixpoint slice_to (n : nat) (s : string) : string :=
  match n, s with
  | O, _ => EmptyString
  | S k, String c t => String c (slice_to k t)
  | S _, EmptyString => EmptyString
  end.

(** [byte_at s i] is [s[i]] for [i < len s]. *)
Definition byte_at (s : string) (i : nat) : Z :=
  match String.get i s with
  | Some c => byte_val c
  | None => 0
  end.

(** ** unicode/utf8 *)
Module Utf8.

Definition RuneError : Z := 0xFFFD.
Definition RuneSelf : Z := 0x80.
Definition UTFMax : nat := 4.

Definition maskx : Z := 0x3F.
Definition mask2 : Z := 0x1F.
Definition mask3 : Z := 0x0F.
Definition mask4 : Z := 0x07.
Definition locb : Z := 0x80.
Definition hicb : Z := 0xBF.

(** Codes of the [first] table: the low three bits are the sequence length,
    the high four bits index [acceptRanges]. *)
Definition xx : Z := 0xF1.
Definition as_ : Z := 0xF0.
Definition s1 : Z := 0x02.
Definition s2 : Z := 0x13.
Definition s3 : Z := 0x03.
Definition s4 : Z := 0x23.
Definition s5 : Z := 0x34.
Definition s6 : Z := 0x04.
Definition s7 : Z := 0x44.

(** The 256-entry table [first], row by row. *)
Definition first (b : Z) : Z :=
  if b <? 0x80 then as_
  else if b <? 0xC2 then xx
  else if b <? 0xE0 then s1
  else if b =? 0xE0 then s2
  else if b <? 0xED then s3
  else if b =? 0xED then s4
  else if b <? 0xF0 then s3
  else if b =? 0xF0 then s5
  else if b <? 0xF4 then s6
  else if b =? 0xF4 then s7
  else xx.

(** [acceptRanges]: the range of a valid second byte. *)
Definition acceptRanges (i : Z) : Z * Z :=
  if i =? 0 then (locb, hicb)
  else if i =? 1 then (0xA0, hicb)
  else if i =? 2 then (locb, 0x9F)
  else if i =? 3 then (0x90, hicb)
  else if i =? 4 then (locb, 0x8F)
  else (0, 0).

(** [utf8.DecodeRuneInString]: the first rune of [s] and its width in bytes;
    [(RuneError, 0)] on the empty string and [(RuneError, 1)] on an invalid
    encoding. *)
Definition DecodeRuneInString (s : string) : Z * nat :=
  let n := len s in
  if n <? 1 then (RuneError, 0%nat)
  else
    let s0 := byte_at s 0 in
    let x := first s0 in
    if as_ <=? x then
      (* mask := rune(x) << 31 >> 31: all ones for xx, zero for as *)
      (if Z.testbit x 0 then RuneError else s0, 1%nat)
    else
      let sz := Z.land x 7 in
      let accept := acceptRanges (Z.shiftr x 4) in
      if n <? sz then (RuneError, 1%nat)
      else
        let b1 := byte_at s 1 in
        if (b1 <? fst accept) || (snd accept <? b1) then (RuneError, 1%nat)
        else if sz <=? 2 then
          (Z.lor (Z.shiftl (Z.land s0 mask2) 6) (Z.land b1 maskx), 2%nat)
        else
          let b2 := byte_at s 2 in
          if (b2 <? locb) || (hicb <? b2) then (RuneError, 1%nat)
          else if sz <=? 3 then
            (Z.lor (Z.lor (Z.shiftl (Z.land s0 mask3) 12)
                          (Z.shiftl (Z.land b1 maskx) 6))
                   (Z.land b2 maskx), 3%nat)
          else
            let b3 := byte_at s 3 in
            if (b3 <? locb) || (hicb <? b3) then (RuneError, 1%nat)
            else
              (Z.lor (Z.lor (Z.lor (Z.shiftl (Z.land s0 mask4) 18)
                                   (Z.shiftl (Z.land b1 maskx) 12))
                            (Z.shiftl (Z.land b2 maskx) 6))
                     (Z.land b3 maskx), 4%nat).

(** [utf8.RuneStart]: [b] is not a continuation byte. *)
Definition RuneStart (b : Z) : bool := negb (Z.land b 0xC0 =? 0x80).

(** The backwards scan of [DecodeLastRuneInString]:
    [for start--; start >= lim; start-- { if RuneStart(s[start]) { break } }],
    entered with [start = end - 1]; [k] counts the steps left down to [lim].
    The result is [start] after the loop ([lim - 1] when no start byte was
    found), as an integer since it can be [-1]. *)
Fixpoint scan_start (s : string) (lim : Z) (k : nat) (start : Z) : Z :=
  match k with
  | O => start
  | S k' =>
      if start <? lim then start
      else if RuneStart (byte_at s (Z.to_nat start)) then start
      else scan_start s lim k' (start - 1)
  end.

(** [utf8.DecodeLastRuneInString]. *)
Definition DecodeLastRuneInString (s : string) : Z * nat :=
  let end_ := len s in
  if end_ =? 0 then (RuneError, 0%nat)
  else
    let start := end_ - 1 in
    let r := byte_at s (Z.to_nat start) in
    if r <? RuneSelf then (r, 1%nat)
    else
      let lim := end_ - Z.of_nat UTFMax in
      let lim := if lim <? 0 then 0 else lim in
      let start := scan_start s lim UTFMax (start - 1) in
      let start := if start <? 0 then 0 else start in
      let '(r, size) := DecodeRuneInString
                          (slice_to (Z.to_nat (end_ - start))
                                    (slice_from (Z.to_nat start) s)) in
      if negb (start + Z.of_nat size =? end_) then (RuneError, 1%nat)
      else (r, size).

End Utf8.

(** ** unicode *)
Module Unicode.

Definition MaxLatin1 : Z := 0xFF.

(** The entries of the [White_Space] range table above Latin-1, which is what
    [isExcludingLatin(White_Space, r)] searches. *)
Definition White_Space_above_Latin1 (r : Z) : bool :=
  (r =? 0x1680)
  || ((0x2000 <=? r) && (r <=? 0x200A))
  || ((0x2028 <=? r) && (r <=? 0x2029))
  || (r =? 0x202F)
  || (r =? 0x205F)
  || (r =? 0x3000).

(** [unicode.IsSpace]. *)
Definition IsSpace (r : Z) : bool :=
  if r <=? MaxLatin1 then
    (r =? 0x09) || (r =? 0x0A) || (r =? 0x0B) || (r =? 0x0C) || (r =? 0x0D)
    || (r =? 0x20) || (r =? 0x85) || (r =? 0xA0)
  else White_Space_above_Latin1 r.

End Unicode.

(** ** strings *)
Module Strings.

(** [asciiSpace]: the table [{'\t': 1, '\n': 1, '\v': 1, '\f': 1, '\r': 1,
    ' ': 1}]. *)
Definition asciiSpace (c : Z) : Z :=
  if (c =? 0x09) || (c =? 0x0A) || (c =? 0x0B) || (c =? 0x0C) || (c =? 0x0D)
     || (c =? 0x20)
  then 1 else 0.

(** [for i, r := range s { if f(r) == truth { return i } }; return -1].
    A [range] over a string decodes one rune per iteration and advances by
    its width; [skip] counts the bytes of the current rune still to pass and
    [i] is the index of the head of [s] in the original string. *)
Fixpoint indexFunc_loop (f : Z -> bool) (truth : bool)
    (skip : nat) (i : Z) (s : string) : Z :=
  match s with
  | EmptyString => -1
  | String _ t =>
      match skip with
      | S k => indexFunc_loop f truth k (i + 1) t
      | O =>
          let '(r, size) := Utf8.DecodeRuneInString s in
          if Bool.eqb (f r) truth then i
          else indexFunc_loop f truth (size - 1) (i + 1) t
      end
  end.

Definition indexFunc (s : string) (f : Z -> bool) (truth : bool) : Z :=
  indexFunc_loop f truth 0 0 s.

(** [for i := len(s); i > 0; { r, size := DecodeLastRuneInString(s[0:i]);
    i -= size; if f(r) == truth { return i } }; return -1], with the same
    [skip] device. *)
Fixpoint lastIndexFunc_loop (f : Z -> bool) (truth : bool) (s : string)
    (skip : nat) (i : nat) : Z :=
  match i with
  | O => -1
  | S i' =>
      match skip with
      | S k => lastIndexFunc_loop f truth s k i'
      | O =>
          let '(r, size) := Utf8.DecodeLastRuneInString (slice_to i s) in
          if Bool.eqb (f r) truth then Z.of_nat (i - size)
          else lastIndexFunc_loop f truth s (size - 1) i'
      end
  end.

Definition lastIndexFunc (s : string) (f : Z -> bool) (truth : bool) : Z :=
  lastIndexFunc_loop f truth s 0 (String.length s).

Definition TrimLeftFunc (s : string) (f : Z -> bool) : string :=
  let i := indexFunc s f false in
  if i =? -1 then EmptyString else slice_from (Z.to_nat i) s.

Definition TrimRightFunc (s : string) (f : Z -> bool) : string :=
  let i := lastIndexFunc s f false in
  let i :=
    if (0 <=? i) && (Utf8.RuneSelf <=? byte_at s (Z.to_nat i)) then
      let '(_, wid) := Utf8.DecodeRuneInString (slice_from (Z.to_nat i) s) in
      i + Z.of_nat wid
    else i + 1 in
  slice_to (Z.to_nat i) s.

Definition TrimFunc (s : string) (f : Z -> bool) : string :=
  TrimRightFunc (TrimLeftFunc s f) f.

(** The second loop of [TrimSpace], over [u = s[start:]]:
    [for ; stop > start; stop-- { c := s[stop-1]; ... }]. *)
Fixpoint TrimSpace_stop (u : string) (stop : nat) : string :=
  match stop with
  | O => slice_to 0 u
  | S k =>
      let c := byte_at u k in
      if Utf8.RuneSelf <=? c then TrimFunc (slice_to stop u) Unicode.IsSpace
      else if asciiSpace c =? 0 then slice_to stop u
      else TrimSpace_stop u k
  end.

(** [strings.TrimSpace]: the first loop walks over leading ASCII space and
    falls back to [TrimFunc] at the first non-ASCII byte. *)
Fixpoint TrimSpace (s : string) : string :=
  match s with
  | EmptyString => TrimSpace_stop s 0
  | String c t =>
      if Utf8.RuneSelf <=? byte_val c then TrimFunc s Unicode.IsSpace
      else if asciiSpace (byte_val c) =? 0 then
        TrimSpace_stop s (String.length s)
      else TrimSpace t
  end.

(** [strings.Split(s, sep)] for a one-byte separator: the substrings between
    the occurrences of [sep]; a string with [n] separators has [n + 1]
    parts, the empty string has the one part [""]. *)
Fixpoint Split (s : string) (sep : ascii) : list string :=
  match s with
  | EmptyString => [EmptyString]
  | String c t =>
      if Ascii.eqb c sep then EmptyString :: Split t sep
      else
        match Split t sep with
        | p :: ps => String c p :: ps
        | [] => [String c EmptyString]
        end
  end.

End Strings.

(** ** Machine integers *)

Definition wrap_uint64 (z : Z) : Z := z mod 2 ^ 64.

(** Two's-complement wrap-around of a [w]-bit signed integer. *)
Definition wrap_int (w : Z) (z : Z) : Z :=
  (z + 2 ^ (w - 1)) mod 2 ^ w - 2 ^ (w - 1).

Definition wrap_int64 (z : Z) : Z := wrap_int 64 z.

Definition maxInt64 : Z := 2 ^ 63 - 1.
Definition minInt64 : Z := - 2 ^ 63.

(** ** strconv *)
Module Strconv.

(** The [Err] field of a [*strconv.NumError]. *)
Inductive NumError : Type :=
  | ErrSyntax
  | ErrRange.

Definition maxUint64 : Z := 2 ^ 64 - 1.

(** [lower(c)]: [c | ('x' - 'X')]. *)
Definition lower (c : Z) : Z := Z.lor c 0x20.

Section IntSize.

(** [strconv.IntSize]: the width of [int], 32 or 64. *)
Variable intSize : Z.

(** The loop of [ParseUint(s, 10, bitSize)] over the bytes of [s], with the
    accumulator [n] (a [uint64]); [base0] is false for base 10, so the
    underscore case never applies. *)
Fixpoint ParseUint_loop (maxVal : Z) (s : string) (n : Z)
    : Z * option NumError :=
  match s with
  | EmptyString => (n, None)
  | String ch t =>
      let c := byte_val ch in
      let d :=
        if (0x30 <=? c) && (c <=? 0x39) then Some (c - 0x30)
        else if (0x61 <=? lower c) && (lower c <=? 0x7A)
             then Some (lower c - 0x61 + 10)
        else None in
      match d with
      | None => (0, Some ErrSyntax)
      | Some d =>
          if 10 <=? d then (0, Some ErrSyntax)
          else if maxUint64 / 10 + 1 <=? n then
            (* n*base overflows *)
            (maxVal, Some ErrRange)
          else
            let n := wrap_uint64 (n * 10) in
            let n1 := wrap_uint64 (n + d) in
            if (n1 <? n) || (maxVal <? n1) then
              (* n+d overflows *)
              (maxVal, Some ErrRange)
            else ParseUint_loop maxVal t n1
      end
  end.

(** [strconv.ParseUint(s, 10, 0)]. *)
Definition ParseUint (s : string) : Z * option NumError :=
  if String.eqb s EmptyString then (0, Some ErrSyntax)
  else
    let bitSize := intSize in
    let maxVal := wrap_uint64 (wrap_uint64 (Z.shiftl 1 bitSize) - 1) in
    ParseUint_loop maxVal s 0.

(** [strconv.ParseInt(s, 10, 0)]. *)
Definition ParseInt (s : string) : Z * option NumError :=
  match s with
  | EmptyString => (0, Some ErrSyntax)
  | String c0 t =>
      (* Pick off leading sign. *)
      let neg := Ascii.eqb c0 "-" in
      let s' := if Ascii.eqb c0 "+" || Ascii.eqb c0 "-" then t else s in
      (* Convert unsigned and check range. *)
      let '(un, err) := ParseUint s' in
      match err with
      | Some ErrSyntax => (0, Some ErrSyntax)
      | _ =>
          let bitSize := intSize in
          let cutoff := wrap_uint64 (Z.shiftl 1 (bitSize - 1)) in
          if negb neg && (cutoff <=? un) then
            (wrap_int64 (cutoff - 1), Some ErrRange)
          else if neg && (cutoff <? un) then
            (wrap_int64 (- wrap_int64 cutoff), Some ErrRange)
          else
            let n := wrap_int64 un in
            (if neg then wrap_int64 (- n) else n, None)
      end
  end.

(** The fast path's loop: [ch -= '0'; if ch > 9 { syntax error };
    n = n*10 + int(ch)], on an [int]. *)
Fixpoint Atoi_loop (s : string) (n : Z) : option Z :=
  match s with
  | EmptyString => Some n
  | String ch t =>
      let c := (byte_val ch - 0x30) mod 256 in
      if 9 <? c then None
      else Atoi_loop t (wrap_int intSize (n * 10 + c))
  end.

(** [strconv.Atoi]: the value and the error, as Go returns both. *)
Definition Atoi (s : string) : Z * option NumError :=
  let sLen := len s in
  if ((intSize =? 32) && ((0 <? sLen) && (sLen <? 10)))
     || ((intSize =? 64) && ((0 <? sLen) && (sLen <? 19))) then
    (* Fast path for small integers that fit int type. *)
    match s with
    | EmptyString => (0, Some ErrSyntax)
    | String c0 t =>
        let signed := Ascii.eqb c0 "-" || Ascii.eqb c0 "+" in
        let s' := if signed then t else s in
        if signed && (len s' <? 1) then (0, Some ErrSyntax)
        else
          match Atoi_loop s' 0 with
          | None => (0, Some ErrSyntax)
          | Some n =>
              (if Ascii.eqb c0 "-" then wrap_int intSize (- n) else n, None)
          end
    end
  else
    (* Slow path for invalid, big, or underscored integers. *)
    let '(i64, err) := ParseInt s in
    (wrap_int intSize i64, err).

End IntSize.

End Strconv.

(** ** time *)
Module Time.

(** A [time.Duration] is an [int64] count of nanoseconds. *)
Definition Millisecond : Z := 1000000.
Definition minDuration : Z := minInt64.
Definition maxDuration : Z := maxInt64.

(** [lessThanHalf(x, y)]: [uint64(x)+uint64(x) < uint64(y)]. *)
Definition lessThanHalf (x y : Z) : bool :=
  wrap_uint64 (wrap_uint64 x + wrap_uint64 x) <? wrap_uint64 y.

(** [Duration.Round]: Go's [%] truncates towards zero ([Z.rem]) and the
    additions wrap around in [int64]. *)
Definition Round (d m : Z) : Z :=
  if m <=? 0 then d
  else
    let r := Z.rem d m in
    if d <? 0 then
      let r := wrap_int64 (- r) in
      if lessThanHalf r m then wrap_int64 (d + r)
      else
        let d1 := wrap_int64 (d - m + r) in
        if d1 <? d then d1
        else minDuration (* overflow *)
    else
      if lessThanHalf r m then wrap_int64 (d - r)
      else
        let d1 := wrap_int64 (d + m - r) in
        if d <? d1 then d1
        else maxDuration (* overflow *).

(** [Duration.Nanoseconds]: [int64(d)]. *)
Definition Nanoseconds (d : Z) : Z := d.

End Time.

(** ** errors, fmt and reflect

    The error values the package can meet: [errors.New] and a [fmt.Errorf]
    without [%w] build an [*errors.errorString], a [fmt.Errorf] with one
    [%w] builds a [*fmt.wrapError], and a caller may log an error of a type
    of its own, given here by its type name and its message, and by what
    its [Unwrap] method returns when it has one. *)
Inductive error : Type :=
  | errorString (s : string)
  | wrapError (msg : string) (err : error)
  | customError (typ : string) (msg : string)
  | customWrapper (typ : string) (msg : string) (inner : error).

(** The method [Error()]. *)
Definition Error (e : error) : string :=
  match e with
  | errorString s => s
  | wrapError msg _ => msg
  | customError _ msg => msg
  | customWrapper _ msg _ => msg
  end.

(** [reflect.TypeOf(e).String()]. *)
Definition TypeOf_String (e : error) : string :=
  match e with
  | errorString _ => "*errors.errorString"
  | wrapError _ _ => "*fmt.wrapError"
  | customError typ _ => typ
  | customWrapper typ _ _ => typ
  end.

Module Errors.

(** [errors.Unwrap]: the result of the [Unwrap] method, [nil] without one. *)
Definition Unwrap (e : error) : option error :=
  match e with
  | errorString _ => None
  | wrapError _ err => Some err
  | customError _ _ => None
  | customWrapper _ _ inner => Some inner
  end.

End Errors.

Module Fmt.

(** [fmt.Errorf("%s", msg)]. *)
Definition Errorf_s (msg : string) : error := errorString msg.

(** [fmt.Errorf("%s: %w", msg, err)] for a non-nil [err]. *)
Definition Errorf_s_w (msg : string) (err : error) : error :=
  wrapError (msg +:+ ": " +:+ Error err) err.

(** [fmt.Sprintf("%q", s)] for a string with nothing to escape. *)
Definition Sprintf_q (s : string) : string :=
  String (ascii_of_nat 34) s +:+ String (ascii_of_nat 34) EmptyString.

(** The line feed a format ends with. *)
Definition newline : string := String (ascii_of_nat 10) EmptyString.

End Fmt.

(** [strconv.Itoa]. *)
Definition Itoa (z : Z) : string :=
  DecimalString.NilZero.string_of_int (Z.to_int z).

(** ** Values of type [interface{}]

    What the package and its callers store in a field: strings, integers of
    the three Go types the package uses, errors, the nil interface, and a
    function (or pointer to one), which logrus refuses as a field. *)
Inductive Value : Type :=
  | VString (s : string)
  | VInt (z : Z)
  | VInt64 (z : Z)
  | VUint64 (z : Z)
  | VError (e : error)
  | VNil
  | VFunc.

(** A pointer is an index into the store's heap. *)
Abbreviation loc := nat.

(** ** go-nsq *)
Module Nsq.

(** [type LogLevel int] and its constants. *)
Definition LogLevel : Type := Z.
Definition LogLevelDebug : LogLevel := 0.
Definition LogLevelInfo : LogLevel := 1.
Definition LogLevelWarning : LogLevel := 2.
Definition LogLevelError : LogLevel := 3.

(** [LogLevel.String]. *)
Definition String_ (lvl : LogLevel) : string :=
  if lvl =? LogLevelInfo then "INF"
  else if lvl =? LogLevelWarning then "WRN"
  else if lvl =? LogLevelError then "ERR"
  else "DBG".

End Nsq.

(** ** logrus: types *)
Module Logrus.

(** [type Level uint32]; a higher number is a lower severity. *)
Definition Level : Type := N.
Definition PanicLevel : Level := 0%N.
Definition FatalLevel : Level := 1%N.
Definition ErrorLevel : Level := 2%N.
Definition WarnLevel : Level := 3%N.
Definition InfoLevel : Level := 4%N.
Definition DebugLevel : Level := 5%N.
Definition TraceLevel : Level := 6%N.

(** [type Fields map[string]interface{}]. *)
Abbreviation Fields := (gmap string Value).

(** [ErrorKey]: the key [WithError] uses. *)
Definition ErrorKey : string := "error".

(** The hooks a logger of this package can hold: the package's own
    [bugsnagHook] and, in the earlier revision of the file, the hook of
    Shopify/logrus-bugsnag. *)
Inductive Hook : Type :=
  | HookBugsnag
  | HookLogrusBugsnag.

Inductive Formatter : Type :=
  | TextFormatter
  | JSONFormatter (TimestampFormat : string) (FieldMap : gmap string string).

(** [logrus.Logger], without its output and mutex. *)
Record Logger : Type := mkLogger {
  Logger_Level : Level;
  Logger_Hooks : gmap N (list Hook);
  Logger_Formatter : Formatter
}.

(** [logrus.Entry], without its time, caller and context. The [Data] map
    is owned by the one entry it was made for ([NewEntry], [WithFields] and
    [Dup] each [make] a map and no entry hands its map on), so it is stored
    in the entry's cell; writing to it in place is an update of that cell. *)
Record Entry : Type := mkEntry {
  Entry_Logger : loc;
  Entry_Data : Fields;
  Entry_Level : Level;
  Entry_Message : string;
  Entry_err : string
}.

Definition FieldKeyMsg : string := "msg".
Definition RFC3339Nano : string := "2006-01-02T15:04:05.999999999Z07:00".

End Logrus.

(** ** bugsnag-go: types *)
Module Bugsnag.

(** [type MetaData map[string]map[string]interface{}]. *)
Abbreviation MetaData := (gmap string (gmap string Value)).

(** [bugsnag.Configuration], the fields the package sets; [Logger] points to
    the logrus logger behind the [log.Logger] handed over. *)
Record Configuration : Type := mkConfiguration {
  APIKey : string;
  ReleaseStage : string;
  AppVersion : string;
  NotifyReleaseStages : list string;
  ProjectPackages : list string;
  ProjectPaths : list string;
  PackageRoot : string;
  Logger : loc
}.

(** [*bugsnag_errors.Error]: the error and the stack frames skipped. *)
Record Error_ : Type := mkError {
  Err : error;
  skip : Z
}.

(** [bugsnag.Event], the fields the package's callback touches. *)
Record Event : Type := mkEvent {
  ErrorClass : string;
  Error__ : Error_
}.

(** One call of [bugsnag.Notify]. *)
Record Notification : Type := mkNotification {
  notified_error : Error_;
  notified_metadata : MetaData
}.

(** The callbacks [bugsnag.OnBeforeNotify] can be given: the one closure of
    [Init]. *)
Inductive Middleware : Type :=
  | unwrapErrorClass.

End Bugsnag.

(** ** The store *)

Inductive Obj : Type :=
  | OLogrusLogger (l : Logrus.Logger)   (* a logrus.Logger *)
  | OLogger (inner : loc)               (* a Logger{*logrus.Logger} *)
  | OLogrusEntry (e : Logrus.Entry)     (* a logrus.Entry *)
  | OEntry (inner : loc).               (* an Entry{*logrus.Entry} *)

(** A record written to a logger's output: the formatter's input. *)
Record LogLine : Type := mkLogLine {
  line_level : Logrus.Level;
  line_message : string;
  line_fields : Logrus.Fields;
  line_err : string
}.

Record Store : Type := mkStore {
  heap : list Obj;
  (* the package variable [Log]: nil or a pointer to a [Logger] *)
  Log : option loc;
  (* bugsnag's package state: the configurations given to [Configure] and
     the callbacks given to [OnBeforeNotify], latest first *)
  configured : list Bugsnag.Configuration;
  middleware : list Bugsnag.Middleware;
  (* the reporting service: what [bugsnag.Notify] returns for a
     notification, nil or an error *)
  service : Bugsnag.Notification -> option error;
  (* the calls of [bugsnag.Notify], latest first *)
  notified : list Bugsnag.Notification;
  (* what the loggers wrote, latest first *)
  sink : list LogLine;
  (* what logrus wrote to os.Stderr, latest first *)
  stderr : list string
}.

Definition with_heap (h : list Obj) (σ : Store) : Store :=
  mkStore h (Log σ) (configured σ) (middleware σ) (service σ) (notified σ)
          (sink σ) (stderr σ).

Definition with_Log (l : option loc) (σ : Store) : Store :=
  mkStore (heap σ) l (configured σ) (middleware σ) (service σ) (notified σ)
          (sink σ) (stderr σ).

Definition with_configured (c : list Bugsnag.Configuration) (σ : Store)
    : Store :=
  mkStore (heap σ) (Log σ) c (middleware σ) (service σ) (notified σ)
          (sink σ) (stderr σ).

Definition with_middleware (m : list Bugsnag.Middleware) (σ : Store)
    : Store :=
  mkStore (heap σ) (Log σ) (configured σ) m (service σ) (notified σ)
          (sink σ) (stderr σ).

Definition with_notified (n : list Bugsnag.Notification) (σ : Store)
    : Store :=
  mkStore (heap σ) (Log σ) (configured σ) (middleware σ) (service σ) n
          (sink σ) (stderr σ).

Definition with_sink (k : list LogLine) (σ : Store) : Store :=
  mkStore (heap σ) (Log σ) (configured σ) (middleware σ) (service σ)
          (notified σ) k (stderr σ).

Definition with_stderr (k : list string) (σ : Store) : Store :=
  mkStore (heap σ) (Log σ) (configured σ) (middleware σ) (service σ)
          (notified σ) (sink σ) k.

(** The store of a process that has not run [Init], with a reporting
    service that accepts every notification. *)
Definition empty_store : Store :=
  mkStore [] None [] [] (fun _ => None) [] [] [].

(** ** The monad of the embedding: state passing over the store, [None] for
    a run-time panic (a nil or ill-typed pointer, an index out of range, a
    logged panic). *)
Definition M (A : Type) : Type := Store -> option (A * Store).

Global Instance M_ret : MRet M := fun A x σ => Some (x, σ).

Global Instance M_bind : MBind M := fun A B k m σ =>
  match m σ with
  | Some (x, σ') => k x σ'
  | None => None
  end.

Definition panic {A : Type} : M A := fun _ => None.

(** [new(T)] and [&T{...}]: a fresh cell at the end of the heap. *)
Definition alloc (o : Obj) : M loc :=
  fun σ => Some (List.length (heap σ), with_heap (heap σ ++ [o]) σ).

(** A write through a pointer. *)
Definition store_at (l : loc) (o : Obj) : M unit :=
  fun σ => Some (tt, with_heap (<[l := o]> (heap σ)) σ).

Definition deref (l : loc) : M Obj :=
  fun σ =>
    match heap σ !! l with
    | Some o => Some (o, σ)
    | None => None
    end.

Definition deref_logrus_logger (l : loc) : M Logrus.Logger :=
  o ← deref l;
  match o with
  | OLogrusLogger lg => mret lg
  | _ => panic
  end.

Definition deref_logger (l : loc) : M loc :=
  o ← deref l;
  match o with
  | OLogger inner => mret inner
  | _ => panic
  end.

Definition deref_logrus_entry (l : loc) : M Logrus.Entry :=
  o ← deref l;
  match o with
  | OLogrusEntry e => mret e
  | _ => panic
  end.

Definition deref_entry (l : loc) : M loc :=
  o ← deref l;
  match o with
  | OEntry inner => mret inner
  | _ => panic
  end.

(** ** logrus: entries *)
Module LogrusEntry.

Import Logrus.

(** [logrus.NewEntry(logger)]: [&Entry{Logger: logger, Data: make(Fields, 6)}]. *)
Definition NewEntry (logger : loc) : M loc :=
  alloc (OLogrusEntry (mkEntry logger ∅ 0%N EmptyString EmptyString)).

(** [WithFields] refuses a field whose value is a function or a pointer to
    one. *)
Definition isErrField (v : Value) : bool :=
  match v with
  | VFunc => true
  | _ => false
  end.

(** [for k, v := range entry.Data { data[k] = v }] into a map just made. *)
Definition copy_fields (src : Fields) : Fields :=
  map_fold (fun k v (data : Fields) => <[k := v]> data) ∅ src.

(** The second loop of [WithFields], over the fields to add. *)
Definition add_fields (entry_err : string) (fields : Fields)
    (acc : Fields * string) : Fields * string :=
  map_fold
    (fun k v (acc : Fields * string) =>
       let '(data, fieldErr) := acc in
       if isErrField v then
         let tmp := "can not add field " +:+ Fmt.Sprintf_q k in
         (data,
          if negb (String.eqb fieldErr EmptyString)
          then entry_err +:+ ", " +:+ tmp
          else tmp)
       else (<[k := v]> data, fieldErr))
    acc fields.

(** [logrus.Entry.WithFields]: a new entry over a new map; the receiver
    is only read. *)
Definition WithFields (entry : loc) (fields : Fields) : M loc :=
  e ← deref_logrus_entry entry;
  let data := copy_fields (Entry_Data e) in
  let '(data, fieldErr) := add_fields (Entry_err e) fields (data, Entry_err e) in
  alloc (OLogrusEntry
           (mkEntry (Entry_Logger e) data 0%N EmptyString fieldErr)).

(** [logrus.Entry.WithField]: [entry.WithFields(Fields{key: value})]. *)
Definition WithField (entry : loc) (key : string) (value : Value) : M loc :=
  WithFields entry {[ key := value ]}.

(** [logrus.Entry.WithError]: [entry.WithField(ErrorKey, err)]; a nil
    [err] is the nil interface. *)
Definition WithError (entry : loc) (err : option error) : M loc :=
  WithField entry ErrorKey
            (match err with Some e => VError e | None => VNil end).

(** [logrus.Entry.Dup]. *)
Definition Dup (entry : loc) : M loc :=
  e ← deref_logrus_entry entry;
  let data := copy_fields (Entry_Data e) in
  alloc (OLogrusEntry
           (mkEntry (Entry_Logger e) data 0%N EmptyString (Entry_err e))).

End LogrusEntry.

(** ** dd-trace-go *)
Module Tracer.

(** The span context of a span: its trace and span identifiers ([uint64]). *)
Record Span : Type := mkSpan {
  TraceID : Z;
  SpanID : Z
}.

(** A [context.Context], as far as the package looks into it: the active
    span it carries, if any. *)
Definition Context : Type := option Span.

(** [tracer.SpanFromContext]: the span and whether there was one. *)
Definition SpanFromContext (ctx : Context) : option Span := ctx.

End Tracer.

(** ** The package: enrichment methods of [*Entry] *)
Module Entry.

(** The methods of the embedded [*logrus.Entry], promoted to [*Entry]:
    [e.Entry] is read through the pointer [e]. *)

Definition WithField (e : loc) (field : string) (value : Value) : M loc :=
  inner ← deref_entry e;
  le ← LogrusEntry.WithField inner field value;
  alloc (OEntry le).

Definition WithRutilus (e : loc) : M loc :=
  inner ← deref_entry e;
  le ← LogrusEntry.WithField inner "service" (VString "rutilus");
  alloc (OEntry le).

Definition WithHTTPMethod (e : loc) (method : string) : M loc :=
  inner ← deref_entry e;
  le ← LogrusEntry.WithField inner "http_method" (VString method);
  alloc (OEntry le).

Definition WithHTTPResponseCode (e : loc) (code : Z) : M loc :=
  inner ← deref_entry e;
  le ← LogrusEntry.WithField inner "http_response_code" (VString (Itoa code));
  alloc (OEntry le).

(** WithStringFieldIgnoreEmpty adds string value is empty - otherwise noop *)
Definition WithStringFieldIgnoreEmpty (e : loc) (field value : string)
    : M loc :=
  if 0 <? len (Strings.TrimSpace value) then
    WithField e field (VString value)
  else mret e.

Definition WithUser (e : loc) (userID : Z) : M loc :=
  WithField e "user_id" (VUint64 userID).

Section IntSize.

Variable intSize : Z.

(** [WithEvent]: [split[0]] is read before the length test, as in the
    source; an index out of range would panic. The errors of [Atoi] are
    dropped ([objectID, _ = strconv.Atoi(...)]). *)
Definition WithEvent (e : loc) (event : string) : M loc :=
  let split := Strings.Split event "," in
  match split !! 0%nat with
  | None => panic
  | Some eventName =>
      if (List.length split =? 2)%nat then
        match split !! 1%nat with
        | None => panic
        | Some p1 =>
            let objectID := fst (Strconv.Atoi intSize p1) in
            e1 ← WithStringFieldIgnoreEmpty e "event_name" eventName;
            WithField e1 "object_id" (VInt objectID)
        end
      else if (List.length split =? 3)%nat then
        match split !! 1%nat, split !! 2%nat with
        | Some p1, Some p2 =>
            let objectID := fst (Strconv.Atoi intSize p1) in
            let subjectID := fst (Strconv.Atoi intSize p2) in
            e1 ← WithStringFieldIgnoreEmpty e "event_name" eventName;
            e2 ← WithField e1 "object_id" (VInt objectID);
            WithField e2 "subject_id" (VInt subjectID)
        | _, _ => panic
        end
      else WithStringFieldIgnoreEmpty e "event" event
  end.

End IntSize.

Definition WithRelation (e : loc) (relation : string) : M loc :=
  WithStringFieldIgnoreEmpty e "relation" relation.

(** An [nsq.MessageID] is a [[16]byte]; [fmt.Sprintf("%s", id)] is the
    string of its bytes. *)
Definition WithNSQMessageID (e : loc) (id : string) : M loc :=
  WithStringFieldIgnoreEmpty e "nsq_message_id" id.

(** [d.Round(time.Millisecond).Nanoseconds()/1000000], an [int64]; Go's [/]
    truncates towards zero. *)
Definition duration_ms (d : Z) : Z :=
  Z.quot (Time.Nanoseconds (Time.Round d Time.Millisecond)) 1000000.

Definition WithDuration (e : loc) (d : Z) : M loc :=
  WithField e "duration_ms" (VInt64 (duration_ms d)).

(** [WithDuration] in the earlier revision of the file, which also records
    the raw nanoseconds. *)
Definition WithDuration_nsq (e : loc) (d : Z) : M loc :=
  e1 ← WithField e "duration_ms" (VInt64 (duration_ms d));
  WithField e1 "nsq_message_process_duration" (VInt64 (Time.Nanoseconds d)).

Definition WithE2EDuration (e : loc) (d : Z) : M loc :=
  WithField e "e2e_duration_ms" (VInt64 (duration_ms d)).

Definition WithChannel (e : loc) (channel : string) : M loc :=
  WithField e "channel" (VString channel).

Definition WithFCM (e : loc) : M loc :=
  WithChannel e "fcm".

Definition WithNotificationlist (e : loc) : M loc :=
  WithChannel e "notificationlist".

Definition WithError (e : loc) (err : option error) : M loc :=
  inner ← deref_entry e;
  le ← LogrusEntry.WithError inner err;
  alloc (OEntry le).

Definition WithDDTrace (e : loc) (ctx : Tracer.Context) : M loc :=
  match Tracer.SpanFromContext ctx with
  | Some span =>
      (* there was a span in the context *)
      let traceID := Tracer.TraceID span in
      let spanID := Tracer.SpanID span in
      inner ← deref_entry e;
      le ← LogrusEntry.WithFields inner
             (<["dd.trace_id" := VUint64 traceID]>
                (<["dd.span_id" := VUint64 spanID]> ∅));
      alloc (OEntry le)
  | None => mret e
  end.

End Entry.

(** ** bugsnag-go: the client *)
Module BugsnagClient.

(** [bugsnag.Configure]. *)
Definition Configure (config : Bugsnag.Configuration) : M unit :=
  fun σ => Some (tt, with_configured (config :: configured σ) σ).

(** [bugsnag.OnBeforeNotify]. *)
Definition OnBeforeNotify (callback : Bugsnag.Middleware) : M unit :=
  fun σ => Some (tt, with_middleware (callback :: middleware σ) σ).

(** [bugsnag_errors.New(err, skip)]. *)
Definition errors_New (err : error) (skip : Z) : Bugsnag.Error_ :=
  Bugsnag.mkError err skip.

(** The event the client builds for an error: its class is the name of the
    type of the error, [reflect.TypeOf(err.Err).String()]. *)
Definition newEvent (err : Bugsnag.Error_) : Bugsnag.Event :=
  Bugsnag.mkEvent (TypeOf_String (Bugsnag.Err err)) err.

(** [bugsnag.Notify], from the point where the callbacks given to
    [OnBeforeNotify] have returned: the call is recorded and answered by the
    service. The client runs those callbacks first, in the calling goroutine,
    on the event [newEvent err]. The one callback of this package is modelled
    apart ([OnBeforeNotify_callback] below): it changes the class of the
    event and nothing else, and it returns on the errors [unwrap_ends] holds
    of and on no other. What is stated on a call that reaches [Notify] is
    stated for those errors. The lines the client prints through its
    [Logger] are written by the goroutine behind that logger's writer; they
    are no write of the call. *)
Definition Notify (err : Bugsnag.Error_) (metadata : Bugsnag.MetaData)
    : M (option error) :=
  fun σ =>
    let n := Bugsnag.mkNotification err metadata in
    Some (service σ n, with_notified (n :: notified σ) σ).

(** [bugsnag.Config.APIKey]: [Configure] overwrites it with every non-empty
    key it is given. *)
Definition Config_APIKey : M string :=
  fun σ =>
    Some (default EmptyString
            (head (filter (fun k => k ≠ EmptyString)
                          (map Bugsnag.APIKey (configured σ)))), σ).

End BugsnagClient.

(** ** The package: [bugsnagHook] *)
Module bugsnagHook.

(** The loop
    [for key, val := range entry.Data { if key != "error" { metadata["metadata"][key] = val } }]
    on [metadata], whose key ["metadata"] holds a map. *)
Definition range_Data (data : Logrus.Fields) (metadata : Bugsnag.MetaData)
    : Bugsnag.MetaData :=
  map_fold
    (fun key val (metadata : Bugsnag.MetaData) =>
       if negb (String.eqb key "error") then
         <["metadata" := <[key := val]> (default ∅ (metadata !! "metadata"))]>
           metadata
       else metadata)
    metadata data.

(** The error [Fire] reports. [entry.Data["error"].(error)] succeeds on a
    non-nil error value only. *)
Definition notifyErr_of (e : Logrus.Entry) : error :=
  match Logrus.Entry_Data e !! "error" with
  | Some (VError err) =>
      if negb (String.eqb (Logrus.Entry_Message e) EmptyString) then
        Fmt.Errorf_s_w (Logrus.Entry_Message e) err
      else err
  | _ => Fmt.Errorf_s (Logrus.Entry_Message e)
  end.

Definition Fire (entry : loc) : M (option error) :=
  e ← deref_logrus_entry entry;
  let notifyErr := notifyErr_of e in
  let metadata : Bugsnag.MetaData := ∅ in
  let metadata := <["metadata" := ∅]> metadata in
  let metadata := range_Data (Logrus.Entry_Data e) metadata in
  let skipStackFrames := 4 in
  let errWithStack := BugsnagClient.errors_New notifyErr skipStackFrames in
  bugsnagErr ← BugsnagClient.Notify errWithStack metadata;
  match bugsnagErr with
  | Some err => mret (Some err)
  | None => mret None
  end.

Definition Levels : list Logrus.Level :=
  [Logrus.ErrorLevel; Logrus.FatalLevel; Logrus.PanicLevel].

End bugsnagHook.

(** ** Shopify/logrus-bugsnag, the hook of the earlier revision *)
Module LogrusBugsnag.

(** [NewBugsnagHook]: refused ([ErrBugsnagUnconfigured]) while bugsnag has no
    API key. *)
Definition NewBugsnagHook : M (option Logrus.Hook) :=
  key ← BugsnagClient.Config_APIKey;
  if String.eqb key EmptyString then mret None
  else mret (Some Logrus.HookLogrusBugsnag).

Definition Fire (entry : loc) : M (option error) :=
  e ← deref_logrus_entry entry;
  let notifyErr :=
    match Logrus.Entry_Data e !! "error" with
    | Some (VError err) => err
    | _ => errorString (Logrus.Entry_Message e)
    end in
  let metadata :=
    bugsnagHook.range_Data (Logrus.Entry_Data e) (<["metadata" := ∅]> ∅) in
  bugsnagErr ← BugsnagClient.Notify (BugsnagClient.errors_New notifyErr 4)
                                    metadata;
  match bugsnagErr with
  | Some err =>
      mret (Some (customWrapper "logrus_bugsnag.ErrBugsnagSendFailed"
                                ("failed to send error to Bugsnag: "
                                 +:+ Error err) err))
  | None => mret None
  end.

Definition Levels : list Logrus.Level :=
  [Logrus.ErrorLevel; Logrus.FatalLevel; Logrus.PanicLevel].

End LogrusBugsnag.

(** ** logrus: hooks, loggers and emission *)
Module LogrusLogger.

Import Logrus.

(** The methods of the [Hook] interface, by dynamic type. *)
Definition Hook_Levels (hook : Hook) : list Level :=
  match hook with
  | HookBugsnag => bugsnagHook.Levels
  | HookLogrusBugsnag => LogrusBugsnag.Levels
  end.

Definition Hook_Fire (hook : Hook) (entry : loc) : M (option error) :=
  match hook with
  | HookBugsnag => bugsnagHook.Fire entry
  | HookLogrusBugsnag => LogrusBugsnag.Fire entry
  end.

(** [LevelHooks.Add]:
    [for _, level := range hook.Levels() { hooks[level] = append(hooks[level], hook) }]. *)
Definition LevelHooks_Add (hooks : gmap N (list Hook)) (hook : Hook)
    : gmap N (list Hook) :=
  foldl (fun (hooks : gmap N (list Hook)) level =>
           <[level := default [] (hooks !! level) ++ [hook]]> hooks)
        hooks (Hook_Levels hook).

(** The loop of [LevelHooks.Fire]: the first error stops it. *)
Fixpoint fire_each (hooks : list Hook) (entry : loc) : M (option error) :=
  match hooks with
  | [] => mret None
  | hook :: rest =>
      err ← Hook_Fire hook entry;
      match err with
      | Some e => mret (Some e)
      | None => fire_each rest entry
      end
  end.

Definition LevelHooks_Fire (hooks : gmap N (list Hook)) (level : Level)
    (entry : loc) : M (option error) :=
  fire_each (default [] (hooks !! level)) entry.

(** [logrus.New()]. *)
Definition New : M loc :=
  alloc (OLogrusLogger (mkLogger InfoLevel ∅ TextFormatter)).

(** The assignments [log.Formatter = f], [log.Level = l] and the call
    [log.Hooks.Add(hook)], through the pointer [log]. *)
Definition set_Formatter (log : loc) (f : Formatter) : M unit :=
  lg ← deref_logrus_logger log;
  store_at log (OLogrusLogger
                  (mkLogger (Logger_Level lg) (Logger_Hooks lg) f)).

Definition set_Level (log : loc) (l : Level) : M unit :=
  lg ← deref_logrus_logger log;
  store_at log (OLogrusLogger
                  (mkLogger l (Logger_Hooks lg) (Logger_Formatter lg))).

Definition Hooks_Add (log : loc) (hook : Hook) : M unit :=
  lg ← deref_logrus_logger log;
  store_at log (OLogrusLogger
                  (mkLogger (Logger_Level lg)
                            (LevelHooks_Add (Logger_Hooks lg) hook)
                            (Logger_Formatter lg))).

(** [Logger.IsLevelEnabled]: [logger.level() >= level]. *)
Definition IsLevelEnabled (logger : loc) (level : Level) : M bool :=
  lg ← deref_logrus_logger logger;
  mret (level <=? Logger_Level lg)%N.

Definition Fprintf_Stderr (msg : string) : M unit :=
  fun σ => Some (tt, with_stderr (msg :: stderr σ) σ).

Definition Out_Write (line : LogLine) : M unit :=
  fun σ => Some (tt, with_sink (line :: sink σ) σ).

(** [entry.fireHooks()]: an error of a hook goes to standard error, one
    line of it, the format ending with a line feed. *)
Definition fireHooks (entry : loc) : M unit :=
  e ← deref_logrus_entry entry;
  lg ← deref_logrus_logger (Entry_Logger e);
  err ← LevelHooks_Fire (Logger_Hooks lg) (Entry_Level e) entry;
  match err with
  | Some err =>
      Fprintf_Stderr ("Failed to fire hook: " +:+ Error err +:+ Fmt.newline)
  | None => mret tt
  end.

(** [entry.write()]: the formatted record goes to the logger's output. *)
Definition write (entry : loc) : M unit :=
  e ← deref_logrus_entry entry;
  Out_Write (mkLogLine (Entry_Level e) (Entry_Message e) (Entry_Data e)
                       (Entry_err e)).

(** [entry.log(level, msg)] (logrus 1.9): the record is built on a copy of
    the entry. *)
Definition log (entry : loc) (level : Level) (msg : string) : M unit :=
  newEntry ← LogrusEntry.Dup entry;
  ne ← deref_logrus_entry newEntry;
  _ ← store_at newEntry
        (OLogrusEntry (mkEntry (Entry_Logger ne) (Entry_Data ne) level msg
                               (Entry_err ne)));
  _ ← fireHooks newEntry;
  _ ← write newEntry;
  if (level <=? PanicLevel)%N then panic else mret tt.

(** [entry.Log(level, msg)] and [entry.Logln(level, msg)] for one string
    argument, which [fmt.Sprint] and [sprintlnn] leave as it is. *)
Definition Entry_Log (entry : loc) (level : Level) (msg : string) : M unit :=
  e ← deref_logrus_entry entry;
  enabled ← IsLevelEnabled (Entry_Logger e) level;
  if (enabled : bool) then log entry level msg else mret tt.

Definition Entry_Logln (entry : loc) (level : Level) (msg : string)
    : M unit :=
  e ← deref_logrus_entry entry;
  enabled ← IsLevelEnabled (Entry_Logger e) level;
  if (enabled : bool) then Entry_Log entry level msg else mret tt.

Definition Debugln (entry : loc) (msg : string) : M unit :=
  Entry_Logln entry DebugLevel msg.
Definition Infoln (entry : loc) (msg : string) : M unit :=
  Entry_Logln entry InfoLevel msg.
Definition Warnln (entry : loc) (msg : string) : M unit :=
  Entry_Logln entry WarnLevel msg.
Definition Errorln (entry : loc) (msg : string) : M unit :=
  Entry_Logln entry ErrorLevel msg.

(** [logger.Infof(format, args...)] with the formatted message [msg]:
    [Logf] on a new entry of the logger. *)
Definition Infof (logger : loc) (msg : string) : M unit :=
  enabled ← IsLevelEnabled logger InfoLevel;
  if (enabled : bool) then
    entry ← LogrusEntry.NewEntry logger;
    Entry_Log entry InfoLevel msg
  else mret tt.

End LogrusLogger.

(** ** The package: level mapping *)

Definition nsqDebugLevel : string := Nsq.String_ Nsq.LogLevelDebug.
Definition nsqInfoLevel : string := Nsq.String_ Nsq.LogLevelInfo.
Definition nsqWarnLevel : string := Nsq.String_ Nsq.LogLevelWarning.
Definition nsqErrLevel : string := Nsq.String_ Nsq.LogLevelError.

Record LoggingConfig : Type := mkLoggingConfig {
  LogLevel : string;
  Environment : string;
  AppVersion : string;
  BugsnagAPIKey : string;
  BugsnagNotifyReleaseStages : list string;
  BugsnagProjectPackages : list string;
  BugsnagProjectPaths : list string;
  BugsnagPackageRoot : string
}.

Definition getLogrusLogLevel (level : string) : Logrus.Level :=
  let lookup : gmap string Logrus.Level :=
    <["ERROR" := Logrus.ErrorLevel]>
      (<["WARNING" := Logrus.WarnLevel]>
         (<["INFO" := Logrus.InfoLevel]>
            (<["DEBUG" := Logrus.DebugLevel]> ∅))) in
  match lookup !! level with
  | Some loglevel => loglevel
  | None => Logrus.InfoLevel
  end.

(** ** The package: [Logger] *)
Module Logger.

(** The [switch l.Level] of [getNSQLogLevel]. *)
Definition getNSQLogLevel (l : loc) : M Nsq.LogLevel :=
  inner ← deref_logger l;
  lg ← deref_logrus_logger inner;
  let Level := Logrus.Logger_Level lg in
  if (Level =? Logrus.DebugLevel)%N then mret Nsq.LogLevelDebug
  else if (Level =? Logrus.InfoLevel)%N then mret Nsq.LogLevelInfo
  else if (Level =? Logrus.WarnLevel)%N then mret Nsq.LogLevelWarning
  else if (Level =? Logrus.ErrorLevel)%N then mret Nsq.LogLevelError
  else if (Level =? Logrus.FatalLevel)%N then mret Nsq.LogLevelError
  else if (Level =? Logrus.PanicLevel)%N then mret Nsq.LogLevelError
  else mret Nsq.LogLevelInfo.

Definition NewEntry (l : loc) : M loc :=
  inner ← deref_logger l;
  le ← LogrusEntry.NewEntry inner;
  alloc (OEntry le).

Definition WithField (l : loc) (field : string) (value : Value) : M loc :=
  e ← NewEntry l;
  Entry.WithField e field value.

Definition WithDDTrace (l : loc) (ctx : Tracer.Context) : M loc :=
  e ← NewEntry l;
  Entry.WithDDTrace e ctx.

Definition WithError (l : loc) (err : option error) : M loc :=
  e ← NewEntry l;
  Entry.WithError e err.

(** NewNSQLogrusLogger returns a new NSQLogger with the provided log level
    mapped to nsq.LogLevel for easily plugging into nsq.SetLogger. An
    [NSQLogger] is a [struct{ *Entry }]: the pointer it holds. *)
Definition NSQLogger (l : loc) : M (loc * Nsq.LogLevel) :=
  e ← NewEntry l;
  n ← Entry.WithField e "component" (VString "nsq");
  level ← getNSQLogLevel l;
  mret (n, level).

(** [Log.Infof(...)] with the formatted message: the method of the embedded
    [*logrus.Logger]. *)
Definition Infof (l : loc) (msg : string) : M unit :=
  inner ← deref_logger l;
  LogrusLogger.Infof inner msg.

End Logger.

(** ** The package: [NSQLogger] *)
Module NSQLogger.

(** The [switch s[:3]] of [Output]: the severity the message goes out at. *)
Definition level_of_tag (tag : string) : Logrus.Level :=
  if String.eqb tag nsqDebugLevel then Logrus.DebugLevel
  else if String.eqb tag nsqInfoLevel then Logrus.InfoLevel
  else if String.eqb tag nsqWarnLevel then Logrus.WarnLevel
  else if String.eqb tag nsqErrLevel then Logrus.ErrorLevel
  else Logrus.InfoLevel.

(** Output implements stdlib log.Logger.Output using logrus.
    Decodes the go-nsq log messages to figure out the log level.
    [n.Debugln] and the like are methods of the [*logrus.Entry] behind
    [n.Entry]; the result is the error returned, always nil. *)
Definition Output (n : loc) (calldepth : Z) (s : string) : M (option error) :=
  if 3 <? len s then
    let msg := Strings.TrimSpace (slice_from 3 s) in
    let tag := slice_to 3 s in
    entry ← deref_entry n;
    _ ← (if String.eqb tag nsqDebugLevel then LogrusLogger.Debugln entry msg
         else if String.eqb tag nsqInfoLevel then LogrusLogger.Infoln entry msg
         else if String.eqb tag nsqWarnLevel then LogrusLogger.Warnln entry msg
         else if String.eqb tag nsqErrLevel then LogrusLogger.Errorln entry msg
         else LogrusLogger.Infoln entry msg);
    mret None
  else mret None.

End NSQLogger.

(** ** The package: construction and [Init] *)

Definition get_Log : M (option loc) := fun σ => Some (Log σ, σ).

Definition set_Log (l : option loc) : M unit :=
  fun σ => Some (tt, with_Log l σ).

Definition new (withBugsnag : bool) (config : LoggingConfig) : M loc :=
  log ← LogrusLogger.New;
  _ ← LogrusLogger.set_Formatter log
        (Logrus.JSONFormatter Logrus.RFC3339Nano
                              {[ Logrus.FieldKeyMsg := "message" ]});
  _ ← LogrusLogger.set_Level log (getLogrusLogLevel (LogLevel config));
  _ ← (if withBugsnag then LogrusLogger.Hooks_Add log Logrus.HookBugsnag
       else mret tt);
  alloc (OLogger log).

(** The configuration [Init] hands to [bugsnag.Configure]; [logger] is the
    logger [new(false, config)] behind the [log.Logger] it is given. *)
Definition bugsnag_Configuration (config : LoggingConfig) (logger : loc)
    : Bugsnag.Configuration :=
  Bugsnag.mkConfiguration
    (BugsnagAPIKey config) (Environment config) (AppVersion config)
    (BugsnagNotifyReleaseStages config) (BugsnagProjectPackages config)
    (BugsnagProjectPaths config) (BugsnagPackageRoot config) logger.

Definition Init (config : LoggingConfig) : M unit :=
  Log ← get_Log;
  match Log with
  | None =>
      logger ← new false config;
      _ ← BugsnagClient.Configure (bugsnag_Configuration config logger);
      _ ← BugsnagClient.OnBeforeNotify Bugsnag.unwrapErrorClass;
      l ← new true config;
      set_Log (Some l)
  | Some _ => mret tt
  end.

(** *** The earlier revision of the file: the hook of logrus-bugsnag, no
    callback, no [BugsnagPackageRoot]. *)

Definition addBugsnagHook (log : loc) : M unit :=
  hook ← LogrusBugsnag.NewBugsnagHook;
  match hook with
  | Some hook => LogrusLogger.Hooks_Add log hook
  | None => mret tt
  end.

Definition new_logrus_bugsnag (withBugsnag : bool) (config : LoggingConfig)
    : M loc :=
  log ← LogrusLogger.New;
  _ ← LogrusLogger.set_Formatter log
        (Logrus.JSONFormatter Logrus.RFC3339Nano
                              {[ Logrus.FieldKeyMsg := "message" ]});
  _ ← LogrusLogger.set_Level log (getLogrusLogLevel (LogLevel config));
  _ ← (if withBugsnag then addBugsnagHook log else mret tt);
  alloc (OLogger log).

Definition Init_logrus_bugsnag (config : LoggingConfig) : M unit :=
  Log ← get_Log;
  match Log with
  | None =>
      logger ← new_logrus_bugsnag false config;
      _ ← BugsnagClient.Configure
            (Bugsnag.mkConfiguration
               (BugsnagAPIKey config) (Environment config) (AppVersion config)
               (BugsnagNotifyReleaseStages config)
               (BugsnagProjectPackages config) (BugsnagProjectPaths config)
               EmptyString logger);
      l ← new_logrus_bugsnag true config;
      set_Log (Some l)
  | Some _ => mret tt
  end.

(** ** The package: the callback [Init] registers with [OnBeforeNotify] *)
Section Callback.

Variable intSize : Z.

(** [fmt.Sprintf("Failed to unwrap error %s %s %+v", event.ErrorClass, errClass, event.Error)];
    a [*bugsnag_errors.Error] prints as the message of its [Err]. *)
Definition unwrap_failure_message (event : Bugsnag.Event) (errClass : string)
    : string :=
  "Failed to unwrap error " +:+ Bugsnag.ErrorClass event +:+ " " +:+ errClass
  +:+ " " +:+ Error (Bugsnag.Err (Bugsnag.Error__ event)).

(** The [for] loop of the callback, with the variables [errClass] and
    [count]. One unit of [fuel] is one iteration; the result is the final
    [errClass] when the loop is left within [fuel] iterations and [None]
    when it is still running after them. *)
Fixpoint unwrap_loop (fuel : nat) (event : Bugsnag.Event)
    (errClass : string) (count : Z) : M (option string) :=
  match fuel with
  | O => mret None
  | S fuel' =>
      if negb (String.eqb errClass "*fmt.wrapError") then
        (* break *)
        mret (Some errClass)
      else
        let wrappedError :=
          Errors.Unwrap (Bugsnag.Err (Bugsnag.Error__ event)) in
        match wrappedError with
        | None => (* break *) mret (Some errClass)
        | Some wrappedError =>
            let errClass := TypeOf_String wrappedError in
            let count := wrap_int intSize (count + 1) in
            _ ← (if 11 <=? count then
                   Log ← get_Log;
                   match Log with
                   | Some l =>
                       Logger.Infof l (unwrap_failure_message event errClass)
                   | None => panic
                   end
                 else mret tt);
            unwrap_loop fuel' event errClass count
        end
  end.

(** The callback: the event as it leaves it and the error it returns (always
    nil), or [None] when its loop has not ended within [fuel] iterations. *)
Definition OnBeforeNotify_callback (fuel : nat) (event : Bugsnag.Event)
    : M (option (Bugsnag.Event * option error)) :=
  let errClass := Bugsnag.ErrorClass event in
  let count := 0 in
  r ← unwrap_loop fuel event errClass count;
  match r with
  | Some errClass =>
      mret (Some (Bugsnag.mkEvent errClass (Bugsnag.Error__ event), None))
  | None => mret None
  end.

End Callback.

(** ** Observations on the store *)

(** The logrus entry behind the [*Entry] pointer [e]. *)
Definition entry_view (σ : Store) (e : loc) : option Logrus.Entry :=
  match heap σ !! e with
  | Some (OEntry inner) =>
      match heap σ !! inner with
      | Some (OLogrusEntry le) => Some le
      | _ => None
      end
  | _ => None
  end.

(** The Field Set of the entry [e]. *)
Definition entry_fields (σ : Store) (e : loc) : option Logrus.Fields :=
  Logrus.Entry_Data <$> entry_view σ e.

(** The logrus logger behind the [*Logger] pointer [l]. *)
Definition logger_view (σ : Store) (l : loc) : option Logrus.Logger :=
  match heap σ !! l with
  | Some (OLogger inner) =>
      match heap σ !! inner with
      | Some (OLogrusLogger lg) => Some lg
      | _ => None
      end
  | _ => None
  end.

(** [σ'] is [σ] with cells allocated after it: every cell of [σ] is where
    and what it was, and nothing but the heap differs. *)
Definition grows (σ σ' : Store) : Prop :=
  ∃ cells, σ' = with_heap (heap σ ++ cells) σ.

(** A pointer not yet allocated in [σ]. *)
Definition fresh_in (σ : Store) (l : loc) : Prop := heap σ !! l = None.

(** The fields [WithFields] accepts. *)
Definition accepted (fields : Logrus.Fields) : Logrus.Fields :=
  filter (fun kv => LogrusEntry.isErrField kv.2 = false) fields.

(** A small store to run the package on: a logger at level Debug with the
    package's hook, its [Logger] in [Log], and an entry with no fields. *)
Definition demo_logger : Logrus.Logger :=
  Logrus.mkLogger Logrus.DebugLevel
    (LogrusLogger.LevelHooks_Add ∅ Logrus.HookBugsnag)
    (Logrus.JSONFormatter Logrus.RFC3339Nano
                          {[ Logrus.FieldKeyMsg := "message" ]}).

Definition demo_entry : Logrus.Entry :=
  Logrus.mkEntry 0%nat ∅ 0%N EmptyString EmptyString.

Definition demo_store : Store :=
  mkStore [OLogrusLogger demo_logger; OLogger 0%nat;
           OLogrusEntry demo_entry; OEntry 2%nat]
          (Some 1%nat) [] [Bugsnag.unwrapErrorClass] (fun _ => None) [] [] [].

(** [demo_store] after [Log.NSQLogger()]: the new entry of the logger and the
    adapter's entry, tagged [component="nsq"], behind pointer 7. *)
Definition demo_adapter_entry : Logrus.Entry :=
  Logrus.mkEntry 0%nat {[ "component" := VString "nsq" ]} 0%N EmptyString
                 EmptyString.

Definition demo_adapter_store : Store :=
  mkStore [OLogrusLogger demo_logger; OLogger 0%nat;
           OLogrusEntry demo_entry; OEntry 2%nat;
           OLogrusEntry demo_entry; OEntry 4%nat;
           OLogrusEntry demo_adapter_entry; OEntry 6%nat]
          (Some 1%nat) [] [Bugsnag.unwrapErrorClass] (fun _ => None) [] [] [].

(** A record as [log] hands it to the hooks: an error logged at level Error
    with a message and one more field. *)
Definition demo_failed_entry : Logrus.Entry :=
  Logrus.mkEntry 0%nat
    (<["error" := VError (errorString "EOF")]>
       {[ "user_id" := VUint64 10 ]})
    Logrus.ErrorLevel "query failed" EmptyString.

Definition demo_failed_store : Store :=
  mkStore [OLogrusLogger demo_logger; OLogger 0%nat;
           OLogrusEntry demo_failed_entry]
          (Some 1%nat) [] [Bugsnag.unwrapErrorClass] (fun _ => None) [] [] [].

(** ** The enrichment methods as one family *)

Inductive Enrichment : Type :=
  | CallWithField (field : string) (value : Value)
  | CallWithRutilus
  | CallWithHTTPMethod (method : string)
  | CallWithHTTPResponseCode (code : Z)
  | CallWithStringFieldIgnoreEmpty (field value : string)
  | CallWithUser (userID : Z)
  | CallWithEvent (event : string)
  | CallWithRelation (relation : string)
  | CallWithNSQMessageID (id : string)
  | CallWithDuration (d : Z)
  | CallWithDuration_nsq (d : Z)
  | CallWithE2EDuration (d : Z)
  | CallWithFCM
  | CallWithNotificationlist
  | CallWithChannel (channel : string)
  | CallWithError (err : option error)
  | CallWithDDTrace (ctx : Tracer.Context).

Definition enrich (intSize : Z) (c : Enrichment) (e : loc) : M loc :=
  match c with
  | CallWithField field value => Entry.WithField e field value
  | CallWithRutilus => Entry.WithRutilus e
  | CallWithHTTPMethod method => Entry.WithHTTPMethod e method
  | CallWithHTTPResponseCode code => Entry.WithHTTPResponseCode e code
  | CallWithStringFieldIgnoreEmpty field value =>
      Entry.WithStringFieldIgnoreEmpty e field value
  | CallWithUser userID => Entry.WithUser e userID
  | CallWithEvent event => Entry.WithEvent intSize e event
  | CallWithRelation relation => Entry.WithRelation e relation
  | CallWithNSQMessageID id => Entry.WithNSQMessageID e id
  | CallWithDuration d => Entry.WithDuration e d
  | CallWithDuration_nsq d => Entry.WithDuration_nsq e d
  | CallWithE2EDuration d => Entry.WithE2EDuration e d
  | CallWithFCM => Entry.WithFCM e
  | CallWithNotificationlist => Entry.WithNotificationlist e
  | CallWithChannel channel => Entry.WithChannel e channel
  | CallWithError err => Entry.WithError e err
  | CallWithDDTrace ctx => Entry.WithDDTrace e ctx
  end.

(** A string that [strings.TrimSpace] empties. *)
Definition blank (s : string) : bool :=
  String.eqb (Strings.TrimSpace s) EmptyString.

(** The calls that hand back the receiver itself: the [return e] of
    [WithStringFieldIgnoreEmpty] and of [WithDDTrace]. *)
Definition returns_receiver (c : Enrichment) : bool :=
  match c with
  | CallWithStringFieldIgnoreEmpty _ value => blank value
  | CallWithEvent event =>
      let n := List.length (Strings.Split event ",") in
      negb (n =? 2)%nat && negb (n =? 3)%nat && blank event
  | CallWithRelation relation => blank relation
  | CallWithNSQMessageID id => blank id
  | CallWithDDTrace None => true
  | _ => false
  end.

(** ** The claims of the specification, in its words *)

(** [WithStringFieldIgnoreEmpty] on a Field Set: no change for a blank value,
    the field set otherwise. *)
Definition set_ignore_empty (field value : string) (f : Logrus.Fields)
    : Logrus.Fields :=
  if blank value then f else <[field := VString value]> f.

(** "Parsed as an integer, parse failure silently yielding 0". *)
Definition parse_or_zero (intSize : Z) (s : string) : Z :=
  match Strconv.Atoi intSize s with
  | (n, None) => n
  | (_, Some _) => 0
  end.

(** The Field Set after [WithEvent], as the specification words it: a
    failed parse gives 0. *)
Definition spec_event_fields (intSize : Z) (raw : string) (f : Logrus.Fields)
    : Logrus.Fields :=
  match Strings.Split raw "," with
  | [p0; p1] =>
      <["object_id" := VInt (parse_or_zero intSize p1)]>
        (set_ignore_empty "event_name" p0 f)
  | [p0; p1; p2] =>
      <["subject_id" := VInt (parse_or_zero intSize p2)]>
        (<["object_id" := VInt (parse_or_zero intSize p1)]>
           (set_ignore_empty "event_name" p0 f))
  | _ => set_ignore_empty "event" raw f
  end.

(** The Field Set after [WithEvent], with the number [Atoi] returns, error
    or not. *)
Definition event_fields (intSize : Z) (raw : string) (f : Logrus.Fields)
    : Logrus.Fields :=
  match Strings.Split raw "," with
  | [p0; p1] =>
      <["object_id" := VInt (fst (Strconv.Atoi intSize p1))]>
        (set_ignore_empty "event_name" p0 f)
  | [p0; p1; p2] =>
      <["subject_id" := VInt (fst (Strconv.Atoi intSize p2))]>
        (<["object_id" := VInt (fst (Strconv.Atoi intSize p1))]>
           (set_ignore_empty "event_name" p0 f))
  | _ => set_ignore_empty "event" raw f
  end.

(** The number a string of decimal digits denotes, from the accumulator
    [n] on; [None] when a byte is not a digit. *)
Fixpoint decimal_from (s : string) (n : Z) : option Z :=
  match s with
  | EmptyString => Some n
  | String ch t =>
      let c := byte_val ch in
      if (0x30 <=? c) && (c <=? 0x39) then decimal_from t (n * 10 + (c - 0x30))
      else None
  end.

(** The number a non-empty string of decimal digits denotes. *)
Definition decimal_value (s : string) : option Z :=
  match s with
  | EmptyString => None
  | String _ _ => decimal_from s 0
  end.

(** [q] milliseconds is [d] nanoseconds rounded to the nearest millisecond:
    no further than half a millisecond away (a tie has two such [q]). *)
Definition nearest_ms (d q : Z) : Prop :=
  2 * Z.abs (q * 1000000 - d) <= 1000000.

(** Rounding to the nearest millisecond, halves away from zero. *)
Definition round_half_away_ms (d : Z) : Z :=
  Z.sgn d * ((Z.abs d + 500000) / 1000000).

(** The level a configuration string stands for, as the specification
    words it: the four exact names, INFO for anything else. *)
Definition spec_ParseLevel (s : string) : Logrus.Level :=
  if String.eqb s "ERROR" then Logrus.ErrorLevel
  else if String.eqb s "WARNING" then Logrus.WarnLevel
  else if String.eqb s "INFO" then Logrus.InfoLevel
  else if String.eqb s "DEBUG" then Logrus.DebugLevel
  else Logrus.InfoLevel.

(** A string of ASCII white space only. *)
Fixpoint ascii_space_only (s : string) : bool :=
  match s with
  | EmptyString => true
  | String c t => (Strings.asciiSpace (byte_val c) =? 1) && ascii_space_only t
  end.

(** ** Definitions used by the statements *)

(** The entry [WithFields] allocates. *)
Definition with_fields (le : Logrus.Entry) (fields : Logrus.Fields)
    : Logrus.Entry :=
  Logrus.mkEntry (Logrus.Entry_Logger le)
    (accepted fields ∪ Logrus.Entry_Data le) 0%N EmptyString
    (LogrusEntry.add_fields (Logrus.Entry_err le) fields
       (Logrus.Entry_Data le, Logrus.Entry_err le)).2.

(** The shape shared by the methods that wrap a call of [WithFields]. *)
Definition wrap_WithFields (e : loc) (fields : Logrus.Fields) : M loc :=
  inner ← deref_entry e;
  le ← LogrusEntry.WithFields inner fields;
  alloc (OEntry le).

(** What such a call leaves behind: the store has grown, the result is a
    pointer that was not allocated before, and behind it is [le']. *)
Definition allocates (σ : Store) (e' : loc) (σ' : Store) (le' : Logrus.Entry)
    : Prop :=
  grows σ σ' ∧ fresh_in σ e' ∧ entry_view σ' e' = Some le'.

(** [WithField] on a Field Set: the key is set, unless logrus refuses the
    value. *)
Definition set_field (k : string) (v : Value) (f : Logrus.Fields)
    : Logrus.Fields :=
  if LogrusEntry.isErrField v then f else <[k := v]> f.

(** The Field Set each enrichment method leaves in the entry it returns. *)
Definition enriched_fields (intSize : Z) (c : Enrichment) (f : Logrus.Fields)
    : Logrus.Fields :=
  match c with
  | CallWithField field value => set_field field value f
  | CallWithRutilus => <["service" := VString "rutilus"]> f
  | CallWithHTTPMethod method => <["http_method" := VString method]> f
  | CallWithHTTPResponseCode code =>
      <["http_response_code" := VString (Itoa code)]> f
  | CallWithStringFieldIgnoreEmpty field value =>
      set_ignore_empty field value f
  | CallWithUser userID => <["user_id" := VUint64 userID]> f
  | CallWithEvent event => event_fields intSize event f
  | CallWithRelation relation => set_ignore_empty "relation" relation f
  | CallWithNSQMessageID id => set_ignore_empty "nsq_message_id" id f
  | CallWithDuration d => <["duration_ms" := VInt64 (Entry.duration_ms d)]> f
  | CallWithDuration_nsq d =>
      <["nsq_message_process_duration" := VInt64 d]>
        (<["duration_ms" := VInt64 (Entry.duration_ms d)]> f)
  | CallWithE2EDuration d =>
      <["e2e_duration_ms" := VInt64 (Entry.duration_ms d)]> f
  | CallWithFCM => <["channel" := VString "fcm"]> f
  | CallWithNotificationlist => <["channel" := VString "notificationlist"]> f
  | CallWithChannel channel => <["channel" := VString channel]> f
  | CallWithError err =>
      <["error" := match err with Some x => VError x | None => VNil end]> f
  | CallWithDDTrace (Some span) =>
      <["dd.trace_id" := VUint64 (Tracer.TraceID span)]>
        (<["dd.span_id" := VUint64 (Tracer.SpanID span)]> f)
  | CallWithDDTrace None => f
  end.

(** The outcome [r] of an enrichment of [e] in [σ]: it returns, the store
    has only grown, the entry returned holds the fields [f'], and it is the
    receiver in the store as it was ([same]) or a pointer not allocated
    before. *)
Definition result_of (σ : Store) (e : loc) (same : bool) (f' : Logrus.Fields)
    (r : option (loc * Store)) : Prop :=
  ∃ e' σ', r = Some (e', σ')
           ∧ grows σ σ'
           ∧ entry_fields σ' e' = Some f'
           ∧ if same then e' = e ∧ σ' = σ else fresh_in σ e'.

(** The specification's account of [WithEvent]: it returns an entry whose
    Field Set is [spec_event_fields]. *)
Definition spec_WithEvent_claim (intSize : Z) : Prop :=
  ∀ σ e le raw,
    entry_view σ e = Some le ->
    ∃ e' σ', Entry.WithEvent intSize e raw σ = Some (e', σ')
             ∧ entry_fields σ' e'
               = Some (spec_event_fields intSize raw (Logrus.Entry_Data le)).

(** The specification's account of the enrichment methods: each returns a
    new entry, another one than the receiver, and leaves the receiver's
    Field Set as it was. *)
Definition spec_frame_claim (intSize : Z) : Prop :=
  ∀ σ e le c,
    entry_view σ e = Some le ->
    ∃ e' σ', enrich intSize c e σ = Some (e', σ')
             ∧ e' ≠ e
             ∧ entry_fields σ' e = Some (Logrus.Entry_Data le).

(** What [Atoi] returns beside an error. *)
Definition Atoi_policy (intSize : Z) (r : Z * option Strconv.NumError)
    : Prop :=
  match r.2 with
  | None => True
  | Some Strconv.ErrSyntax => r.1 = 0
  | Some Strconv.ErrRange =>
      r.1 = 2 ^ (intSize - 1) - 1 ∨ r.1 = - 2 ^ (intSize - 1)
  end.

(** The specification's account of [duration_ms]: for every duration, the
    nearest millisecond. *)
Definition spec_duration_claim : Prop :=
  ∀ d, minInt64 <= d <= maxInt64 -> nearest_ms d (Entry.duration_ms d).

(** The logger [new] builds. *)
Definition new_logger (withBugsnag : bool) (config : LoggingConfig)
    : Logrus.Logger :=
  Logrus.mkLogger (getLogrusLogLevel (LogLevel config))
    (if withBugsnag then LogrusLogger.LevelHooks_Add ∅ Logrus.HookBugsnag
     else ∅)
    (Logrus.JSONFormatter Logrus.RFC3339Nano
                          {[ Logrus.FieldKeyMsg := "message" ]}).

(** The store [Init] leaves behind when [Log] was nil. *)
Definition initialised (config : LoggingConfig) (σ : Store) : Store :=
  let n := List.length (heap σ) in
  mkStore (heap σ ++ [OLogrusLogger (new_logger false config); OLogger n;
                      OLogrusLogger (new_logger true config);
                      OLogger (S (S n))])
          (Some (S (S (S n))))
          (bugsnag_Configuration config (S n) :: configured σ)
          (Bugsnag.unwrapErrorClass :: middleware σ)
          (service σ) (notified σ) (sink σ) (stderr σ).

(** The notification [Fire] sends for the entry [le]. *)
Definition notification_of (le : Logrus.Entry) : Bugsnag.Notification :=
  Bugsnag.mkNotification
    (Bugsnag.mkError (bugsnagHook.notifyErr_of le) 4)
    {[ "metadata" := delete "error" (Logrus.Entry_Data le) ]}.

(** What an emission changes: the output gains [lines], the heap gains cells,
    and notifications and standard error may gain entries. *)
Definition emits (σ σ' : Store) (lines : list LogLine) : Prop :=
  sink σ' = lines ++ sink σ
  ∧ (∃ cells, heap σ' = heap σ ++ cells)
  ∧ Log σ' = Log σ
  ∧ configured σ' = configured σ
  ∧ middleware σ' = middleware σ
  ∧ service σ' = service σ.

(** Hooks touch neither the heap nor the output. *)
Definition hook_effects (σ σ' : Store) : Prop :=
  heap σ' = heap σ ∧ sink σ' = sink σ ∧ Log σ' = Log σ
  ∧ configured σ' = configured σ ∧ middleware σ' = middleware σ
  ∧ service σ' = service σ.

(** The record an entry writes at [level] with message [msg]. *)
Definition line_of (le : Logrus.Entry) (level : Logrus.Level) (msg : string)
    : LogLine :=
  mkLogLine level msg (Logrus.Entry_Data le) (Logrus.Entry_err le).

(** An event whose error is a wrapped error around a wrapped error, as
    [Fire] builds it when the logged error is itself a [fmt.Errorf] with
    [%w]. *)
Definition twice_wrapped (msg1 msg2 : string) (cause : error) (skip : Z)
    : Bugsnag.Event :=
  Bugsnag.mkEvent "*fmt.wrapError"
    (Bugsnag.mkError (wrapError msg1 (wrapError msg2 cause)) skip).

(** The errors on which the unwrapping of the callback ends: every error
    but a [*fmt.wrapError] that unwraps to a [*fmt.wrapError]. *)
Definition unwrap_ends (e : error) : bool :=
  negb (String.eqb (TypeOf_String e) "*fmt.wrapError")
  || match Errors.Unwrap e with
     | Some w => negb (String.eqb (TypeOf_String w) "*fmt.wrapError")
     | None => true
     end.

(** The store after the package's hook has fired on the record [le] and
    logrus has printed its failure, if any. *)
Definition fired (σ : Store) (le : Logrus.Entry) : Store :=
  let n := notification_of le in
  match service σ n with
  | Some failure =>
      with_stderr (("Failed to fire hook: " +:+ Error failure +:+ Fmt.newline)
                   :: stderr σ)
                  (with_notified (n :: notified σ) σ)
  | None => with_notified (n :: notified σ) σ
  end.

(** ** Strings: parts and borders *)

(** The parts of a split put together again, [sep] between them. *)
Fixpoint join_parts (sep : ascii) (parts : list string) : string :=
  match parts with
  | [] => EmptyString
  | p :: ps =>
      match ps with
      | [] => p
      | _ :: _ => p +:+ String sep (join_parts sep ps)
      end
  end.

(** The number of bytes [c] in [s]. *)
Fixpoint count_byte (c : ascii) (s : string) : nat :=
  match s with
  | EmptyString => 0%nat
  | String b t => ((if Ascii.eqb b c then 1 else 0) + count_byte c t)%nat
  end.

(** An ASCII byte that is not white space. *)
Definition ascii_nonspace (c : ascii) : bool :=
  (byte_val c <? Utf8.RuneSelf) && (Strings.asciiSpace (byte_val c) =? 0).

Fixpoint last_byte (s : string) : option ascii :=
  match s with
  | EmptyString => None
  | String c t =>
      match t with
      | EmptyString => Some c
      | String _ _ => last_byte t
      end
  end.

(** A string that begins and ends with an ASCII byte that is not white
    space; what lies between is free. *)
Definition ascii_bordered (s : string) : bool :=
  match s, last_byte s with
  | String a _, Some b => ascii_nonspace a && ascii_nonspace b
  | _, _ => false
  end.

(** The first [k] bytes of [s] are ASCII white space. *)
Fixpoint spaces_upto (k : nat) (s : string) : bool :=
  match k, s with
  | O, _ => true
  | S k', String c t =>
      (Strings.asciiSpace (byte_val c) =? 1) && spaces_upto k' t
  | S _, EmptyString => false
  end.

(** ** The keys of an enrichment *)

(** The keys a call can write: those that appear in the body of the method.
    [WithEvent] writes some of its four, by the number of parts. *)
Definition own_keys (c : Enrichment) : list string :=
  match c with
  | CallWithField field _ => [field]
  | CallWithRutilus => ["service"]
  | CallWithHTTPMethod _ => ["http_method"]
  | CallWithHTTPResponseCode _ => ["http_response_code"]
  | CallWithStringFieldIgnoreEmpty field _ => [field]
  | CallWithUser _ => ["user_id"]
  | CallWithEvent _ => ["event_name"; "object_id"; "subject_id"; "event"]
  | CallWithRelation _ => ["relation"]
  | CallWithNSQMessageID _ => ["nsq_message_id"]
  | CallWithDuration _ => ["duration_ms"]
  | CallWithDuration_nsq _ => ["duration_ms"; "nsq_message_process_duration"]
  | CallWithE2EDuration _ => ["e2e_duration_ms"]
  | CallWithFCM => ["channel"]
  | CallWithNotificationlist => ["channel"]
  | CallWithChannel _ => ["channel"]
  | CallWithError _ => ["error"]
  | CallWithDDTrace _ => ["dd.trace_id"; "dd.span_id"]
  end.

(** ** The level methods of the embedded [*logrus.Entry] *)
Module Promoted.

(** [type Entry struct { *logrus.Entry }]: [e.Log(level, msg)] on an
    [*Entry] is the method of the logrus entry behind it, and [e.Debug],
    [e.Info], [e.Warn] and [e.Error] are [Log] at their levels. *)
Definition Log (e : loc) (level : Logrus.Level) (msg : string) : M unit :=
  inner ← deref_entry e;
  LogrusLogger.Entry_Log inner level msg.

Definition Debug (e : loc) (msg : string) : M unit :=
  Log e Logrus.DebugLevel msg.
Definition Info (e : loc) (msg : string) : M unit :=
  Log e Logrus.InfoLevel msg.
Definition Warn (e : loc) (msg : string) : M unit :=
  Log e Logrus.WarnLevel msg.
Definition Error (e : loc) (msg : string) : M unit :=
  Log e Logrus.ErrorLevel msg.

End Promoted.

(** ** Emission, in full *)

(** The entry [log] fires the hooks on and writes: a copy of [le] with the
    level and the message. *)
Definition record_of (le : Logrus.Entry) (level : Logrus.Level) (msg : string)
    : Logrus.Entry :=
  Logrus.mkEntry (Logrus.Entry_Logger le) (Logrus.Entry_Data le) level msg
                 (Logrus.Entry_err le).

(** The store after one emission of [le] at [level] through a logger that
    has the package's hook at that level ([hooked]) or no hook there. *)
Definition logged (σ : Store) (le : Logrus.Entry) (level : Logrus.Level)
    (msg : string) (hooked : bool) : Store :=
  let n := notification_of (record_of le level msg) in
  mkStore (heap σ ++ [OLogrusEntry (record_of le level msg)])
          (Log σ) (configured σ) (middleware σ) (service σ)
          (if hooked then n :: notified σ else notified σ)
          (line_of le level msg :: sink σ)
          (if hooked then
             match service σ n with
             | Some err =>
                 ("Failed to fire hook: " +:+ Error err +:+ Fmt.newline)
                 :: stderr σ
             | None => stderr σ
             end
           else stderr σ).

(** The outcome [r] of a call on the entry [e] is an entry of the same
    logger, in a store that has only grown. *)
Definition bound_as (σ : Store) (e : loc) (r : option (loc * Store)) : Prop :=
  ∃ le e' σ' le',
    entry_view σ e = Some le
    ∧ r = Some (e', σ')
    ∧ grows σ σ'
    ∧ entry_view σ' e' = Some le'
    ∧ Logrus.Entry_Logger le' = Logrus.Entry_Logger le.

(** The level [getNSQLogLevel] gives for a logrus level. *)
Definition nsq_level_of (level : Logrus.Level) : Nsq.LogLevel :=
  if (level =? Logrus.DebugLevel)%N then Nsq.LogLevelDebug
  else if (level =? Logrus.InfoLevel)%N then Nsq.LogLevelInfo
  else if (level =? Logrus.WarnLevel)%N then Nsq.LogLevelWarning
  else if (level =? Logrus.ErrorLevel)%N then Nsq.LogLevelError
  else if (level =? Logrus.FatalLevel)%N then Nsq.LogLevelError
  else if (level =? Logrus.PanicLevel)%N then Nsq.LogLevelError
  else Nsq.LogLevelInfo.


(** The record of [demo_failed_store] at another level, and the store that
    holds it. *)
Definition demo_failed_entry_at (level : Logrus.Level) : Logrus.Entry :=
  record_of demo_failed_entry level "query failed".

Definition demo_failed_store_at (level : Logrus.Level) : Store :=
  mkStore [OLogrusLogger demo_logger; OLogger 0%nat;
           OLogrusEntry (demo_failed_entry_at level)]
          (Some 1%nat) [] [Bugsnag.unwrapErrorClass] (fun _ => None) [] [] [].

(** [demo_store] with one more entry, which carries an error, behind
    pointer 5. *)
Definition demo_error_store : Store :=
  mkStore [OLogrusLogger demo_logger; OLogger 0%nat;
           OLogrusEntry demo_entry; OEntry 2%nat;
           OLogrusEntry demo_failed_entry; OEntry 4%nat]
          (Some 1%nat) [] [Bugsnag.unwrapErrorClass] (fun _ => None) [] [] [].

(** Three loggers side by side, at the levels Warn, Debug and Trace. *)
Definition demo_levels_store : Store :=
  mkStore [OLogrusLogger (Logrus.mkLogger Logrus.WarnLevel ∅
                                          Logrus.TextFormatter);
           OLogger 0%nat;
           OLogrusLogger (Logrus.mkLogger Logrus.DebugLevel ∅
                                          Logrus.TextFormatter);
           OLogger 2%nat;
           OLogrusLogger (Logrus.mkLogger Logrus.TraceLevel ∅
                                          Logrus.TextFormatter);
           OLogger 4%nat]
          None [] [] (fun _ => None) [] [] [].

(** [demo_store] with a reporting service that refuses every notification. *)
Definition demo_refusing_store : Store :=
  mkStore [OLogrusLogger demo_logger; OLogger 0%nat;
           OLogrusEntry demo_entry; OEntry 2%nat]
          (Some 1%nat) [] [Bugsnag.unwrapErrorClass]
          (fun _ => Some (errorString "bugsnag: timeout")) [] [] [].

(** The outcome [r] of a constructor of [*Logger]: a new entry of the
    logger, holding the fields [f]. *)
Definition entry_of_logger (σ : Store) (lg : Logrus.Logger)
    (f : Logrus.Fields) (r : option (loc * Store)) : Prop :=
  ∃ e' σ' le',
    r = Some (e', σ')
    ∧ grows σ σ'
    ∧ fresh_in σ e'
    ∧ entry_view σ' e' = Some le'
    ∧ Logrus.Entry_Data le' = f
    ∧ heap σ' !! Logrus.Entry_Logger le' = Some (OLogrusLogger lg).

(** The levels of go-nsq. *)
Definition nsq_levels : list Nsq.LogLevel :=
  [Nsq.LogLevelDebug; Nsq.LogLevelInfo; Nsq.LogLevelWarning;
   Nsq.LogLevelError].

(** ** The earlier revision: the key bugsnag holds *)

(** [bugsnag.Config.APIKey] in the store [σ]. *)
Definition configured_key (σ : Store) : string :=
  default EmptyString
    (head (filter (fun k => k ≠ EmptyString)
                  (map Bugsnag.APIKey (configured σ)))).

(** The logger [new] builds in the earlier revision, when bugsnag holds
    the key [key]. *)
Definition new_logger_logrus_bugsnag (withBugsnag : bool)
    (config : LoggingConfig) (key : string) : Logrus.Logger :=
  Logrus.mkLogger (getLogrusLogLevel (LogLevel config))
    (if withBugsnag && negb (String.eqb key EmptyString)
     then LogrusLogger.LevelHooks_Add ∅ Logrus.HookLogrusBugsnag
     else ∅)
    (Logrus.JSONFormatter Logrus.RFC3339Nano
                          {[ Logrus.FieldKeyMsg := "message" ]}).

(** The level go-nsq is given for a configured level name. *)
Definition nsq_level_of_name (name : string) : Nsq.LogLevel :=
  if String.eqb name "ERROR" then Nsq.LogLevelError
  else if String.eqb name "WARNING" then Nsq.LogLevelWarning
  else if String.eqb name "DEBUG" then Nsq.LogLevelDebug
  else Nsq.LogLevelInfo.

(** * Theorems *)

(** ** The monad *)

Lemma bind_run {A B : Type} (m : M A) (k : A -> M B) σ a σ' :
  m σ = Some (a, σ') -> (m ≫= k) σ = k a σ'.
Proof. intros H. unfold mbind, M_bind. by rewrite H. Qed.

Lemma ret_run {A : Type} (x : A) σ : (mret x : M A) σ = Some (x, σ).
Proof. reflexivity. Qed.

Lemma bind_inv {A B : Type} (m : M A) (k : A -> M B) σ b σ'' :
  (m ≫= k) σ = Some (b, σ'') ->
  ∃ a σ', m σ = Some (a, σ') ∧ k a σ' = Some (b, σ'').
Proof.
  unfold mbind, M_bind. destruct (m σ) as [[a σ']|]; [|done]. eauto.
Qed.

(** ** The store *)

(** Allocation. *)
Lemma alloc_run o σ :
  alloc o σ = Some (List.length (heap σ), with_heap (heap σ ++ [o]) σ).
Proof. reflexivity. Qed.

Lemma store_at_run l o σ :
  store_at l o σ = Some (tt, with_heap (<[l := o]> (heap σ)) σ).
Proof. reflexivity. Qed.

Lemma with_heap_heap h σ : heap (with_heap h σ) = h.
Proof. reflexivity. Qed.

Lemma with_heap_with_heap h h' σ : with_heap h (with_heap h' σ) = with_heap h σ.
Proof. reflexivity. Qed.

Lemma with_heap_id σ : with_heap (heap σ) σ = σ.
Proof. by destruct σ. Qed.

Lemma with_notified_with_notified n n' σ :
  with_notified n (with_notified n' σ) = with_notified n σ.
Proof. reflexivity. Qed.

Lemma lookup_last_cell (h : list Obj) o : (h ++ [o]) !! List.length h = Some o.
Proof. by apply list_lookup_middle. Qed.

Lemma insert_last_cell (h : list Obj) o o' :
  <[List.length h := o']> (h ++ [o]) = h ++ [o'].
Proof.
  rewrite insert_app_r_alt by lia. by rewrite Nat.sub_diag.
Qed.

Lemma grows_refl σ : grows σ σ.
Proof. exists []. by rewrite app_nil_r, with_heap_id. Qed.

Lemma grows_trans σ1 σ2 σ3 : grows σ1 σ2 -> grows σ2 σ3 -> grows σ1 σ3.
Proof.
  intros [k1 ->] [k2 ->]. exists (k1 ++ k2).
  by rewrite with_heap_heap, with_heap_with_heap, app_assoc.
Qed.

Lemma grows_lookup σ σ' l o :
  grows σ σ' -> heap σ !! l = Some o -> heap σ' !! l = Some o.
Proof.
  intros [k ->] H. rewrite with_heap_heap. by apply lookup_app_l_Some.
Qed.

Lemma grows_entry_view σ σ' e le :
  grows σ σ' -> entry_view σ e = Some le -> entry_view σ' e = Some le.
Proof.
  intros Hg. unfold entry_view.
  destruct (heap σ !! e) as [[| |? |inner]|] eqn:He; try done.
  destruct (heap σ !! inner) as [[| |le' |]|] eqn:Hi; try done.
  intros [= ->].
  by rewrite (grows_lookup _ _ _ _ Hg He), (grows_lookup _ _ _ _ Hg Hi).
Qed.

Lemma grows_fresh σ σ' l : grows σ σ' -> fresh_in σ' l -> fresh_in σ l.
Proof.
  intros [k ->]. unfold fresh_in. rewrite with_heap_heap.
  intros H. destruct (heap σ !! l) eqn:E; [|done].
  by rewrite (lookup_app_l_Some _ _ _ _ E) in H.
Qed.

Lemma deref_run σ l o : heap σ !! l = Some o -> deref l σ = Some (o, σ).
Proof. intros H. unfold deref. by rewrite H. Qed.

Lemma deref_logrus_entry_run σ l le :
  heap σ !! l = Some (OLogrusEntry le) ->
  deref_logrus_entry l σ = Some (le, σ).
Proof.
  intros H. unfold deref_logrus_entry.
  by rewrite (bind_run _ _ _ _ _ (deref_run _ _ _ H)).
Qed.

Lemma deref_entry_run σ l inner :
  heap σ !! l = Some (OEntry inner) -> deref_entry l σ = Some (inner, σ).
Proof.
  intros H. unfold deref_entry.
  by rewrite (bind_run _ _ _ _ _ (deref_run _ _ _ H)).
Qed.

Lemma deref_logger_run σ l inner :
  heap σ !! l = Some (OLogger inner) -> deref_logger l σ = Some (inner, σ).
Proof.
  intros H. unfold deref_logger.
  by rewrite (bind_run _ _ _ _ _ (deref_run _ _ _ H)).
Qed.

Lemma deref_logrus_logger_run σ l lg :
  heap σ !! l = Some (OLogrusLogger lg) ->
  deref_logrus_logger l σ = Some (lg, σ).
Proof.
  intros H. unfold deref_logrus_logger.
  by rewrite (bind_run _ _ _ _ _ (deref_run _ _ _ H)).
Qed.

Lemma entry_view_inv σ e le :
  entry_view σ e = Some le ->
  ∃ inner, heap σ !! e = Some (OEntry inner)
           ∧ heap σ !! inner = Some (OLogrusEntry le).
Proof.
  unfold entry_view.
  destruct (heap σ !! e) as [[| |? |inner]|] eqn:He; try done.
  destruct (heap σ !! inner) as [[| |le' |]|] eqn:Hi; try done.
  intros [= ->]. eauto.
Qed.

Lemma entry_fields_view σ e f :
  entry_fields σ e = Some f ->
  ∃ le, entry_view σ e = Some le ∧ Logrus.Entry_Data le = f.
Proof.
  unfold entry_fields. destruct (entry_view σ e) as [le|]; [|done].
  intros [= <-]. eauto.
Qed.

Lemma logger_view_inv σ l lg :
  logger_view σ l = Some lg ->
  ∃ inner, heap σ !! l = Some (OLogger inner)
           ∧ heap σ !! inner = Some (OLogrusLogger lg).
Proof.
  unfold logger_view.
  destruct (heap σ !! l) as [[|inner| |]|] eqn:He; try done.
  destruct (heap σ !! inner) as [[lg'| | |]|] eqn:Hi; try done.
  intros [= ->]. eauto.
Qed.

(** ** Machine integers *)

Lemma wrap_int_id w z :
  w = 32 ∨ w = 64 -> - 2 ^ (w - 1) <= z < 2 ^ (w - 1) -> wrap_int w z = z.
Proof.
  intros [-> | ->] H; unfold wrap_int; simpl in *;
    rewrite Z.mod_small; lia.
Qed.

Lemma wrap_int64_id x : minInt64 <= x <= maxInt64 -> wrap_int64 x = x.
Proof.
  unfold wrap_int64, wrap_int, minInt64, maxInt64.
  change (2 ^ (64 - 1)) with 9223372036854775808.
  change (2 ^ 64) with 18446744073709551616.
  change (2 ^ 63) with 9223372036854775808.
  intros H. rewrite Z.mod_small; lia.
Qed.

Lemma wrap_int64_above x :
  maxInt64 < x <= maxInt64 + 2 ^ 64 -> wrap_int64 x = x - 2 ^ 64.
Proof.
  unfold wrap_int64, wrap_int, minInt64, maxInt64.
  change (2 ^ (64 - 1)) with 9223372036854775808.
  change (2 ^ 64) with 18446744073709551616.
  change (2 ^ 63) with 9223372036854775808.
  intros H. Z.to_euclidean_division_equations. lia.
Qed.

Lemma wrap_int64_below x :
  minInt64 - 2 ^ 64 <= x < minInt64 -> wrap_int64 x = x + 2 ^ 64.
Proof.
  unfold wrap_int64, wrap_int, minInt64, maxInt64.
  change (2 ^ (64 - 1)) with 9223372036854775808.
  change (2 ^ 64) with 18446744073709551616.
  change (2 ^ 63) with 9223372036854775808.
  intros H. Z.to_euclidean_division_equations. lia.
Qed.

Lemma wrap_int64_neg_wrap v :
  0 <= v <= 2 ^ 63 -> wrap_int64 (- wrap_int64 v) = - v.
Proof.
  unfold wrap_int64, wrap_int. simpl. intros H.
  Z.to_euclidean_division_equations. lia.
Qed.

Lemma wrap_uint64_id x : 0 <= x < 2 ^ 64 -> wrap_uint64 x = x.
Proof. intros H. unfold wrap_uint64. by rewrite Z.mod_small. Qed.

(** ** [strconv.Atoi] *)

Lemma decimal_from_ge s : ∀ n v, decimal_from s n = Some v -> 0 <= n -> n <= v.
Proof.
  induction s as [|ch t IH]; intros n v; simpl.
  - intros [= ->] _. lia.
  - destruct ((48 <=? byte_val ch) && (byte_val ch <=? 57)) eqn:E; [|done].
    apply andb_prop in E as [E1 E2]. intros H Hn.
    apply IH in H; lia.
Qed.

Lemma decimal_from_lt s :
  ∀ n v, decimal_from s n = Some v -> 0 <= n ->
         v < (n + 1) * 10 ^ Z.of_nat (String.length s).
Proof.
  induction s as [|ch t IH]; intros n v.
  - simpl. intros [= ->] _. lia.
  - cbn [decimal_from String.length].
    destruct ((48 <=? byte_val ch) && (byte_val ch <=? 57)) eqn:E; [|done].
    apply andb_prop in E as [E1 E2]. intros H Hn.
    apply IH in H; [|lia].
    rewrite Nat2Z.inj_succ, Z.pow_succ_r by lia.
    assert (0 < 10 ^ Z.of_nat (String.length t)) by (apply Z.pow_pos_nonneg; lia).
    nia.
Qed.

Lemma Atoi_loop_decimal w s :
  w = 32 ∨ w = 64 ->
  ∀ n v, decimal_from s n = Some v -> 0 <= n -> v < 2 ^ (w - 1) ->
         Strconv.Atoi_loop w s n = Some v.
Proof.
  intros Hw. induction s as [|ch t IH]; intros n v; simpl.
  - by intros [= ->].
  - destruct ((48 <=? byte_val ch) && (byte_val ch <=? 57)) eqn:E; [|done].
    apply andb_prop in E as [E1 E2]. intros H Hn Hv.
    pose proof (decimal_from_ge _ _ _ H ltac:(lia)) as Hge.
    rewrite (Z.mod_small (byte_val ch - 48) 256) by lia.
    assert ((9 <? byte_val ch - 48) = false) as -> by lia.
    rewrite wrap_int_id; [by apply IH; [|lia|]|done|].
    assert (0 < 2 ^ (w - 1)) by (destruct Hw as [-> | ->]; done). lia.
Qed.

Lemma ParseUint_loop_decimal w s :
  w = 32 ∨ w = 64 ->
  ∀ n v, decimal_from s n = Some v -> 0 <= n -> v <= 2 ^ (w - 1) ->
         Strconv.ParseUint_loop (2 ^ w - 1) s n = (v, None).
Proof.
  intros Hw. induction s as [|ch t IH]; intros n v; simpl.
  - by intros [= ->].
  - destruct ((48 <=? byte_val ch) && (byte_val ch <=? 57)) eqn:E; [|done].
    apply andb_prop in E as [E1 E2]. intros H Hn Hv.
    pose proof (decimal_from_ge _ _ _ H ltac:(lia)) as Hge.
    assert ((10 <=? byte_val ch - 48) = false) as -> by lia.
    assert (2 ^ (w - 1) <= 2 ^ 63 ∧ 2 ^ (w - 1) <= 2 ^ w - 1) as [Hb1 Hb2]
      by (destruct Hw as [-> | ->]; done).
    unfold Strconv.maxUint64.
    change (2 ^ 63) with 9223372036854775808 in Hb1.
    change ((2 ^ 64 - 1) / 10 + 1) with 1844674407370955162.
    assert ((1844674407370955162 <=? n) = false) as -> by lia.
    unfold wrap_uint64. change (2 ^ 64) with 18446744073709551616.
    rewrite (Z.mod_small (n * 10)) by lia.
    rewrite (Z.mod_small (n * 10 + (byte_val ch - 48))) by lia.
    assert ((n * 10 + (byte_val ch - 48) <? n * 10) = false) as -> by lia.
    assert ((2 ^ w - 1 <? n * 10 + (byte_val ch - 48)) = false) as -> by lia.
    simpl. apply IH; [done|lia|done].
Qed.

Lemma digit_not_sign ch :
  (48 <=? byte_val ch) && (byte_val ch <=? 57) = true ->
  Ascii.eqb ch "-" = false ∧ Ascii.eqb ch "+" = false.
Proof.
  intros E. split; apply Ascii.eqb_neq; intros ->; by vm_compute in E.
Qed.

(** When [Atoi] takes its fast path. *)
Lemma fast_path_bound w n :
  w = 32 ∨ w = 64 ->
  ((w =? 32) && ((0 <? n) && (n <? 10))
   || (w =? 64) && ((0 <? n) && (n <? 19))) = true ->
  (w = 32 ∧ n < 10) ∨ (w = 64 ∧ n < 19).
Proof.
  intros [-> | ->]; cbn [Z.eqb Pos.eqb andb orb]; rewrite ?orb_false_r;
    intros [_ H%Z.ltb_lt]%andb_prop; auto.
Qed.

(** [Atoi] on a string of digits that denotes a number an [int] holds. *)
Lemma Atoi_decimal w s v :
  w = 32 ∨ w = 64 ->
  decimal_value s = Some v -> v < 2 ^ (w - 1) ->
  Strconv.Atoi w s = (v, None).
Proof.
  intros Hw Hs Hv. destruct s as [|ch t]; [done|]. simpl in Hs.
  unfold Strconv.Atoi.
  destruct ((48 <=? byte_val ch) && (byte_val ch <=? 57)) eqn:E; [|done].
  destruct (digit_not_sign ch E) as [Hm Hp].
  assert (decimal_from (String ch t) 0 = Some v) as Hd by (simpl; by rewrite E).
  pose proof (decimal_from_ge _ _ _ Hd ltac:(lia)) as H0.
  destruct (_ || _).
  - rewrite Hm, Hp. simpl orb. cbv iota. simpl andb. cbv iota.
    by rewrite (Atoi_loop_decimal w _ Hw 0 v Hd ltac:(lia) Hv).
  - unfold Strconv.ParseInt. rewrite Hm, Hp. simpl orb. cbv iota.
    unfold Strconv.ParseUint.
    change (String.eqb (String ch t) EmptyString) with false. cbv iota.
    assert (wrap_uint64 (wrap_uint64 (Z.shiftl 1 w) - 1) = 2 ^ w - 1) as ->
      by (destruct Hw as [-> | ->]; done).
    rewrite (ParseUint_loop_decimal w _ Hw 0 v Hd ltac:(lia) ltac:(lia)).
    assert (wrap_uint64 (Z.shiftl 1 (w - 1)) = 2 ^ (w - 1)) as ->
      by (destruct Hw as [-> | ->]; done).
    simpl negb. simpl andb.
    assert ((2 ^ (w - 1) <=? v) = false) as -> by lia.
    assert (2 ^ (w - 1) <= 2 ^ 63) by (destruct Hw as [-> | ->]; done).
    assert (wrap_int64 v = v) as ->.
    { apply (wrap_int_id 64); [by right|]. simpl. simpl in H. lia. }
    rewrite wrap_int_id; [done|done|lia].
Qed.

(** [Atoi] on a signed string of digits. *)
Lemma Atoi_minus_decimal w s v :
  w = 32 ∨ w = 64 ->
  decimal_value s = Some v -> v <= 2 ^ (w - 1) ->
  Strconv.Atoi w (String "-" s) = (- v, None).
Proof.
  intros Hw Hs Hv. destruct s as [|ch t]; [done|]. simpl in Hs.
  assert (decimal_from (String ch t) 0 = Some v) as Hd by exact Hs.
  pose proof (decimal_from_ge _ _ _ Hd ltac:(lia)) as H0.
  pose proof (decimal_from_lt _ _ _ Hd ltac:(lia)) as Hlt.
  assert (2 ^ (w - 1) <= 2 ^ 63) as Hb by (destruct Hw as [-> | ->]; done).
  unfold Strconv.Atoi.
  destruct (_ || _) eqn:Hfast.
  - change (Ascii.eqb "-" "-") with true. cbn [orb andb].
    change (len (String ch t) <? 1) with
      (Z.of_nat (S (String.length t)) <? 1).
    assert ((Z.of_nat (S (String.length t)) <? 1) = false) as ->
      by (apply Z.ltb_ge; lia).
    assert (v < 2 ^ (w - 1)) as Hv'.
    { apply fast_path_bound in Hfast; [|done].
      unfold len in Hfast. cbn [String.length] in Hfast, Hlt.
      destruct Hfast as [[-> Hl] | [-> Hl]].
      - assert (10 ^ Z.of_nat (S (String.length t)) <= 10 ^ 8)
          by (apply Z.pow_le_mono_r; lia).
        change (10 ^ 8) with 100000000 in *. simpl (2 ^ _). lia.
      - assert (10 ^ Z.of_nat (S (String.length t)) <= 10 ^ 17)
          by (apply Z.pow_le_mono_r; lia).
        change (10 ^ 17) with 100000000000000000 in *. simpl (2 ^ _). lia. }
    rewrite (Atoi_loop_decimal w _ Hw 0 v Hd ltac:(lia) Hv').
    rewrite wrap_int_id; [done|done|lia].
  - unfold Strconv.ParseInt.
    change (Ascii.eqb "-" "-") with true. cbn [orb].
    change (Ascii.eqb "-" "+") with false. cbn [orb].
    unfold Strconv.ParseUint.
    change (String.eqb (String ch t) EmptyString) with false. cbv iota.
    assert (wrap_uint64 (wrap_uint64 (Z.shiftl 1 w) - 1) = 2 ^ w - 1) as ->
      by (destruct Hw as [-> | ->]; done).
    rewrite (ParseUint_loop_decimal w _ Hw 0 v Hd ltac:(lia) Hv).
    assert (wrap_uint64 (Z.shiftl 1 (w - 1)) = 2 ^ (w - 1)) as ->
      by (destruct Hw as [-> | ->]; done).
    cbn [negb andb].
    assert ((2 ^ (w - 1) <? v) = false) as -> by lia.
    rewrite wrap_int64_neg_wrap by lia.
    rewrite wrap_int_id; [done|done|].
    assert (0 < 2 ^ (w - 1)) by (destruct Hw as [-> | ->]; done). lia.
Qed.

Lemma ParseInt_policy intSize s :
  intSize = 32 ∨ intSize = 64 ->
  match (Strconv.ParseInt intSize s).2 with
  | None => True
  | Some Strconv.ErrSyntax => (Strconv.ParseInt intSize s).1 = 0
  | Some Strconv.ErrRange =>
      (Strconv.ParseInt intSize s).1 = 2 ^ (intSize - 1) - 1
      ∨ (Strconv.ParseInt intSize s).1 = - 2 ^ (intSize - 1)
  end.
Proof.
  intros Hsz. unfold Strconv.ParseInt.
  destruct s as [|c0 t]; [done|].
  destruct (Strconv.ParseUint intSize _) as [un [[|]|]]; simpl; [done| |].
  - destruct (negb (Ascii.eqb c0 "-") && _); simpl.
    { left. by destruct Hsz as [-> | ->]. }
    destruct (Ascii.eqb c0 "-" && _); simpl; [|done].
    right. by destruct Hsz as [-> | ->].
  - destruct (negb (Ascii.eqb c0 "-") && _); simpl.
    { left. by destruct Hsz as [-> | ->]. }
    destruct (Ascii.eqb c0 "-" && _); simpl; [|done].
    right. by destruct Hsz as [-> | ->].
Qed.

Lemma Atoi_policy_holds intSize s :
  intSize = 32 ∨ intSize = 64 ->
  Atoi_policy intSize (Strconv.Atoi intSize s).
Proof.
  intros Hsz. unfold Atoi_policy, Strconv.Atoi.
  destruct (_ || _).
  - destruct s as [|c0 t]; [done|].
    destruct ((Ascii.eqb c0 "-" || Ascii.eqb c0 "+") && _); [done|].
    by destruct (Strconv.Atoi_loop intSize _ 0).
  - pose proof (ParseInt_policy intSize s Hsz) as P.
    destruct (Strconv.ParseInt intSize s) as [i64 [[|]|]]; simpl in *.
    + subst i64. by destruct Hsz as [-> | ->].
    + destruct Hsz as [-> | ->]; destruct P as [-> | ->]; vm_compute; auto.
    + done.
Qed.

Lemma parse_or_zero_agrees intSize s :
  intSize = 32 ∨ intSize = 64 ->
  (Strconv.Atoi intSize s).2 ≠ Some Strconv.ErrRange ->
  (Strconv.Atoi intSize s).1 = parse_or_zero intSize s.
Proof.
  intros Hsz Hr. pose proof (Atoi_policy_holds intSize s Hsz) as P.
  unfold parse_or_zero, Atoi_policy in *.
  destruct (Strconv.Atoi intSize s) as [n [[|]|]]; simpl in *; done.
Qed.

(** ** [strings] *)

Lemma Split_nonempty s sep : Strings.Split s sep ≠ [].
Proof.
  destruct s as [|c t]; simpl; [done|].
  destruct (Ascii.eqb c sep); [done|].
  by destruct (Strings.Split t sep).
Qed.

Lemma len_pos_not_blank s : (0 <? len s) = negb (String.eqb s EmptyString).
Proof. destruct s; reflexivity. Qed.

Lemma ascii_space_only_blank s : ascii_space_only s = true -> blank s = true.
Proof.
  unfold blank. induction s as [|c t IH]; simpl; [done|].
  intros [Hc Ht]%andb_prop.
  assert ((Strings.asciiSpace (byte_val c) =? 0) = false) as Hz
    by (apply Z.eqb_eq in Hc; by rewrite Hc).
  assert ((Utf8.RuneSelf <=? byte_val c) = false) as Hr.
  { unfold Strings.asciiSpace, Utf8.RuneSelf in *.
    destruct (_ || _) eqn:E; [|done].
    repeat (apply orb_prop in E; destruct E as [E | E]);
      apply Z.eqb_eq in E; by rewrite E. }
  rewrite Hr, Hz. by apply IH.
Qed.

(** ** [time.Duration.Round] to the millisecond *)

Lemma lessThanHalf_ms r :
  0 <= r < 1000000 -> Time.lessThanHalf r 1000000 = (2 * r <? 1000000).
Proof.
  intros H. unfold Time.lessThanHalf.
  rewrite (wrap_uint64_id r) by lia.
  rewrite (wrap_uint64_id 1000000) by lia.
  rewrite wrap_uint64_id by lia. f_equal. lia.
Qed.

(** [Round] to the millisecond, case by case. *)
Lemma Round_ms_nonneg d :
  0 <= d <= maxInt64 ->
  Time.Round d Time.Millisecond
  = if 2 * (d mod 1000000) <? 1000000 then d - d mod 1000000
    else if d + 1000000 - d mod 1000000 <=? maxInt64
         then d + 1000000 - d mod 1000000
         else maxInt64.
Proof.
  intros H. unfold Time.Round, Time.Millisecond, Time.maxDuration.
  change (1000000 <=? 0) with false. cbv iota.
  assert ((d <? 0) = false) as -> by lia.
  rewrite Z.rem_mod_nonneg by lia.
  pose proof (Z.mod_pos_bound d 1000000 ltac:(lia)) as Hr.
  rewrite lessThanHalf_ms by lia.
  destruct (2 * (d mod 1000000) <? 1000000) eqn:E.
  - apply wrap_int64_id. unfold minInt64, maxInt64 in *. lia.
  - destruct (d + 1000000 - d mod 1000000 <=? maxInt64) eqn:E2.
    + rewrite wrap_int64_id by (unfold minInt64, maxInt64 in *; lia).
      assert ((d <? d + 1000000 - d mod 1000000) = true) as -> by lia. done.
    + rewrite wrap_int64_above
        by (unfold maxInt64 in *; change (2^64) with 18446744073709551616; lia).
      assert ((d <? d + 1000000 - d mod 1000000 - 2 ^ 64) = false) as ->
        by (change (2^64) with 18446744073709551616; lia).
      done.
Qed.

Lemma Round_ms_neg d :
  minInt64 <= d < 0 ->
  Time.Round d Time.Millisecond
  = if 2 * ((- d) mod 1000000) <? 1000000 then d + (- d) mod 1000000
    else if minInt64 <=? d - 1000000 + (- d) mod 1000000
         then d - 1000000 + (- d) mod 1000000
         else minInt64.
Proof.
  intros H. unfold Time.Round, Time.Millisecond, Time.minDuration.
  change (1000000 <=? 0) with false. cbv iota.
  assert ((d <? 0) = true) as -> by lia.
  assert (Z.rem d 1000000 = - ((- d) mod 1000000)) as ->
    by (Z.to_euclidean_division_equations; lia).
  pose proof (Z.mod_pos_bound (- d) 1000000 ltac:(lia)) as Hr.
  rewrite Z.opp_involutive.
  rewrite (wrap_int64_id ((- d) mod 1000000))
    by (unfold minInt64, maxInt64; lia).
  rewrite lessThanHalf_ms by lia.
  destruct (2 * ((- d) mod 1000000) <? 1000000) eqn:E.
  - apply wrap_int64_id. unfold minInt64, maxInt64 in *. lia.
  - destruct (minInt64 <=? d - 1000000 + (- d) mod 1000000) eqn:E2.
    + rewrite wrap_int64_id by (unfold minInt64, maxInt64 in *; lia).
      assert ((d - 1000000 + (- d) mod 1000000 <? d) = true) as -> by lia.
      done.
    + rewrite wrap_int64_below
        by (unfold minInt64 in *; change (2^64) with 18446744073709551616;
            change (2^63) with 9223372036854775808 in *; lia).
      assert ((d - 1000000 + (- d) mod 1000000 + 2 ^ 64 <? d) = false) as ->
        by (change (2^64) with 18446744073709551616; lia).
      done.
Qed.

(** The milliseconds [WithDuration] records, for every [int64] duration. *)
Lemma duration_ms_cases d :
  minInt64 <= d <= maxInt64 ->
  (-9223372036854500000 < d < 9223372036854500000 ->
   Entry.duration_ms d = round_half_away_ms d)
  ∧ (9223372036854500000 <= d -> Entry.duration_ms d = 9223372036854)
  ∧ (d <= -9223372036854500000 -> Entry.duration_ms d = -9223372036854).
Proof.
  intros H. unfold Entry.duration_ms, Time.Nanoseconds, round_half_away_ms.
  unfold minInt64, maxInt64 in H.
  change (2 ^ 63) with 9223372036854775808 in H.
  destruct (Z.ltb_spec d 0) as [Hneg | Hpos].
  - rewrite Round_ms_neg
      by (unfold minInt64; change (2 ^ 63) with 9223372036854775808; lia).
    unfold minInt64. change (2 ^ 63) with 9223372036854775808.
    rewrite (Z.sgn_neg d) by lia. rewrite (Z.abs_neq d) by lia.
    repeat split; intros Hd;
      repeat case_match; Z.to_euclidean_division_equations; lia.
  - rewrite Round_ms_nonneg
      by (unfold maxInt64; change (2 ^ 63) with 9223372036854775808; lia).
    unfold maxInt64. change (2 ^ 63) with 9223372036854775808.
    rewrite (Z.abs_eq d) by lia.
    destruct (Z.eq_dec d 0) as [-> | Hnz]; [by repeat split|].
    rewrite (Z.sgn_pos d) by lia.
    repeat split; intros Hd;
      repeat case_match; Z.to_euclidean_division_equations; lia.
Qed.

Lemma round_half_away_nearest d : nearest_ms d (round_half_away_ms d).
Proof.
  unfold nearest_ms, round_half_away_ms.
  destruct (Z.lt_trichotomy d 0) as [H | [-> | H]].
  - rewrite (Z.sgn_neg d), (Z.abs_neq d) by lia.
    Z.to_euclidean_division_equations. lia.
  - by vm_compute.
  - rewrite (Z.sgn_pos d), (Z.abs_eq d) by lia.
    Z.to_euclidean_division_equations. lia.
Qed.

(** ** logrus: [WithFields] and [Dup] *)

Lemma copy_fields_id (m : Logrus.Fields) : LogrusEntry.copy_fields m = m.
Proof.
  unfold LogrusEntry.copy_fields.
  apply (map_fold_weak_ind (fun r m => r = m)); [done|].
  intros i x m' r _ ->. done.
Qed.

Lemma add_fields_data entry_err (fields data : Logrus.Fields) fieldErr :
  (LogrusEntry.add_fields entry_err fields (data, fieldErr)).1
  = accepted fields ∪ data.
Proof.
  unfold LogrusEntry.add_fields, accepted.
  apply (map_fold_weak_ind
           (fun r m => r.1 = filter (fun kv => LogrusEntry.isErrField kv.2 = false) m ∪ data)).
  - rewrite map_filter_empty. by rewrite (left_id_L ∅ (∪)).
  - intros i x m [d fe] Hi IH. simpl in IH. subst d. simpl.
    destruct (LogrusEntry.isErrField x) eqn:Hx; simpl.
    + rewrite map_filter_insert_False by (simpl; congruence).
      by rewrite delete_id by done.
    + rewrite map_filter_insert_True by done.
      by rewrite insert_union_l.
Qed.

Lemma accepted_singleton k v :
  accepted {[ k := v ]}
  = if LogrusEntry.isErrField v then ∅ else {[ k := v ]}.
Proof.
  unfold accepted. destruct (LogrusEntry.isErrField v) eqn:Hv.
  - apply map_filter_singleton_False. simpl. congruence.
  - by apply map_filter_singleton_True.
Qed.

Lemma accepted_insert k v (m : Logrus.Fields) :
  LogrusEntry.isErrField v = false ->
  accepted (<[k := v]> m) = <[k := v]> (accepted m).
Proof. intros H. unfold accepted. by rewrite map_filter_insert_True. Qed.

Lemma accepted_empty : accepted ∅ = ∅.
Proof. apply map_filter_empty. Qed.

Lemma LogrusEntry_WithFields_run σ p le fields :
  heap σ !! p = Some (OLogrusEntry le) ->
  LogrusEntry.WithFields p fields σ
  = Some (List.length (heap σ),
          with_heap (heap σ ++ [OLogrusEntry (with_fields le fields)]) σ).
Proof.
  intros H. unfold LogrusEntry.WithFields.
  rewrite (bind_run _ _ _ _ _ (deref_logrus_entry_run _ _ _ H)).
  rewrite copy_fields_id.
  pose proof (add_fields_data (Logrus.Entry_err le) fields
                (Logrus.Entry_Data le) (Logrus.Entry_err le)) as Hd.
  unfold with_fields.
  destruct (LogrusEntry.add_fields _ _ _) as [d fe]. simpl in *.
  by rewrite alloc_run, Hd.
Qed.

Lemma Dup_run σ p le :
  heap σ !! p = Some (OLogrusEntry le) ->
  LogrusEntry.Dup p σ
  = Some (List.length (heap σ),
          with_heap (heap σ ++ [OLogrusEntry
            (Logrus.mkEntry (Logrus.Entry_Logger le) (Logrus.Entry_Data le)
                            0%N EmptyString (Logrus.Entry_err le))]) σ).
Proof.
  intros Hp. unfold LogrusEntry.Dup.
  rewrite (bind_run _ _ _ _ _ (deref_logrus_entry_run _ _ _ Hp)).
  by rewrite copy_fields_id, alloc_run.
Qed.

(** ** The enrichment methods *)

Lemma wrap_WithFields_run σ e le fields :
  entry_view σ e = Some le ->
  wrap_WithFields e fields σ
  = Some (S (List.length (heap σ)),
          with_heap (heap σ ++ [OLogrusEntry (with_fields le fields);
                                OEntry (List.length (heap σ))]) σ).
Proof.
  intros (inner & He & Hi)%entry_view_inv. unfold wrap_WithFields.
  rewrite (bind_run _ _ _ _ _ (deref_entry_run _ _ _ He)).
  rewrite (bind_run _ _ _ _ _ (LogrusEntry_WithFields_run _ _ _ fields Hi)).
  rewrite alloc_run, with_heap_heap, with_heap_with_heap.
  by rewrite length_app, <- app_assoc, Nat.add_1_r.
Qed.

Lemma wrap_WithFields_post σ e le fields :
  entry_view σ e = Some le ->
  ∃ e' σ', wrap_WithFields e fields σ = Some (e', σ')
           ∧ allocates σ e' σ' (with_fields le fields).
Proof.
  intros H. eexists _, _. split; [by apply wrap_WithFields_run|].
  split; [by eexists|]. split.
  - unfold fresh_in. apply lookup_ge_None_2. lia.
  - unfold entry_view. rewrite with_heap_heap.
    rewrite lookup_app_r by lia.
    replace (S (List.length (heap σ)) - List.length (heap σ))%nat with 1%nat by lia.
    simpl. rewrite lookup_app_r by lia. by rewrite Nat.sub_diag.
Qed.

Lemma with_fields_singleton_data le k v :
  Logrus.Entry_Data (with_fields le {[ k := v ]})
  = if LogrusEntry.isErrField v then Logrus.Entry_Data le
    else <[k := v]> (Logrus.Entry_Data le).
Proof.
  simpl. rewrite accepted_singleton.
  destruct (LogrusEntry.isErrField v).
  - by rewrite (left_id_L ∅ (∪)).
  - by rewrite insert_union_singleton_l.
Qed.

Lemma WithStringFieldIgnoreEmpty_run σ e k v :
  Entry.WithStringFieldIgnoreEmpty e k v σ
  = if blank v then Some (e, σ) else Entry.WithField e k (VString v) σ.
Proof.
  unfold Entry.WithStringFieldIgnoreEmpty, blank.
  rewrite len_pos_not_blank.
  by destruct (String.eqb (Strings.TrimSpace v) EmptyString).
Qed.

Lemma result_same σ e le :
  entry_view σ e = Some le ->
  result_of σ e true (Logrus.Entry_Data le) (Some (e, σ)).
Proof.
  intros H. exists e, σ. repeat split; [apply grows_refl|].
  unfold entry_fields. by rewrite H.
Qed.

Lemma result_wrap σ e le fields :
  entry_view σ e = Some le ->
  result_of σ e false (accepted fields ∪ Logrus.Entry_Data le)
            (wrap_WithFields e fields σ).
Proof.
  intros H. destruct (wrap_WithFields_post _ _ _ fields H)
    as (e' & σ' & -> & Hg & Hf & Hv).
  exists e', σ'. repeat split; try done. unfold entry_fields. by rewrite Hv.
Qed.

Lemma result_WithField σ e le k v :
  entry_view σ e = Some le ->
  result_of σ e false (set_field k v (Logrus.Entry_Data le))
            (Entry.WithField e k v σ).
Proof.
  intros H. pose proof (result_wrap _ _ _ {[ k := v ]} H) as R.
  pose proof (with_fields_singleton_data le k v) as D. simpl in D.
  rewrite D in R. exact R.
Qed.

Lemma result_WithString σ e le k v :
  entry_view σ e = Some le ->
  result_of σ e (blank v) (set_ignore_empty k v (Logrus.Entry_Data le))
            (Entry.WithStringFieldIgnoreEmpty e k v σ).
Proof.
  intros H. rewrite WithStringFieldIgnoreEmpty_run. unfold set_ignore_empty.
  destruct (blank v).
  - by apply result_same.
  - apply (result_WithField _ _ _ k (VString v) H).
Qed.

(** Sequencing two enrichments. *)
Lemma result_bind σ e same1 f1 (m : M loc) (k : loc -> M loc) same2 f2 :
  result_of σ e same1 f1 (m σ) ->
  (∀ σ1 e1 le1, entry_view σ1 e1 = Some le1 -> Logrus.Entry_Data le1 = f1 ->
                result_of σ1 e1 same2 f2 (k e1 σ1)) ->
  result_of σ e (same1 && same2) f2 ((m ≫= k) σ).
Proof.
  intros (e1 & σ1 & Hm & Hg1 & Hf1 & Hs1) Hk.
  destruct (entry_fields_view _ _ _ Hf1) as (le1 & Hv1 & Hd1).
  destruct (Hk _ _ _ Hv1 Hd1) as (e2 & σ2 & Hk2 & Hg2 & Hf2 & Hs2).
  exists e2, σ2. rewrite (bind_run _ _ _ _ _ Hm).
  split; [done|]. split; [by eapply grows_trans|]. split; [done|].
  destruct same1, same2; simpl.
  - destruct Hs1 as [-> ->], Hs2 as [-> ->]. done.
  - destruct Hs1 as [-> ->]. done.
  - destruct Hs2 as [-> ->]. done.
  - by eapply grows_fresh.
Qed.

Lemma result_then_fresh σ e same1 f1 (m : M loc) (k : loc -> M loc) f2 :
  result_of σ e same1 f1 (m σ) ->
  (∀ σ1 e1 le1, entry_view σ1 e1 = Some le1 -> Logrus.Entry_Data le1 = f1 ->
                result_of σ1 e1 false f2 (k e1 σ1)) ->
  result_of σ e false f2 ((m ≫= k) σ).
Proof.
  intros Hm Hk. pose proof (result_bind _ _ _ _ _ _ _ _ Hm Hk) as R.
  by rewrite andb_false_r in R.
Qed.

Lemma result_WithEvent intSize σ e le event :
  entry_view σ e = Some le ->
  result_of σ e (returns_receiver (CallWithEvent event))
            (event_fields intSize event (Logrus.Entry_Data le))
            (Entry.WithEvent intSize e event σ).
Proof.
  intros H. unfold Entry.WithEvent, event_fields, returns_receiver.
  pose proof (Split_nonempty event ",") as Hne.
  destruct (Strings.Split event ",") as [|p0 [|p1 [|p2 [|p3 rest]]]];
    [done| | | |]; simpl.
  - by apply result_WithString.
  - eapply result_then_fresh; [by apply result_WithString|].
    intros σ1 e1 le1 H1 <-. by apply (result_WithField _ _ _ _ (VInt _)).
  - eapply result_then_fresh; [by apply result_WithString|].
    intros σ1 e1 le1 H1 <-.
    eapply result_then_fresh;
      [eapply (result_WithField _ _ _ _ (VInt _)); exact H1|].
    intros σ2 e2 le2 H2 Hd2.
    pose proof (result_WithField _ _ _ "subject_id"
                  (VInt (Strconv.Atoi intSize p2).1) H2) as R.
    rewrite Hd2 in R. exact R.
  - by apply result_WithString.
Qed.

(** Every enrichment method, in one statement: what it returns, what the
    entry returned holds, and that the store has only grown. *)
Lemma enrich_result intSize c σ e le :
  entry_view σ e = Some le ->
  result_of σ e (returns_receiver c)
            (enriched_fields intSize c (Logrus.Entry_Data le))
            (enrich intSize c e σ).
Proof.
  intros H. destruct c; simpl.
  - by apply result_WithField.
  - by apply (result_WithField _ _ _ _ (VString _)).
  - by apply (result_WithField _ _ _ _ (VString _)).
  - by apply (result_WithField _ _ _ _ (VString _)).
  - by apply result_WithString.
  - by apply (result_WithField _ _ _ _ (VUint64 _)).
  - by apply result_WithEvent.
  - by apply result_WithString.
  - by apply result_WithString.
  - by apply (result_WithField _ _ _ _ (VInt64 _)).
  - eapply result_then_fresh;
      [eapply (result_WithField _ _ _ _ (VInt64 _)); exact H|].
    intros σ1 e1 le1 H1 Hd1.
    pose proof (result_WithField _ _ _ "nsq_message_process_duration"
                  (VInt64 (Time.Nanoseconds d)) H1) as R.
    rewrite Hd1 in R. exact R.
  - by apply (result_WithField _ _ _ _ (VInt64 _)).
  - by apply (result_WithField _ _ _ _ (VString _)).
  - by apply (result_WithField _ _ _ _ (VString _)).
  - by apply (result_WithField _ _ _ _ (VString _)).
  - destruct err as [x|].
    + exact (result_WithField _ _ _ "error" (VError x) H).
    + exact (result_WithField _ _ _ "error" VNil H).
  - destruct ctx as [span|]; simpl.
    + pose proof (result_wrap _ _ _
        (<["dd.trace_id" := VUint64 (Tracer.TraceID span)]>
           (<["dd.span_id" := VUint64 (Tracer.SpanID span)]> ∅)) H) as R.
      rewrite !accepted_insert, accepted_empty in R by done.
      rewrite <- !insert_union_l, (left_id_L ∅ (∪)) in R. exact R.
    + by apply result_same.
Qed.

(** C10: [WithStringFieldIgnoreEmpty(k, v)] returns the receiver and leaves
    the store as it is when [v] trimmed of white space is empty (the empty
    string and strings of white space included), and is [WithField(k, v)]
    otherwise, which sets [k] to [v]. *)
Theorem WithStringFieldIgnoreEmpty_spec σ e le field value :
  entry_view σ e = Some le ->
  Entry.WithStringFieldIgnoreEmpty e field value σ
  = (if blank value then Some (e, σ)
     else Entry.WithField e field (VString value) σ)
  ∧ (blank value = false ->
     result_of σ e false
       (<[field := VString value]> (Logrus.Entry_Data le))
       (Entry.WithStringFieldIgnoreEmpty e field value σ))
  ∧ (ascii_space_only value = true -> blank value = true)
  ∧ blank "" = true.
Proof.
  intros H. split; [apply WithStringFieldIgnoreEmpty_run|].
  split; [|split; [apply ascii_space_only_blank|done]].
  intros Hb. pose proof (result_WithString _ _ _ field value H) as R.
  unfold set_ignore_empty in R. by rewrite Hb in R.
Qed.

Lemma WithStringFieldIgnoreEmpty_witness :
  entry_view demo_store 3%nat = Some demo_entry
  ∧ Entry.WithStringFieldIgnoreEmpty 3%nat "k" "   " demo_store
    = Some (3%nat, demo_store)
  ∧ Entry.WithStringFieldIgnoreEmpty 3%nat "k" "" demo_store
    = Some (3%nat, demo_store)
  ∧ result_of demo_store 3%nat false {[ "k" := VString "x" ]}
      (Entry.WithStringFieldIgnoreEmpty 3%nat "k" "x" demo_store).
Proof.
  split; [reflexivity|].
  split; [exact (proj1 (WithStringFieldIgnoreEmpty_spec
                          demo_store 3%nat demo_entry "k" "   " eq_refl))|].
  split; [exact (proj1 (WithStringFieldIgnoreEmpty_spec
                          demo_store 3%nat demo_entry "k" "" eq_refl))|].
  exact (proj1 (proj2 (WithStringFieldIgnoreEmpty_spec
                         demo_store 3%nat demo_entry "k" "x" eq_refl))
           eq_refl).
Defined.

(** C1, as stated, fails: on ["a,99999999999999999999"] the parse of part 1
    fails (out of range) and [object_id] is 9223372036854775807, not 0. *)
Lemma WithEvent_out_of_range_not_zero : ¬ spec_WithEvent_claim 64.
Proof.
  intros H.
  destruct (H demo_store 3%nat demo_entry "a,99999999999999999999" eq_refl)
    as (e' & σ' & Hrun & Hf).
  vm_compute in Hrun. injection Hrun as <- <-.
  apply (f_equal (fun o => o ≫= (fun m : Logrus.Fields => m !! "object_id")))
    in Hf.
  vm_compute in Hf. discriminate Hf.
Qed.

(** C1, amended: [WithEvent] never panics; with 2 parts it sets [event_name]
    (unless blank) and [object_id], with 3 parts also [subject_id], and with
    any other count only [event] (unless blank); the numbers are what [Atoi]
    returns with its error dropped: the number the digits denote when an
    [int] holds it, 0 after a syntax error, the largest or smallest [int]
    after a range error. Where no part is out of range this is the Field
    Set the specification describes. *)
Theorem WithEvent_fields intSize σ e le raw :
  intSize = 32 ∨ intSize = 64 ->
  entry_view σ e = Some le ->
  result_of σ e (returns_receiver (CallWithEvent raw))
            (event_fields intSize raw (Logrus.Entry_Data le))
            (Entry.WithEvent intSize e raw σ)
  ∧ (∀ part v, decimal_value part = Some v -> v < 2 ^ (intSize - 1) ->
               Strconv.Atoi intSize part = (v, None))
  ∧ (∀ part v, decimal_value part = Some v -> v <= 2 ^ (intSize - 1) ->
               Strconv.Atoi intSize (String "-" part) = (- v, None))
  ∧ (∀ part, Atoi_policy intSize (Strconv.Atoi intSize part))
  ∧ (∀ part, (Strconv.Atoi intSize part).2 ≠ Some Strconv.ErrRange ->
             (Strconv.Atoi intSize part).1 = parse_or_zero intSize part)
  ∧ ((∀ part, part ∈ Strings.Split raw "," ->
              (Strconv.Atoi intSize part).2 ≠ Some Strconv.ErrRange) ->
     event_fields intSize raw (Logrus.Entry_Data le)
     = spec_event_fields intSize raw (Logrus.Entry_Data le)).
Proof.
  intros Hsz H. split; [by apply result_WithEvent|].
  split; [intros part v; by apply Atoi_decimal|].
  split; [intros part v; by apply Atoi_minus_decimal|].
  split; [intros part; by apply Atoi_policy_holds|].
  split; [intros part; by apply parse_or_zero_agrees|].
  intros Hparts. unfold event_fields, spec_event_fields.
  destruct (Strings.Split raw ",") as [|p0 [|p1 [|p2 [|p3 rest]]]]; try done.
  - rewrite (parse_or_zero_agrees intSize p1 Hsz); [done|].
    apply Hparts. by repeat constructor.
  - rewrite (parse_or_zero_agrees intSize p1 Hsz)
      by (apply Hparts; by repeat constructor).
    rewrite (parse_or_zero_agrees intSize p2 Hsz)
      by (apply Hparts; by repeat constructor).
    done.
Qed.

Lemma WithEvent_witness :
  entry_view demo_store 3%nat = Some demo_entry
  ∧ result_of demo_store 3%nat false
      (<["object_id" := VInt 42]> {[ "event_name" := VString "purchase" ]})
      (Entry.WithEvent 64 3%nat "purchase,42" demo_store)
  ∧ result_of demo_store 3%nat false
      (<["subject_id" := VInt 7]>
         (<["object_id" := VInt 42]> {[ "event_name" := VString "purchase" ]}))
      (Entry.WithEvent 64 3%nat "purchase,42,7" demo_store)
  ∧ result_of demo_store 3%nat false
      {[ "event" := VString "not-a-number-here" ]}
      (Entry.WithEvent 64 3%nat "not-a-number-here" demo_store)
  ∧ result_of demo_store 3%nat false {[ "event" := VString "a,b,c,d" ]}
      (Entry.WithEvent 64 3%nat "a,b,c,d" demo_store)
  ∧ result_of demo_store 3%nat false
      (<["object_id" := VInt 0]> {[ "event_name" := VString "purchase" ]})
      (Entry.WithEvent 64 3%nat "purchase,x" demo_store)
  ∧ result_of demo_store 3%nat false
      (<["object_id" := VInt 9223372036854775807]>
         {[ "event_name" := VString "purchase" ]})
      (Entry.WithEvent 64 3%nat "purchase,99999999999999999999" demo_store)
  ∧ result_of demo_store 3%nat true ∅
      (Entry.WithEvent 64 3%nat "" demo_store).
Proof.
  split; [reflexivity|].
  repeat split;
    match goal with
    | |- result_of _ _ _ _ (Entry.WithEvent _ _ ?raw _) =>
        exact (proj1 (WithEvent_fields 64 demo_store 3%nat demo_entry raw
                        (or_intror eq_refl) eq_refl))
    end.
Defined.

(** C5, as stated, fails: for the largest duration [Round] saturates and
    [duration_ms] is 9223372036854, more than half a millisecond away. *)
Lemma duration_ms_saturates : ¬ spec_duration_claim.
Proof.
  intros H. specialize (H maxInt64 ltac:(by vm_compute)).
  vm_compute in H. by apply H.
Qed.

(** C5, amended: [WithDuration] and [WithE2EDuration] set their field to
    [duration_ms d]; for durations below 9223372036854500000 ns in absolute
    value that is [d] rounded to the nearest millisecond, halves away from
    zero; beyond, [Round] saturates and the field is 9223372036854 or
    -9223372036854. 1,500,000,000 ns give 1500. *)
Theorem WithDuration_milliseconds σ e le d :
  minInt64 <= d <= maxInt64 ->
  entry_view σ e = Some le ->
  result_of σ e false
    (<["duration_ms" := VInt64 (Entry.duration_ms d)]> (Logrus.Entry_Data le))
    (Entry.WithDuration e d σ)
  ∧ result_of σ e false
      (<["nsq_message_process_duration" := VInt64 d]>
         (<["duration_ms" := VInt64 (Entry.duration_ms d)]>
            (Logrus.Entry_Data le)))
      (Entry.WithDuration_nsq e d σ)
  ∧ result_of σ e false
      (<["e2e_duration_ms" := VInt64 (Entry.duration_ms d)]>
         (Logrus.Entry_Data le))
      (Entry.WithE2EDuration e d σ)
  ∧ (-9223372036854500000 < d < 9223372036854500000 ->
     Entry.duration_ms d = round_half_away_ms d
     ∧ nearest_ms d (Entry.duration_ms d))
  ∧ (9223372036854500000 <= d -> Entry.duration_ms d = 9223372036854)
  ∧ (d <= -9223372036854500000 -> Entry.duration_ms d = -9223372036854)
  ∧ Entry.duration_ms 1500000000 = 1500.
Proof.
  intros Hd H.
  split; [exact (enrich_result 64 (CallWithDuration d) _ _ _ H)|].
  split; [exact (enrich_result 64 (CallWithDuration_nsq d) _ _ _ H)|].
  split; [exact (enrich_result 64 (CallWithE2EDuration d) _ _ _ H)|].
  destruct (duration_ms_cases d Hd) as (Hmid & Hhi & Hlo).
  split; [|split; [done|split; [done|reflexivity]]].
  intros Hr. split; [by apply Hmid|].
  rewrite (Hmid Hr). apply round_half_away_nearest.
Qed.

Lemma WithDuration_witness :
  (minInt64 <= 1500000000 <= maxInt64)
  ∧ entry_view demo_store 3%nat = Some demo_entry
  ∧ result_of demo_store 3%nat false {[ "duration_ms" := VInt64 1500 ]}
      (Entry.WithDuration 3%nat 1500000000 demo_store)
  ∧ result_of demo_store 3%nat false {[ "e2e_duration_ms" := VInt64 1500 ]}
      (Entry.WithE2EDuration 3%nat 1500000000 demo_store).
Proof.
  split; [by vm_compute|]. split; [reflexivity|].
  pose proof (WithDuration_milliseconds demo_store 3%nat demo_entry
                1500000000 ltac:(by vm_compute) eq_refl) as (H1 & _ & H3 & _).
  split; [exact H1|exact H3].
Defined.

(** C9, as stated, fails: [WithStringFieldIgnoreEmpty("k", "")] returns the
    receiver itself, not a new entry. *)
Lemma WithStringFieldIgnoreEmpty_returns_receiver : ¬ spec_frame_claim 64.
Proof.
  intros H.
  destruct (H demo_store 3%nat demo_entry
              (CallWithStringFieldIgnoreEmpty "k" "") eq_refl)
    as (e' & σ' & Hrun & Hne & _).
  vm_compute in Hrun. injection Hrun as <- <-. by apply Hne.
Qed.

(** C9, amended: every enrichment method returns, leaves every cell of the
    store (so the receiver and its Field Set) as it was, and returns an
    entry allocated by the call, except where [WithStringFieldIgnoreEmpty]
    (also behind [WithRelation], [WithNSQMessageID] and [WithEvent]) meets a
    blank value or [WithDDTrace] finds no span: there it returns the
    receiver itself and changes nothing. *)
Theorem enrichment_leaves_receiver intSize σ e le c :
  entry_view σ e = Some le ->
  ∃ e' σ',
    enrich intSize c e σ = Some (e', σ')
    ∧ (if returns_receiver c then e' = e ∧ σ' = σ
       else fresh_in σ e' ∧ e' ≠ e)
    ∧ is_Some (entry_view σ' e')
    ∧ entry_view σ' e = Some le
    ∧ entry_fields σ' e = Some (Logrus.Entry_Data le)
    ∧ grows σ σ'
    ∧ (∀ l o, heap σ !! l = Some o -> heap σ' !! l = Some o).
Proof.
  intros H.
  destruct (enrich_result intSize c σ e le H)
    as (e' & σ' & Hrun & Hg & Hf & Hs).
  exists e', σ'. split; [done|].
  pose proof (grows_entry_view _ _ _ _ Hg H) as Hv.
  split; [|split; [|split; [done|split; [|split; [done|]]]]].
  - destruct (returns_receiver c); [done|]. split; [done|].
    intros ->. apply entry_view_inv in H as (inner & He & _).
    unfold fresh_in in Hs. congruence.
  - destruct (entry_fields_view _ _ _ Hf) as (le' & -> & _). by eexists.
  - unfold entry_fields. by rewrite Hv.
  - intros l o. by apply grows_lookup.
Qed.

Lemma enrichment_witness :
  entry_view demo_store 3%nat = Some demo_entry
  ∧ ∃ e' σ',
      enrich 64 (CallWithChannel "fcm") 3%nat demo_store = Some (e', σ')
      ∧ e' ≠ 3%nat
      ∧ entry_fields σ' 3%nat = Some ∅.
Proof.
  split; [reflexivity|].
  destruct (enrichment_leaves_receiver 64 demo_store 3%nat demo_entry
              (CallWithChannel "fcm") eq_refl)
    as (e' & σ' & Hrun & Hnew & _ & _ & Hf & _).
  exists e', σ'. split; [exact Hrun|]. split; [exact (proj2 Hnew)|exact Hf].
Defined.

(** ** The level mapper *)

Lemma getLogrusLogLevel_spec level :
  getLogrusLogLevel level = spec_ParseLevel level.
Proof.
  unfold getLogrusLogLevel, spec_ParseLevel.
  destruct (String.eqb_spec level "ERROR") as [-> | H1]; [done|].
  rewrite lookup_insert_ne by done.
  destruct (String.eqb_spec level "WARNING") as [-> | H2]; [done|].
  rewrite lookup_insert_ne by done.
  destruct (String.eqb_spec level "INFO") as [-> | H3]; [done|].
  rewrite lookup_insert_ne by done.
  destruct (String.eqb_spec level "DEBUG") as [-> | H4]; [done|].
  rewrite lookup_insert_ne by done.
  by rewrite lookup_empty.
Qed.

(** C6: level parsing is total; it returns the level of each of the exact
    strings "ERROR", "WARNING", "INFO" and "DEBUG" and INFO for every other
    string, the empty string, garbage and lowercase names included. *)
Theorem getLogrusLogLevel_total level :
  getLogrusLogLevel level = spec_ParseLevel level
  ∧ getLogrusLogLevel "ERROR" = Logrus.ErrorLevel
  ∧ getLogrusLogLevel "WARNING" = Logrus.WarnLevel
  ∧ getLogrusLogLevel "INFO" = Logrus.InfoLevel
  ∧ getLogrusLogLevel "DEBUG" = Logrus.DebugLevel
  ∧ (level ≠ "ERROR" -> level ≠ "WARNING" -> level ≠ "INFO" ->
     level ≠ "DEBUG" -> getLogrusLogLevel level = Logrus.InfoLevel)
  ∧ getLogrusLogLevel "" = Logrus.InfoLevel
  ∧ getLogrusLogLevel "error" = Logrus.InfoLevel
  ∧ getLogrusLogLevel "debug" = Logrus.InfoLevel
  ∧ getLogrusLogLevel "ashtashtnn212rn2h1h12hxxz" = Logrus.InfoLevel.
Proof.
  split; [apply getLogrusLogLevel_spec|].
  do 4 (split; [done|]). split; [|by repeat split].
  intros H1 H2 H3 H4. rewrite getLogrusLogLevel_spec. unfold spec_ParseLevel.
  by rewrite (proj2 (String.eqb_neq _ _) H1), (proj2 (String.eqb_neq _ _) H2),
    (proj2 (String.eqb_neq _ _) H3), (proj2 (String.eqb_neq _ _) H4).
Qed.

Lemma getLogrusLogLevel_witness :
  getLogrusLogLevel "Warning" = Logrus.InfoLevel.
Proof.
  apply (getLogrusLogLevel_total "Warning"); discriminate.
Defined.

(** C7: [getNSQLogLevel] maps DEBUG to Debug, INFO to Info, WARNING to
    Warning, each of ERROR, FATAL and PANIC to Error, and every other level
    to Info; it only reads the store. *)
Theorem getNSQLogLevel_mapping σ l lg :
  logger_view σ l = Some lg ->
  ∃ level,
    Logger.getNSQLogLevel l σ = Some (level, σ)
    ∧ (Logrus.Logger_Level lg = Logrus.DebugLevel -> level = Nsq.LogLevelDebug)
    ∧ (Logrus.Logger_Level lg = Logrus.InfoLevel -> level = Nsq.LogLevelInfo)
    ∧ (Logrus.Logger_Level lg = Logrus.WarnLevel ->
       level = Nsq.LogLevelWarning)
    ∧ (Logrus.Logger_Level lg = Logrus.ErrorLevel -> level = Nsq.LogLevelError)
    ∧ (Logrus.Logger_Level lg = Logrus.FatalLevel -> level = Nsq.LogLevelError)
    ∧ (Logrus.Logger_Level lg = Logrus.PanicLevel -> level = Nsq.LogLevelError)
    ∧ (Logrus.Logger_Level lg ∉
         [Logrus.DebugLevel; Logrus.InfoLevel; Logrus.WarnLevel;
          Logrus.ErrorLevel; Logrus.FatalLevel; Logrus.PanicLevel] ->
       level = Nsq.LogLevelInfo).
Proof.
  intros (inner & Hl & Hi)%logger_view_inv. unfold Logger.getNSQLogLevel.
  rewrite (bind_run _ _ _ _ _ (deref_logger_run _ _ _ Hl)).
  rewrite (bind_run _ _ _ _ _ (deref_logrus_logger_run _ _ _ Hi)).
  destruct (N.eqb_spec (Logrus.Logger_Level lg) Logrus.DebugLevel) as [->|H5].
  { eexists; split; [reflexivity|]. repeat split; try done.
    intros H; exfalso; apply H; set_solver. }
  destruct (N.eqb_spec (Logrus.Logger_Level lg) Logrus.InfoLevel) as [->|H4].
  { eexists; split; [reflexivity|]. repeat split; done. }
  destruct (N.eqb_spec (Logrus.Logger_Level lg) Logrus.WarnLevel) as [->|H3].
  { eexists; split; [reflexivity|]. repeat split; try done.
    intros H; exfalso; apply H; set_solver. }
  destruct (N.eqb_spec (Logrus.Logger_Level lg) Logrus.ErrorLevel) as [->|H2].
  { eexists; split; [reflexivity|]. repeat split; try done.
    intros H; exfalso; apply H; set_solver. }
  destruct (N.eqb_spec (Logrus.Logger_Level lg) Logrus.FatalLevel) as [->|H1].
  { eexists; split; [reflexivity|]. repeat split; try done.
    intros H; exfalso; apply H; set_solver. }
  destruct (N.eqb_spec (Logrus.Logger_Level lg) Logrus.PanicLevel) as [->|H0].
  { eexists; split; [reflexivity|]. repeat split; try done.
    intros H; exfalso; apply H; set_solver. }
  eexists; split; [reflexivity|]. repeat split; done.
Qed.

Lemma getNSQLogLevel_witness :
  logger_view demo_store 1%nat = Some demo_logger
  ∧ Logger.getNSQLogLevel 1%nat demo_store
    = Some (Nsq.LogLevelDebug, demo_store).
Proof.
  split; [reflexivity|].
  destruct (getNSQLogLevel_mapping demo_store 1%nat demo_logger eq_refl)
    as (level & Hrun & Hdebug & _).
  rewrite Hrun. by rewrite (Hdebug eq_refl).
Defined.

(** ** [new] and [Init] *)

Lemma Init_noop config σ l :
  Log σ = Some l ->
  Init config σ = Some (tt, σ)
  ∧ Init_logrus_bugsnag config σ = Some (tt, σ).
Proof.
  intros H. unfold Init, Init_logrus_bugsnag.
  assert (get_Log σ = Some (Some l, σ)) as Hg by (unfold get_Log; by rewrite H).
  by rewrite !(bind_run _ _ _ _ _ Hg).
Qed.

Lemma new_run withBugsnag config σ :
  new withBugsnag config σ
  = Some (S (List.length (heap σ)),
          with_heap (heap σ ++ [OLogrusLogger (new_logger withBugsnag config);
                                OLogger (List.length (heap σ))]) σ).
Proof.
  unfold new.
  assert (LogrusLogger.New σ = Some (List.length (heap σ),
            with_heap (heap σ ++ [OLogrusLogger
              (Logrus.mkLogger Logrus.InfoLevel ∅ Logrus.TextFormatter)]) σ))
    as H0 by reflexivity.
  rewrite (bind_run _ _ _ _ _ H0). clear H0.
  assert (∀ lg (σ0 : Store) f,
            heap σ0 = heap σ ++ [OLogrusLogger lg] ->
            LogrusLogger.set_Formatter (List.length (heap σ)) f σ0
            = Some (tt, with_heap (heap σ ++ [OLogrusLogger
                 (Logrus.mkLogger (Logrus.Logger_Level lg)
                    (Logrus.Logger_Hooks lg) f)]) σ0)) as HF.
  { intros lg σ0 f Hh. unfold LogrusLogger.set_Formatter.
    rewrite (bind_run _ _ _ _ _ (deref_logrus_logger_run σ0 (List.length (heap σ)) lg
               ltac:(rewrite Hh; apply lookup_last_cell))).
    by rewrite store_at_run, Hh, insert_last_cell. }
  assert (∀ lg (σ0 : Store) lv,
            heap σ0 = heap σ ++ [OLogrusLogger lg] ->
            LogrusLogger.set_Level (List.length (heap σ)) lv σ0
            = Some (tt, with_heap (heap σ ++ [OLogrusLogger
                 (Logrus.mkLogger lv (Logrus.Logger_Hooks lg)
                    (Logrus.Logger_Formatter lg))]) σ0)) as HL.
  { intros lg σ0 lv Hh. unfold LogrusLogger.set_Level.
    rewrite (bind_run _ _ _ _ _ (deref_logrus_logger_run σ0 (List.length (heap σ)) lg
               ltac:(rewrite Hh; apply lookup_last_cell))).
    by rewrite store_at_run, Hh, insert_last_cell. }
  assert (∀ lg (σ0 : Store) hk,
            heap σ0 = heap σ ++ [OLogrusLogger lg] ->
            LogrusLogger.Hooks_Add (List.length (heap σ)) hk σ0
            = Some (tt, with_heap (heap σ ++ [OLogrusLogger
                 (Logrus.mkLogger (Logrus.Logger_Level lg)
                    (LogrusLogger.LevelHooks_Add (Logrus.Logger_Hooks lg) hk)
                    (Logrus.Logger_Formatter lg))]) σ0)) as HH.
  { intros lg σ0 hk Hh. unfold LogrusLogger.Hooks_Add.
    rewrite (bind_run _ _ _ _ _ (deref_logrus_logger_run σ0 (List.length (heap σ)) lg
               ltac:(rewrite Hh; apply lookup_last_cell))).
    by rewrite store_at_run, Hh, insert_last_cell. }
  erewrite bind_run by (apply HF; reflexivity).
  erewrite bind_run by (apply HL; reflexivity).
  rewrite !with_heap_with_heap. simpl Logrus.Logger_Hooks.
  simpl Logrus.Logger_Formatter.
  destruct withBugsnag.
  - erewrite bind_run by (apply HH; reflexivity).
    rewrite alloc_run, !with_heap_with_heap, with_heap_heap.
    rewrite length_app, <- app_assoc. simpl. by rewrite Nat.add_1_r.
  - rewrite (bind_run _ _ _ (tt) _ (ret_run tt _)).
    rewrite alloc_run, !with_heap_with_heap, with_heap_heap.
    rewrite length_app, <- app_assoc. simpl. by rewrite Nat.add_1_r.
Qed.

Lemma Init_run config σ :
  Log σ = None -> Init config σ = Some (tt, initialised config σ).
Proof.
  intros H. unfold Init.
  assert (get_Log σ = Some (None, σ)) as Hg by (unfold get_Log; by rewrite H).
  rewrite (bind_run _ _ _ _ _ Hg).
  rewrite (bind_run _ _ _ _ _ (new_run false config σ)).
  unfold BugsnagClient.Configure, BugsnagClient.OnBeforeNotify.
  unfold mbind at 1, M_bind at 1. unfold mbind at 1, M_bind at 1.
  rewrite (bind_run _ _ _ _ _ (new_run true config _)).
  unfold set_Log, initialised. f_equal. f_equal.
  unfold with_Log, with_heap, with_middleware, with_configured; simpl.
  rewrite length_app, <- app_assoc. simpl.
  rewrite Nat.add_comm. simpl. done.
Qed.

Lemma Init_twice config config' σ :
  (Init config ≫= fun _ => Init config') σ = Init config σ.
Proof.
  destruct (Log σ) as [l|] eqn:HL.
  - destruct (Init_noop config σ l HL) as [H _].
    rewrite (bind_run _ _ _ _ _ H).
    by destruct (Init_noop config' σ l HL) as [-> _].
  - rewrite (bind_run _ _ _ _ _ (Init_run config σ HL)), (Init_run config σ HL).
    by destruct (Init_noop config' (initialised config σ)
                   _ eq_refl) as [-> _].
Qed.

(** C8: once [Log] is set, [Init] (in either revision) returns at once and
    leaves the store, the logger with its level, formatter and hooks
    included, as it is; so a second [Init] after a first changes nothing,
    whatever its configuration, and [Log] is set after any [Init]. *)
Theorem Init_idempotent config config' σ :
  (∀ l, Log σ = Some l ->
        Init config σ = Some (tt, σ)
        ∧ Init_logrus_bugsnag config σ = Some (tt, σ))
  ∧ (Init config ≫= fun _ => Init config') σ = Init config σ
  ∧ ∃ σ' l, Init config σ = Some (tt, σ') ∧ Log σ' = Some l.
Proof.
  split; [intros l; apply Init_noop|]. split; [apply Init_twice|].
  destruct (Log σ) as [l|] eqn:HL.
  - exists σ, l. by destruct (Init_noop config σ l HL) as [-> _].
  - eexists _, _. split; [by apply Init_run|reflexivity].
Qed.

Lemma Init_witness :
  Log demo_store = Some 1%nat
  ∧ Init (mkLoggingConfig "ERROR" "production" "2" "key" [] [] []
                          EmptyString) demo_store
    = Some (tt, demo_store)
  ∧ logger_view demo_store 1%nat = Some demo_logger.
Proof.
  split; [reflexivity|]. split; [|reflexivity].
  exact (proj1 (proj1 (Init_idempotent
                         (mkLoggingConfig "ERROR" "production" "2" "key"
                                          [] [] [] EmptyString)
                         (mkLoggingConfig "" "" "" "" [] [] [] EmptyString)
                         demo_store) 1%nat eq_refl)).
Defined.

(** ** The hook *)

Lemma range_Data_delete (data : Logrus.Fields) :
  bugsnagHook.range_Data data (<["metadata" := ∅]> ∅)
  = {[ "metadata" := delete "error" data ]}.
Proof.
  unfold bugsnagHook.range_Data. rewrite insert_empty.
  apply (map_fold_weak_ind
           (fun (r : Bugsnag.MetaData) (m : Logrus.Fields) =>
              r = {[ "metadata" := delete "error" m ]})).
  - by rewrite delete_empty.
  - intros i x m r Hi ->.
    destruct (String.eqb_spec i "error") as [-> | Hne]; simpl.
    + by rewrite delete_insert_eq, delete_id.
    + rewrite lookup_singleton_eq. simpl.
      rewrite insert_singleton_eq. by rewrite delete_insert_ne.
Qed.

Lemma Fire_run σ p le :
  heap σ !! p = Some (OLogrusEntry le) ->
  bugsnagHook.Fire p σ
  = Some (service σ (notification_of le),
          with_notified (notification_of le :: notified σ) σ).
Proof.
  intros H. unfold bugsnagHook.Fire.
  rewrite (bind_run _ _ _ _ _ (deref_logrus_entry_run _ _ _ H)).
  rewrite range_Data_delete.
  unfold BugsnagClient.Notify, BugsnagClient.errors_New, notification_of.
  unfold mbind, M_bind.
  by destruct (service σ _).
Qed.

(** ** Emission and the adapter of the queue client *)

Lemma LogrusBugsnag_Fire_run σ p le :
  heap σ !! p = Some (OLogrusEntry le) ->
  ∃ r n, LogrusBugsnag.Fire p σ
         = Some (r, with_notified (n :: notified σ) σ).
Proof.
  intros H. unfold LogrusBugsnag.Fire.
  rewrite (bind_run _ _ _ _ _ (deref_logrus_entry_run _ _ _ H)).
  unfold BugsnagClient.Notify, mbind, M_bind.
  destruct (service σ _); eauto.
Qed.

Lemma Hook_Fire_run hook σ p le :
  heap σ !! p = Some (OLogrusEntry le) ->
  ∃ r n, LogrusLogger.Hook_Fire hook p σ
         = Some (r, with_notified (n :: notified σ) σ).
Proof.
  intros H. destruct hook; simpl.
  - rewrite (Fire_run _ _ _ H). eauto.
  - by eapply LogrusBugsnag_Fire_run.
Qed.

Lemma fire_each_run hooks p le :
  ∀ σ, heap σ !! p = Some (OLogrusEntry le) ->
       ∃ r ns, LogrusLogger.fire_each hooks p σ
               = Some (r, with_notified (ns ++ notified σ) σ).
Proof.
  induction hooks as [|hook rest IH]; intros σ H; simpl.
  - exists None, []. by destruct σ.
  - destruct (Hook_Fire_run hook σ p le H) as (r & n & Hf).
    rewrite (bind_run _ _ _ _ _ Hf). destruct r as [err|].
    + exists (Some err), [n]. reflexivity.
    + destruct (IH (with_notified (n :: notified σ) σ) H) as (r & ns & Hr).
      exists r, (ns ++ [n]). rewrite Hr. simpl.
      by rewrite with_notified_with_notified, <- app_assoc.
Qed.

Lemma fireHooks_run σ p e lg :
  heap σ !! p = Some (OLogrusEntry e) ->
  heap σ !! Logrus.Entry_Logger e = Some (OLogrusLogger lg) ->
  ∃ σ', LogrusLogger.fireHooks p σ = Some (tt, σ') ∧ hook_effects σ σ'.
Proof.
  intros Hp Hl. unfold LogrusLogger.fireHooks.
  rewrite (bind_run _ _ _ _ _ (deref_logrus_entry_run _ _ _ Hp)).
  rewrite (bind_run _ _ _ _ _ (deref_logrus_logger_run _ _ _ Hl)).
  unfold LogrusLogger.LevelHooks_Fire.
  destruct (fire_each_run
              (default [] (Logrus.Logger_Hooks lg !! Logrus.Entry_Level e))
              _ _ σ Hp) as (r & ns & Hf).
  rewrite (bind_run _ _ _ _ _ Hf).
  destruct r; eexists; (split; [reflexivity|]); by repeat split.
Qed.

Lemma write_run σ p e :
  heap σ !! p = Some (OLogrusEntry e) ->
  LogrusLogger.write p σ
  = Some (tt, with_sink (mkLogLine (Logrus.Entry_Level e)
                           (Logrus.Entry_Message e) (Logrus.Entry_Data e)
                           (Logrus.Entry_err e) :: sink σ) σ).
Proof.
  intros Hp. unfold LogrusLogger.write.
  by rewrite (bind_run _ _ _ _ _ (deref_logrus_entry_run _ _ _ Hp)).
Qed.

(** ** The hook, fired *)

Lemma package_hooks_at level :
  default [] (LogrusLogger.LevelHooks_Add ∅ Logrus.HookBugsnag !! level)
  = if bool_decide (level ∈ bugsnagHook.Levels)
    then [Logrus.HookBugsnag] else [].
Proof.
  unfold LogrusLogger.LevelHooks_Add, bugsnagHook.Levels.
  simpl. rewrite !lookup_insert.
  case_bool_decide as Hin; rewrite !elem_of_cons, elem_of_nil in Hin;
    repeat case_decide; subst; try done; exfalso; intuition congruence.
Qed.

(** [fireHooks] on a record whose logger holds at its level the package's
    hook alone ([hooked]) or no hook. *)
Lemma fireHooks_exact σ p le lg (hooked : bool) :
  heap σ !! p = Some (OLogrusEntry le) ->
  heap σ !! Logrus.Entry_Logger le = Some (OLogrusLogger lg) ->
  default [] (Logrus.Logger_Hooks lg !! Logrus.Entry_Level le)
  = (if hooked then [Logrus.HookBugsnag] else []) ->
  LogrusLogger.fireHooks p σ = Some (tt, if hooked then fired σ le else σ).
Proof.
  intros Hp Hl Hh. unfold LogrusLogger.fireHooks.
  rewrite (bind_run _ _ _ _ _ (deref_logrus_entry_run _ _ _ Hp)).
  rewrite (bind_run _ _ _ _ _ (deref_logrus_logger_run _ _ _ Hl)).
  unfold LogrusLogger.LevelHooks_Fire.
  replace (default [] (Logrus.Logger_Hooks lg !! Logrus.Entry_Level le))
    with (if hooked then [Logrus.HookBugsnag] else [])
    by (symmetry; exact Hh).
  destruct hooked; [|reflexivity].
  assert (LogrusLogger.fire_each [Logrus.HookBugsnag] p σ
          = Some (service σ (notification_of le),
                  with_notified (notification_of le :: notified σ) σ))
    as Hfe.
  { cbn [LogrusLogger.fire_each LogrusLogger.Hook_Fire].
    rewrite (bind_run _ _ _ _ _ (Fire_run _ _ _ Hp)).
    by destruct (service σ (notification_of le)). }
  rewrite (bind_run _ _ _ _ _ Hfe). unfold fired.
  by destruct (service σ (notification_of le)).
Qed.

Lemma log_exact σ p le lg level msg (hooked : bool) :
  heap σ !! p = Some (OLogrusEntry le) ->
  heap σ !! Logrus.Entry_Logger le = Some (OLogrusLogger lg) ->
  (Logrus.PanicLevel < level)%N ->
  default [] (Logrus.Logger_Hooks lg !! level)
  = (if hooked then [Logrus.HookBugsnag] else []) ->
  LogrusLogger.log p level msg σ = Some (tt, logged σ le level msg hooked).
Proof.
  intros Hp Hl Hlv Hh. unfold LogrusLogger.log.
  rewrite (bind_run _ _ _ _ _ (Dup_run _ _ _ Hp)).
  erewrite bind_run
    by (apply deref_logrus_entry_run; rewrite with_heap_heap;
        apply lookup_last_cell).
  erewrite bind_run by apply store_at_run.
  rewrite with_heap_heap, with_heap_with_heap, insert_last_cell. simpl.
  fold (record_of le level msg).
  set (ne := record_of le level msg).
  set (σ1 := with_heap (heap σ ++ [OLogrusEntry ne]) σ).
  assert (heap σ1 !! List.length (heap σ) = Some (OLogrusEntry ne)) as Hne
    by apply lookup_last_cell.
  assert (heap σ1 !! Logrus.Entry_Logger ne = Some (OLogrusLogger lg)) as Hlg
    by (by apply lookup_app_l_Some).
  rewrite (bind_run _ _ _ _ _
             (fireHooks_exact σ1 _ ne lg hooked Hne Hlg Hh)).
  assert ((level <=? Logrus.PanicLevel)%N = false) as Hnp
    by (by apply N.leb_gt).
  unfold logged, fired. fold ne. change (service σ1) with (service σ).
  destruct hooked.
  - destruct (service σ (notification_of ne)) as [err|].
    + erewrite bind_run by (apply write_run; exact Hne).
      rewrite Hnp. reflexivity.
    + erewrite bind_run by (apply write_run; exact Hne).
      rewrite Hnp. reflexivity.
  - erewrite bind_run by (apply write_run; exact Hne).
    rewrite Hnp. reflexivity.
Qed.

(** C4: the hook is registered for exactly ERROR, FATAL and PANIC, and
    logrus fires it on a record of one of these levels and on a record of no
    other level. [Fire] is [bugsnag.Notify] on the error it builds, 4 frames
    skipped, and on its metadata: the wrap "<message>: <error>" of the error
    under key "error" when the message is not empty, that error as it is
    when the message is empty, and an error made of the message when there
    is no such error; every field but "error" goes under the "metadata"
    namespace and nothing else does. On a record whose error the callback of
    [Init] returns on ([unwrap_ends]), the notification is sent once and
    what bugsnag answers, a failure included, is what [Fire] returns; fired
    by logrus, the failure is printed on standard error and the record is
    written all the same. On the other records the callback, which
    [bugsnag.Notify] runs first, does not return. *)
Theorem bugsnagHook_reports σ p le :
  heap σ !! p = Some (OLogrusEntry le) ->
  bugsnagHook.Fire p σ
  = BugsnagClient.Notify (Bugsnag.notified_error (notification_of le))
                         (Bugsnag.notified_metadata (notification_of le)) σ
  ∧ (unwrap_ends (bugsnagHook.notifyErr_of le) = true ->
     bugsnagHook.Fire p σ
     = Some (service σ (notification_of le),
             with_notified (notification_of le :: notified σ) σ))
  ∧ Bugsnag.notified_error (notification_of le)
    = Bugsnag.mkError (bugsnagHook.notifyErr_of le) 4
  ∧ (∀ err, Logrus.Entry_Data le !! "error" = Some (VError err) ->
            Logrus.Entry_Message le ≠ EmptyString ->
            bugsnagHook.notifyErr_of le
            = wrapError (Logrus.Entry_Message le +:+ ": " +:+ Error err) err)
  ∧ (∀ err, Logrus.Entry_Data le !! "error" = Some (VError err) ->
            Logrus.Entry_Message le = EmptyString ->
            bugsnagHook.notifyErr_of le = err)
  ∧ ((∀ err, Logrus.Entry_Data le !! "error" ≠ Some (VError err)) ->
     bugsnagHook.notifyErr_of le = errorString (Logrus.Entry_Message le))
  ∧ (∀ key, (Bugsnag.notified_metadata (notification_of le) !! "metadata")
              ≫= (fun m : Logrus.Fields => m !! key)
            = if String.eqb key "error" then None
              else Logrus.Entry_Data le !! key)
  ∧ (∀ namespace, namespace ≠ "metadata" ->
       Bugsnag.notified_metadata (notification_of le) !! namespace = None)
  ∧ (unwrap_ends (bugsnagHook.notifyErr_of le) = true ->
     ∀ failure, service σ (notification_of le) = Some failure ->
       fst <$> bugsnagHook.Fire p σ = Some (Some failure))
  ∧ (∀ level, level ∈ bugsnagHook.Levels
              ↔ level = Logrus.ErrorLevel ∨ level = Logrus.FatalLevel
                ∨ level = Logrus.PanicLevel)
  ∧ (∀ level, default [] (LogrusLogger.LevelHooks_Add ∅ Logrus.HookBugsnag
                            !! level)
              = if bool_decide (level ∈ bugsnagHook.Levels)
                then [Logrus.HookBugsnag] else [])
  ∧ (∀ lg,
       heap σ !! Logrus.Entry_Logger le = Some (OLogrusLogger lg) ->
       Logrus.Logger_Hooks lg
       = LogrusLogger.LevelHooks_Add ∅ Logrus.HookBugsnag ->
       (Logrus.Entry_Level le = Logrus.ErrorLevel
        ∨ Logrus.Entry_Level le = Logrus.FatalLevel
        ∨ Logrus.Entry_Level le = Logrus.PanicLevel ->
        unwrap_ends (bugsnagHook.notifyErr_of le) = true ->
        LogrusLogger.fireHooks p σ = Some (tt, fired σ le))
       ∧ (Logrus.Entry_Level le ≠ Logrus.ErrorLevel ->
          Logrus.Entry_Level le ≠ Logrus.FatalLevel ->
          Logrus.Entry_Level le ≠ Logrus.PanicLevel ->
          LogrusLogger.fireHooks p σ = Some (tt, σ))
       ∧ (∀ level msg,
            (Logrus.PanicLevel < level)%N ->
            (level = Logrus.ErrorLevel ∨ level = Logrus.FatalLevel ->
             unwrap_ends (bugsnagHook.notifyErr_of (record_of le level msg))
             = true) ->
            LogrusLogger.log p level msg σ
            = Some (tt, logged σ le level msg
                          (bool_decide (level = Logrus.ErrorLevel
                                        ∨ level = Logrus.FatalLevel))))).
Proof.
  intros H.
  assert (∀ level, level ∈ bugsnagHook.Levels
                   ↔ level = Logrus.ErrorLevel ∨ level = Logrus.FatalLevel
                     ∨ level = Logrus.PanicLevel) as HLevels.
  { intros level. unfold bugsnagHook.Levels.
    rewrite !elem_of_cons, elem_of_nil. tauto. }
  split; [by rewrite (Fire_run _ _ _ H)|].
  split; [intros _; by apply Fire_run|]. split; [reflexivity|].
  unfold bugsnagHook.notifyErr_of at 1 2 3.
  split; [|split; [|split; [|split; [|split; [|split; [|split;
    [|split; [|intros lg Hl Hh; split; [|split]]]]]]]]].
  - intros err -> Hm. by rewrite (proj2 (String.eqb_neq _ _) Hm).
  - intros err -> ->. done.
  - intros Hno. destruct (Logrus.Entry_Data le !! "error") as [[]|]; try done.
    by destruct (Hno e).
  - intros key. simpl. rewrite lookup_singleton_eq. simpl.
    destruct (String.eqb_spec key "error") as [-> | Hne].
    + by rewrite lookup_delete_eq.
    + by rewrite lookup_delete_ne.
  - intros namespace Hne. simpl. by rewrite lookup_singleton_ne.
  - intros _ failure Hf. by rewrite (Fire_run _ _ _ H), Hf.
  - exact HLevels.
  - exact package_hooks_at.
  - intros Hlevel _.
    pose proof (package_hooks_at (Logrus.Entry_Level le)) as Hat.
    rewrite <- Hh in Hat.
    rewrite bool_decide_eq_true_2 in Hat by (by apply HLevels).
    exact (fireHooks_exact σ p le lg true H Hl Hat).
  - intros He Hf Hp.
    pose proof (package_hooks_at (Logrus.Entry_Level le)) as Hat.
    rewrite <- Hh in Hat.
    rewrite bool_decide_eq_false_2 in Hat
      by (rewrite HLevels; intuition congruence).
    exact (fireHooks_exact σ p le lg false H Hl Hat).
  - intros level msg Hlv _.
    pose proof (package_hooks_at level) as Hat. rewrite <- Hh in Hat.
    assert (bool_decide (level ∈ bugsnagHook.Levels)
            = bool_decide (level = Logrus.ErrorLevel
                           ∨ level = Logrus.FatalLevel)) as Hb.
    { apply bool_decide_ext. rewrite HLevels.
      assert (level ≠ Logrus.PanicLevel)
        by (intros ->; by apply N.lt_irrefl in Hlv).
      tauto. }
    rewrite Hb in Hat.
    exact (log_exact σ p le lg level msg _ H Hl Hlv Hat).
Qed.

Lemma bugsnagHook_witness :
  heap demo_failed_store !! 2%nat = Some (OLogrusEntry demo_failed_entry)
  ∧ bugsnagHook.notifyErr_of demo_failed_entry
    = wrapError "query failed: EOF" (errorString "EOF")
  ∧ Bugsnag.notified_metadata (notification_of demo_failed_entry)
    = {[ "metadata" := {[ "user_id" := VUint64 10 ]} ]}
  ∧ fst <$> bugsnagHook.Fire 2%nat demo_failed_store = Some None
  ∧ LogrusLogger.fireHooks 2%nat demo_failed_store
    = Some (tt, with_notified [notification_of demo_failed_entry]
                              demo_failed_store)
  ∧ LogrusLogger.fireHooks 2%nat (demo_failed_store_at Logrus.PanicLevel)
    = Some (tt, with_notified
                  [notification_of (demo_failed_entry_at Logrus.PanicLevel)]
                  (demo_failed_store_at Logrus.PanicLevel))
  ∧ LogrusLogger.fireHooks 2%nat (demo_failed_store_at Logrus.WarnLevel)
    = Some (tt, demo_failed_store_at Logrus.WarnLevel).
Proof.
  split; [reflexivity|].
  destruct (bugsnagHook_reports demo_failed_store 2%nat demo_failed_entry
              eq_refl)
    as (_ & Hrun & _ & Hwrap & _ & _ & _ & _ & _ & _ & _ & Hfire).
  split; [exact (Hwrap (errorString "EOF") eq_refl ltac:(discriminate))|].
  split; [vm_compute; reflexivity|].
  split; [by rewrite (Hrun eq_refl)|].
  split; [exact (proj1 (Hfire demo_logger eq_refl eq_refl)
                   (or_introl eq_refl) eq_refl)|].
  split.
  - destruct (bugsnagHook_reports (demo_failed_store_at Logrus.PanicLevel)
                2%nat (demo_failed_entry_at Logrus.PanicLevel) eq_refl)
      as (_ & _ & _ & _ & _ & _ & _ & _ & _ & _ & _ & Hpanic).
    exact (proj1 (Hpanic demo_logger eq_refl eq_refl)
             (or_intror (or_intror eq_refl)) eq_refl).
  - destruct (bugsnagHook_reports (demo_failed_store_at Logrus.WarnLevel)
                2%nat (demo_failed_entry_at Logrus.WarnLevel) eq_refl)
      as (_ & _ & _ & _ & _ & _ & _ & _ & _ & _ & _ & Hwarn).
    apply (proj1 (proj2 (Hwarn demo_logger eq_refl eq_refl)));
      apply (bool_decide_unpack _); vm_compute; exact I.
Defined.

Lemma log_run σ p le lg level msg :
  heap σ !! p = Some (OLogrusEntry le) ->
  heap σ !! Logrus.Entry_Logger le = Some (OLogrusLogger lg) ->
  (Logrus.PanicLevel < level)%N ->
  ∃ σ', LogrusLogger.log p level msg σ = Some (tt, σ')
        ∧ emits σ σ' [mkLogLine level msg (Logrus.Entry_Data le)
                                (Logrus.Entry_err le)].
Proof.
  intros Hp Hl Hlv. unfold LogrusLogger.log.
  rewrite (bind_run _ _ _ _ _ (Dup_run _ _ _ Hp)).
  erewrite bind_run
    by (apply deref_logrus_entry_run; rewrite with_heap_heap;
        apply lookup_last_cell).
  erewrite bind_run by apply store_at_run.
  rewrite with_heap_heap, with_heap_with_heap, insert_last_cell. simpl.
  set (ne := Logrus.mkEntry (Logrus.Entry_Logger le) (Logrus.Entry_Data le)
                            level msg (Logrus.Entry_err le)).
  set (σ1 := with_heap (heap σ ++ [OLogrusEntry ne]) σ).
  assert (heap σ1 !! List.length (heap σ) = Some (OLogrusEntry ne)) as Hne
    by apply lookup_last_cell.
  assert (heap σ1 !! Logrus.Entry_Logger ne = Some (OLogrusLogger lg)) as Hlg
    by (by apply lookup_app_l_Some).
  destruct (fireHooks_run _ _ _ _ Hne Hlg)
    as (σ2 & Hf & Hh & Hs & HL & Hc & Hm & Hsv).
  rewrite (bind_run _ _ _ _ _ Hf).
  erewrite bind_run by (apply write_run; rewrite Hh; exact Hne).
  assert ((level <=? Logrus.PanicLevel)%N = false) as ->
    by (by apply N.leb_gt).
  eexists. split; [reflexivity|].
  repeat split; simpl; try done.
  - by rewrite Hs.
  - exists [OLogrusEntry ne]. by rewrite Hh.
Qed.

Lemma IsLevelEnabled_run σ l lg level :
  heap σ !! l = Some (OLogrusLogger lg) ->
  LogrusLogger.IsLevelEnabled l level σ
  = Some ((level <=? Logrus.Logger_Level lg)%N, σ).
Proof.
  intros H. unfold LogrusLogger.IsLevelEnabled.
  by rewrite (bind_run _ _ _ _ _ (deref_logrus_logger_run _ _ _ H)).
Qed.

Lemma Entry_Log_run σ p le lg level msg :
  heap σ !! p = Some (OLogrusEntry le) ->
  heap σ !! Logrus.Entry_Logger le = Some (OLogrusLogger lg) ->
  (Logrus.PanicLevel < level)%N ->
  ∃ σ', LogrusLogger.Entry_Log p level msg σ = Some (tt, σ')
        ∧ if (level <=? Logrus.Logger_Level lg)%N
          then emits σ σ' [line_of le level msg]
          else σ' = σ.
Proof.
  intros Hp Hl Hlv. unfold LogrusLogger.Entry_Log.
  rewrite (bind_run _ _ _ _ _ (deref_logrus_entry_run _ _ _ Hp)).
  rewrite (bind_run _ _ _ _ _ (IsLevelEnabled_run _ _ _ level Hl)).
  destruct (level <=? Logrus.Logger_Level lg)%N.
  - by eapply log_run.
  - by eexists.
Qed.

Lemma Entry_Logln_run σ p le lg level msg :
  heap σ !! p = Some (OLogrusEntry le) ->
  heap σ !! Logrus.Entry_Logger le = Some (OLogrusLogger lg) ->
  (Logrus.PanicLevel < level)%N ->
  ∃ σ', LogrusLogger.Entry_Logln p level msg σ = Some (tt, σ')
        ∧ if (level <=? Logrus.Logger_Level lg)%N
          then emits σ σ' [line_of le level msg]
          else σ' = σ.
Proof.
  intros Hp Hl Hlv. unfold LogrusLogger.Entry_Logln.
  rewrite (bind_run _ _ _ _ _ (deref_logrus_entry_run _ _ _ Hp)).
  rewrite (bind_run _ _ _ _ _ (IsLevelEnabled_run _ _ _ level Hl)).
  pose proof (Entry_Log_run _ _ _ _ level msg Hp Hl Hlv) as H.
  destruct (level <=? Logrus.Logger_Level lg)%N; [done|by eexists].
Qed.

Lemma level_of_tag_above_panic tag :
  (Logrus.PanicLevel < NSQLogger.level_of_tag tag)%N.
Proof. unfold NSQLogger.level_of_tag. by repeat case_match. Qed.

(** The [switch] of [Output] is one [Logln] at the level of the tag. *)
Lemma Output_switch entry tag msg :
  (if String.eqb tag nsqDebugLevel then LogrusLogger.Debugln entry msg
   else if String.eqb tag nsqInfoLevel then LogrusLogger.Infoln entry msg
   else if String.eqb tag nsqWarnLevel then LogrusLogger.Warnln entry msg
   else if String.eqb tag nsqErrLevel then LogrusLogger.Errorln entry msg
   else LogrusLogger.Infoln entry msg)
  = LogrusLogger.Entry_Logln entry (NSQLogger.level_of_tag tag) msg.
Proof. unfold NSQLogger.level_of_tag. by repeat case_match. Qed.

(** [Output] on any live entry. *)
Lemma Output_run σ n le lg calldepth s :
  entry_view σ n = Some le ->
  heap σ !! Logrus.Entry_Logger le = Some (OLogrusLogger lg) ->
  let level := NSQLogger.level_of_tag (slice_to 3 s) in
  let msg := Strings.TrimSpace (slice_from 3 s) in
  ∃ σ', NSQLogger.Output n calldepth s σ = Some (None, σ')
        ∧ (if (3 <? len s) && (level <=? Logrus.Logger_Level lg)%N
           then emits σ σ' [line_of le level msg]
           else σ' = σ)
        ∧ (slice_to 3 s = nsqDebugLevel -> level = Logrus.DebugLevel)
        ∧ (slice_to 3 s ≠ nsqDebugLevel -> slice_to 3 s = nsqInfoLevel ->
           level = Logrus.InfoLevel)
        ∧ (slice_to 3 s ≠ nsqDebugLevel -> slice_to 3 s ≠ nsqInfoLevel ->
           slice_to 3 s = nsqWarnLevel -> level = Logrus.WarnLevel)
        ∧ (slice_to 3 s ≠ nsqDebugLevel -> slice_to 3 s ≠ nsqInfoLevel ->
           slice_to 3 s ≠ nsqWarnLevel -> slice_to 3 s = nsqErrLevel ->
           level = Logrus.ErrorLevel)
        ∧ (slice_to 3 s ≠ nsqDebugLevel -> slice_to 3 s ≠ nsqInfoLevel ->
           slice_to 3 s ≠ nsqWarnLevel -> slice_to 3 s ≠ nsqErrLevel ->
           level = Logrus.InfoLevel).
Proof.
  intros (inner & Hn & Hi)%entry_view_inv Hl level msg.
  assert (∃ σ', NSQLogger.Output n calldepth s σ = Some (None, σ')
                ∧ (if (3 <? len s) && (level <=? Logrus.Logger_Level lg)%N
                   then emits σ σ' [line_of le level msg]
                   else σ' = σ)) as (σ' & Hrun & Hout).
  { unfold NSQLogger.Output. destruct (3 <? len s); [|by eexists].
    rewrite (bind_run _ _ _ _ _ (deref_entry_run _ _ _ Hn)).
    rewrite Output_switch.
    destruct (Entry_Logln_run _ _ _ _ level msg Hi Hl
                (level_of_tag_above_panic _)) as (σ' & Hr & Ho).
    fold level msg. rewrite (bind_run _ _ _ _ _ Hr).
    exists σ'. split; [reflexivity|]. exact Ho. }
  exists σ'. split; [done|]. split; [done|].
  subst level. unfold NSQLogger.level_of_tag.
  repeat split; intros;
    repeat match goal with
           | H : _ = _ |- _ => rewrite H
           | H : _ ≠ _ |- _ => rewrite (proj2 (String.eqb_neq _ _) H)
           end; try done.
Qed.

Lemma grows_logger_view σ σ' l lg :
  grows σ σ' -> logger_view σ l = Some lg -> logger_view σ' l = Some lg.
Proof.
  intros Hg (inner & Hl & Hi)%logger_view_inv. unfold logger_view.
  by rewrite (grows_lookup _ _ _ _ Hg Hl), (grows_lookup _ _ _ _ Hg Hi).
Qed.

Lemma getNSQLogLevel_returns σ l lg :
  logger_view σ l = Some lg ->
  ∃ level, Logger.getNSQLogLevel l σ = Some (level, σ).
Proof.
  intros (inner & Hl & Hi)%logger_view_inv. unfold Logger.getNSQLogLevel.
  rewrite (bind_run _ _ _ _ _ (deref_logger_run _ _ _ Hl)).
  rewrite (bind_run _ _ _ _ _ (deref_logrus_logger_run _ _ _ Hi)).
  repeat case_match; by eexists.
Qed.

Lemma Logger_NewEntry_run σ l inner :
  heap σ !! l = Some (OLogger inner) ->
  Logger.NewEntry l σ
  = Some (S (List.length (heap σ)),
          with_heap (heap σ ++ [OLogrusEntry
                                  (Logrus.mkEntry inner ∅ 0%N EmptyString
                                                  EmptyString);
                                OEntry (List.length (heap σ))]) σ).
Proof.
  intros Hl. unfold Logger.NewEntry.
  rewrite (bind_run _ _ _ _ _ (deref_logger_run _ _ _ Hl)).
  unfold LogrusEntry.NewEntry. rewrite (bind_run _ _ _ _ _ (alloc_run _ _)).
  rewrite alloc_run, with_heap_heap, with_heap_with_heap.
  by rewrite length_app, <- app_assoc, Nat.add_1_r.
Qed.

Lemma with_fields_singleton_err le k v :
  LogrusEntry.isErrField v = false ->
  Logrus.Entry_err (with_fields le {[ k := v ]}) = Logrus.Entry_err le.
Proof.
  intros H. simpl. unfold LogrusEntry.add_fields.
  rewrite map_fold_singleton. by rewrite H.
Qed.

(** The adapter [NSQLogger] builds: an entry of the logger, tagged
    [component="nsq"] and nothing else. *)
Lemma NSQLogger_adapter σ l lg :
  logger_view σ l = Some lg ->
  ∃ n level σ' le,
    Logger.NSQLogger l σ = Some ((n, level), σ')
    ∧ grows σ σ'
    ∧ entry_view σ' n = Some le
    ∧ Logrus.Entry_Data le = {[ "component" := VString "nsq" ]}
    ∧ Logrus.Entry_err le = EmptyString
    ∧ heap σ' !! Logrus.Entry_Logger le = Some (OLogrusLogger lg)
    ∧ Logger.getNSQLogLevel l σ = Some (level, σ).
Proof.
  intros Hv. pose proof Hv as (inner & Hl & Hi)%logger_view_inv.
  unfold Logger.NSQLogger.
  rewrite (bind_run _ _ _ _ _ (Logger_NewEntry_run _ _ _ Hl)).
  set (le0 := Logrus.mkEntry inner ∅ 0%N EmptyString EmptyString).
  set (σ1 := with_heap _ σ).
  assert (grows σ σ1) as Hg1 by (by eexists).
  assert (entry_view σ1 (S (List.length (heap σ))) = Some le0) as Hv1.
  { unfold entry_view, σ1. rewrite with_heap_heap.
    rewrite lookup_app_r by lia.
    replace (S (List.length (heap σ)) - List.length (heap σ))%nat
      with 1%nat by lia.
    simpl. rewrite lookup_app_r by lia. by rewrite Nat.sub_diag. }
  destruct (wrap_WithFields_post _ _ _ {[ "component" := VString "nsq" ]} Hv1)
    as (n & σ2 & Hrun & Hg2 & _ & Hv2).
  change (wrap_WithFields (S (List.length (heap σ)))
            {[ "component" := VString "nsq" ]})
    with (Entry.WithField (S (List.length (heap σ))) "component"
            (VString "nsq")) in Hrun.
  rewrite (bind_run _ _ _ _ _ Hrun).
  pose proof (grows_trans _ _ _ Hg1 Hg2) as Hg.
  destruct (getNSQLogLevel_returns _ _ _ Hv) as (level & Hlevel).
  destruct (getNSQLogLevel_returns _ _ _ (grows_logger_view _ _ _ _ Hg Hv))
    as (level' & Hlevel').
  assert (level' = level) as ->.
  { revert Hlevel Hlevel'. unfold Logger.getNSQLogLevel.
    rewrite (bind_run _ _ _ _ _ (deref_logger_run _ _ _ Hl)).
    rewrite (bind_run _ _ _ _ _ (deref_logrus_logger_run _ _ _ Hi)).
    rewrite (bind_run _ _ _ _ _
               (deref_logger_run _ _ _ (grows_lookup _ _ _ _ Hg Hl))).
    rewrite (bind_run _ _ _ _ _
               (deref_logrus_logger_run _ _ _ (grows_lookup _ _ _ _ Hg Hi))).
    repeat case_match; by intros [= <-] [= <-]. }
  rewrite (bind_run _ _ _ _ _ Hlevel').
  eexists n, level, σ2, _. split; [reflexivity|]. split; [done|].
  split; [exact Hv2|]. split; [apply with_fields_singleton_data|].
  split; [by apply with_fields_singleton_err|].
  split; [|done]. simpl. by apply (grows_lookup _ _ _ _ Hg).
Qed.

(** C2: for every call depth and message, [Output] returns a nil error; a
    message of at most 3 bytes changes nothing; a longer one is written once,
    if the logger's level lets it through, at the level of its first 3
    bytes (Debug, Info, Warning or Error by the queue client's level names,
    Info for any other tag), with the rest of the message trimmed. The
    receiver is an adapter over an entry with no field [error], as
    [NSQLogger] builds it: what an ERR message then reports to bugsnag is
    an [errorString], on which the callbacks of bugsnag have nothing to
    unwrap. *)
Theorem Output_redispatches σ n le lg calldepth s :
  entry_view σ n = Some le ->
  heap σ !! Logrus.Entry_Logger le = Some (OLogrusLogger lg) ->
  Logrus.Entry_Data le !! "error" = None ->
  let level := NSQLogger.level_of_tag (slice_to 3 s) in
  let msg := Strings.TrimSpace (slice_from 3 s) in
  ∃ σ', NSQLogger.Output n calldepth s σ = Some (None, σ')
        ∧ (if (3 <? len s) && (level <=? Logrus.Logger_Level lg)%N
           then emits σ σ' [line_of le level msg]
           else σ' = σ)
        ∧ (slice_to 3 s = nsqDebugLevel -> level = Logrus.DebugLevel)
        ∧ (slice_to 3 s ≠ nsqDebugLevel -> slice_to 3 s = nsqInfoLevel ->
           level = Logrus.InfoLevel)
        ∧ (slice_to 3 s ≠ nsqDebugLevel -> slice_to 3 s ≠ nsqInfoLevel ->
           slice_to 3 s = nsqWarnLevel -> level = Logrus.WarnLevel)
        ∧ (slice_to 3 s ≠ nsqDebugLevel -> slice_to 3 s ≠ nsqInfoLevel ->
           slice_to 3 s ≠ nsqWarnLevel -> slice_to 3 s = nsqErrLevel ->
           level = Logrus.ErrorLevel)
        ∧ (slice_to 3 s ≠ nsqDebugLevel -> slice_to 3 s ≠ nsqInfoLevel ->
           slice_to 3 s ≠ nsqWarnLevel -> slice_to 3 s ≠ nsqErrLevel ->
           level = Logrus.InfoLevel).
Proof. intros Hv Hl _. by apply Output_run. Qed.

Lemma Output_witness :
  Logger.NSQLogger 1%nat demo_store
  = Some ((7%nat, Nsq.LogLevelDebug), demo_adapter_store)
  ∧ entry_view demo_adapter_store 7%nat = Some demo_adapter_entry
  ∧ (∃ σ', NSQLogger.Output 7%nat 2 "DBG  connected " demo_adapter_store
           = Some (None, σ')
           ∧ sink σ' = [mkLogLine Logrus.DebugLevel "connected"
                          {[ "component" := VString "nsq" ]} EmptyString])
  ∧ (∃ σ', NSQLogger.Output 7%nat 2 "ERR  lost " demo_adapter_store
           = Some (None, σ')
           ∧ sink σ' = [mkLogLine Logrus.ErrorLevel "lost"
                          {[ "component" := VString "nsq" ]} EmptyString])
  ∧ NSQLogger.Output 7%nat 2 "ERR" demo_adapter_store
    = Some (None, demo_adapter_store).
Proof.
  split; [vm_compute; reflexivity|]. split; [reflexivity|].
  split; [|split].
  - destruct (Output_redispatches demo_adapter_store 7%nat demo_adapter_entry
                demo_logger 2 "DBG  connected " eq_refl eq_refl eq_refl)
      as (σ' & Hout & Hemit & _).
    exists σ'. split; [exact Hout|]. exact (proj1 Hemit).
  - destruct (Output_redispatches demo_adapter_store 7%nat demo_adapter_entry
                demo_logger 2 "ERR  lost " eq_refl eq_refl eq_refl)
      as (σ' & Hout & Hemit & _).
    exists σ'. split; [exact Hout|]. exact (proj1 Hemit).
  - destruct (Output_redispatches demo_adapter_store 7%nat demo_adapter_entry
                demo_logger 2 "ERR" eq_refl eq_refl eq_refl)
      as (σ' & Hout & Hemit & _).
    simpl in Hemit. rewrite Hout, Hemit. reflexivity.
Defined.

(** ** The callback of [Init] *)

Lemma unwrap_loop_stuck intSize msg1 msg2 cause skip fuel :
  ∀ count σ r σ',
    unwrap_loop intSize fuel (twice_wrapped msg1 msg2 cause skip)
                "*fmt.wrapError" count σ
    ≠ Some (Some r, σ').
Proof.
  induction fuel as [|fuel IH]; intros count σ r σ'; simpl; [done|].
  intros (u & σ1 & _ & Hk)%bind_inv. by apply IH in Hk.
Qed.

(** C3 fails on the code: on an event whose error is a wrapped error around
    a wrapped error, the loop of the callback has no iteration at which it
    ends, whatever the number of iterations allowed. *)
Theorem unwrap_loop_never_ends intSize fuel msg1 msg2 cause skip σ :
  ∀ r σ',
    OnBeforeNotify_callback intSize fuel
      (twice_wrapped msg1 msg2 cause skip) σ
    ≠ Some (Some r, σ').
Proof.
  intros r σ'. unfold OnBeforeNotify_callback.
  intros ([errClass|] & σ1 & Hloop & Hret)%bind_inv; [|done].
  by apply unwrap_loop_stuck in Hloop.
Qed.

(** With one level of wrapping the loop ends in its second iteration. *)
Lemma unwrap_loop_one_level intSize msg cause skip σ fuel :
  intSize = 32 ∨ intSize = 64 ->
  TypeOf_String cause ≠ "*fmt.wrapError" ->
  OnBeforeNotify_callback intSize (S (S fuel))
    (Bugsnag.mkEvent "*fmt.wrapError"
       (Bugsnag.mkError (wrapError msg cause) skip)) σ
  = Some (Some (Bugsnag.mkEvent (TypeOf_String cause)
                  (Bugsnag.mkError (wrapError msg cause) skip), None), σ).
Proof.
  intros Hsz H. unfold OnBeforeNotify_callback.
  cbn [unwrap_loop Bugsnag.ErrorClass Bugsnag.Error__ Bugsnag.Err
       Errors.Unwrap].
  change (String.eqb "*fmt.wrapError" "*fmt.wrapError") with true.
  cbn [negb].
  assert ((11 <=? wrap_int intSize (0 + 1)) = false) as ->
    by (by destruct Hsz as [-> | ->]).
  rewrite (proj2 (String.eqb_neq _ _) H). reflexivity.
Qed.

(** On the twice-wrapped event the loop logs from its eleventh iteration on
    and goes on: thirty iterations leave twenty records and no result. *)
Lemma unwrap_loop_thirty_iterations :
  ∃ σ', OnBeforeNotify_callback 64 30
          (twice_wrapped "query failed: db: EOF" "db: EOF"
                         (errorString "EOF") 4) demo_store
        = Some (None, σ')
        ∧ List.length (sink σ') = 20%nat.
Proof. eexists. split; [vm_compute; reflexivity|reflexivity]. Qed.

(** * Further properties *)

(** ** [strings.Split] *)

Lemma Split_join_eq s sep : join_parts sep (Strings.Split s sep) = s.
Proof.
  induction s as [|c t IH]; [done|]. simpl.
  destruct (Ascii.eqb c sep) eqn:Hc.
  - apply Ascii.eqb_eq in Hc as ->.
    pose proof (Split_nonempty t sep).
    change (join_parts sep (EmptyString :: Strings.Split t sep))
      with (match Strings.Split t sep with
            | [] => EmptyString
            | _ :: _ =>
                EmptyString
                +:+ String sep (join_parts sep (Strings.Split t sep))
            end).
    destruct (Strings.Split t sep) eqn:E; [done|]. simpl. by rewrite <- IH.
  - pose proof (Split_nonempty t sep).
    destruct (Strings.Split t sep) as [|p ps] eqn:E; [done|].
    rewrite <- IH. simpl. by destruct ps.
Qed.

Lemma Split_length s sep :
  List.length (Strings.Split s sep) = S (count_byte sep s).
Proof.
  induction s as [|c t IH]; [done|]. simpl.
  destruct (Ascii.eqb c sep); simpl; [by rewrite IH|].
  pose proof (Split_nonempty t sep).
  destruct (Strings.Split t sep) as [|p ps] eqn:E; [done|]. simpl in *. lia.
Qed.

Lemma Split_parts_free s sep :
  Forall (fun p => count_byte sep p = 0%nat) (Strings.Split s sep).
Proof.
  induction s as [|c t IH]; simpl; [by repeat constructor|].
  destruct (Ascii.eqb c sep) eqn:Hc; [by constructor|].
  pose proof (Split_nonempty t sep).
  destruct (Strings.Split t sep) as [|p ps] eqn:E; [done|].
  inversion IH; subst. constructor; [|done]. simpl. by rewrite Hc.
Qed.

Lemma Split_free s sep :
  count_byte sep s = 0%nat -> Strings.Split s sep = [s].
Proof.
  induction s as [|c t IH]; [done|]. simpl.
  destruct (Ascii.eqb c sep); [done|]. simpl. intros H. by rewrite IH.
Qed.

Lemma Split_app s t sep :
  count_byte sep s = 0%nat ->
  Strings.Split (s +:+ String sep t) sep = s :: Strings.Split t sep.
Proof.
  induction s as [|c u IH]; simpl.
  - by rewrite Ascii.eqb_refl.
  - destruct (Ascii.eqb c sep); [done|]. simpl. intros H. by rewrite IH.
Qed.

(** X1: splitting an event string on commas loses nothing: the parts joined
    with commas are the string again, there is one part more than there are
    commas, and no part holds a comma. *)
Theorem Split_round_trip s sep :
  join_parts sep (Strings.Split s sep) = s
  ∧ List.length (Strings.Split s sep) = S (count_byte sep s)
  ∧ Forall (fun p => count_byte sep p = 0%nat) (Strings.Split s sep).
Proof.
  split; [apply Split_join_eq|]. split; [apply Split_length|].
  apply Split_parts_free.
Qed.

(** ** [strconv.Itoa] and [strconv.Atoi] *)

Lemma decimal_from_uint_acc u :
  ∀ acc, decimal_from (NilEmpty.string_of_uint u) (Z.pos acc)
         = Some (Z.pos (Pos.of_uint_acc u acc)).
Proof.
  induction u; intros acc; simpl; try done;
    rewrite <- IHu; f_equal; unfold byte_val; simpl; lia.
Qed.

Lemma decimal_from_uint u :
  decimal_from (NilEmpty.string_of_uint u) 0 = Some (Z.of_N (Pos.of_uint u)).
Proof.
  induction u; simpl; try done; apply decimal_from_uint_acc.
Qed.

Lemma decimal_value_to_uint p :
  decimal_value (NilZero.string_of_uint (Pos.to_uint p)) = Some (Z.pos p).
Proof.
  pose proof (DecimalPos.Unsigned.to_uint_nonnil p) as Hn.
  pose proof (decimal_from_uint (Pos.to_uint p)) as H.
  rewrite DecimalPos.Unsigned.of_to in H.
  unfold NilZero.string_of_uint.
  destruct (Pos.to_uint p) eqn:E; try done.
Qed.

Lemma Atoi_Itoa w n :
  w = 32 ∨ w = 64 ->
  - 2 ^ (w - 1) <= n < 2 ^ (w - 1) ->
  Strconv.Atoi w (Itoa n) = (n, None).
Proof.
  intros Hw Hn. unfold Itoa. destruct n as [|p|p]; simpl.
  - by destruct Hw as [-> | ->].
  - apply Atoi_decimal; [done|apply decimal_value_to_uint|lia].
  - apply (Atoi_minus_decimal w _ (Z.pos p));
      [done|apply decimal_value_to_uint|lia].
Qed.

Lemma count_byte_uint c u :
  decimal_from (String c EmptyString) 0 = None ->
  count_byte c (NilEmpty.string_of_uint u) = 0%nat.
Proof.
  intros Hc.
  induction u; cbn [NilEmpty.string_of_uint count_byte]; try done;
    (destruct (Ascii.eqb _ c) eqn:E;
     [apply Ascii.eqb_eq in E; subst c; discriminate Hc|exact IHu]).
Qed.

Lemma Itoa_no_comma n : count_byte "," (Itoa n) = 0%nat.
Proof.
  unfold Itoa. destruct n as [|p|p]; simpl; [done| |].
  - unfold NilZero.string_of_uint.
    pose proof (count_byte_uint "," (Pos.to_uint p) eq_refl) as H.
    by destruct (Pos.to_uint p).
  - unfold NilZero.string_of_uint.
    pose proof (count_byte_uint "," (Pos.to_uint p) eq_refl) as H.
    by destruct (Pos.to_uint p).
Qed.

(** X2: [WithHTTPResponseCode(code)] sets [http_response_code] to the
    decimal string of [code], which [strconv.Atoi] reads back as [code]
    without error. *)
Theorem WithHTTPResponseCode_decimal intSize σ e le code :
  intSize = 32 ∨ intSize = 64 ->
  - 2 ^ (intSize - 1) <= code < 2 ^ (intSize - 1) ->
  entry_view σ e = Some le ->
  result_of σ e false
    (<["http_response_code" := VString (Itoa code)]> (Logrus.Entry_Data le))
    (Entry.WithHTTPResponseCode e code σ)
  ∧ Strconv.Atoi intSize (Itoa code) = (code, None).
Proof.
  intros Hw Hc Hv. split; [|by apply Atoi_Itoa].
  exact (result_WithField _ _ _ "http_response_code" (VString (Itoa code)) Hv).
Qed.

Lemma WithHTTPResponseCode_witness :
  result_of demo_store 3%nat false {[ "http_response_code" := VString "404" ]}
    (Entry.WithHTTPResponseCode 3%nat 404 demo_store)
  ∧ Strconv.Atoi 64 "404" = (404, None)
  ∧ Strconv.Atoi 32 (Itoa (-2147483648)) = (-2147483648, None).
Proof.
  split; [|split].
  - exact (proj1 (WithHTTPResponseCode_decimal 64 demo_store 3%nat demo_entry
                    404 (or_intror eq_refl) ltac:(lia) eq_refl)).
  - exact (proj2 (WithHTTPResponseCode_decimal 64 demo_store 3%nat demo_entry
                    404 (or_intror eq_refl) ltac:(lia) eq_refl)).
  - exact (proj2 (WithHTTPResponseCode_decimal 32 demo_store 3%nat demo_entry
                    (-2147483648) (or_introl eq_refl) ltac:(lia) eq_refl)).
Defined.

Lemma event_fields_two intSize name p1 (f : Logrus.Fields) :
  count_byte "," name = 0%nat -> count_byte "," p1 = 0%nat ->
  event_fields intSize (name +:+ String "," p1) f
  = <["object_id" := VInt (Strconv.Atoi intSize p1).1]>
      (set_ignore_empty "event_name" name f).
Proof.
  intros Hn H1. unfold event_fields.
  by rewrite (Split_app _ _ _ Hn), (Split_free _ _ H1).
Qed.

Lemma event_fields_three intSize name p1 p2 (f : Logrus.Fields) :
  count_byte "," name = 0%nat -> count_byte "," p1 = 0%nat ->
  count_byte "," p2 = 0%nat ->
  event_fields intSize (name +:+ String "," (p1 +:+ String "," p2)) f
  = <["subject_id" := VInt (Strconv.Atoi intSize p2).1]>
      (<["object_id" := VInt (Strconv.Atoi intSize p1).1]>
         (set_ignore_empty "event_name" name f)).
Proof.
  intros Hn H1 H2. unfold event_fields.
  by rewrite (Split_app _ _ _ Hn), (Split_app _ _ _ H1), (Split_free _ _ H2).
Qed.

Lemma returns_receiver_two name rest :
  count_byte "," name = 0%nat -> (count_byte "," rest <= 1)%nat ->
  returns_receiver (CallWithEvent (name +:+ String "," rest)) = false.
Proof.
  intros Hn Hr. unfold returns_receiver.
  rewrite Split_length.
  assert (count_byte "," (name +:+ String "," rest)
          = S (count_byte "," rest)) as ->.
  { clear Hr. induction name as [|c t IH]; simpl; [done|].
    simpl in Hn. destruct (Ascii.eqb c ","); [done|]. simpl. by apply IH. }
  destruct (count_byte "," rest) as [|[|k]]; [done|done|lia].
Qed.

(** X3: [WithEvent] reads back what a caller wrote with [strconv.Itoa]: on
    ["<name>,<n>"] it sets [object_id] to [n], and on ["<name>,<n>,<m>"] also
    [subject_id] to [m], for a name without comma and integers of type
    [int]; [event_name] is the name, unless the name is blank. *)
Theorem WithEvent_reads_back intSize σ e le name n m :
  intSize = 32 ∨ intSize = 64 ->
  count_byte "," name = 0%nat ->
  - 2 ^ (intSize - 1) <= n < 2 ^ (intSize - 1) ->
  - 2 ^ (intSize - 1) <= m < 2 ^ (intSize - 1) ->
  entry_view σ e = Some le ->
  result_of σ e false
    (<["object_id" := VInt n]>
       (set_ignore_empty "event_name" name (Logrus.Entry_Data le)))
    (Entry.WithEvent intSize e (name +:+ "," +:+ Itoa n) σ)
  ∧ result_of σ e false
      (<["subject_id" := VInt m]>
         (<["object_id" := VInt n]>
            (set_ignore_empty "event_name" name (Logrus.Entry_Data le))))
      (Entry.WithEvent intSize e
         (name +:+ "," +:+ Itoa n +:+ "," +:+ Itoa m) σ).
Proof.
  intros Hw Hname Hn Hm Hv. split.
  - pose proof (result_WithEvent intSize σ e le
                  (name +:+ String "," (Itoa n)) Hv) as R.
    rewrite (event_fields_two _ _ _ _ Hname (Itoa_no_comma n)) in R.
    rewrite (Atoi_Itoa _ _ Hw Hn) in R. cbn [fst] in R.
    rewrite returns_receiver_two in R; [exact R|done|].
    rewrite Itoa_no_comma. lia.
  - pose proof (result_WithEvent intSize σ e le
                  (name +:+ String "," (Itoa n +:+ String "," (Itoa m))) Hv)
      as R.
    rewrite (event_fields_three _ _ _ _ _ Hname (Itoa_no_comma n)
               (Itoa_no_comma m)) in R.
    rewrite (Atoi_Itoa _ _ Hw Hn), (Atoi_Itoa _ _ Hw Hm) in R.
    cbn [fst] in R.
    rewrite returns_receiver_two in R; [exact R|done|].
    assert (count_byte "," (Itoa n +:+ String "," (Itoa m)) = 1%nat) as ->;
      [|lia].
    pose proof (Split_length (Itoa n +:+ String "," (Itoa m)) ",") as HL.
    rewrite (Split_app _ _ _ (Itoa_no_comma n)),
      (Split_free _ _ (Itoa_no_comma m)) in HL.
    simpl in HL. lia.
Qed.

Lemma WithEvent_reads_back_witness :
  result_of demo_store 3%nat false
    (<["object_id" := VInt (-17)]> {[ "event_name" := VString "like" ]})
    (Entry.WithEvent 64 3%nat "like,-17" demo_store)
  ∧ result_of demo_store 3%nat false
      (<["subject_id" := VInt 2147483647]>
         (<["object_id" := VInt (-17)]> {[ "event_name" := VString "like" ]}))
      (Entry.WithEvent 64 3%nat "like,-17,2147483647" demo_store).
Proof.
  exact (WithEvent_reads_back 64 demo_store 3%nat demo_entry "like" (-17)
           2147483647 (or_intror eq_refl) eq_refl ltac:(lia) ltac:(lia)
           eq_refl).
Defined.

(** ** [strings.TrimSpace] around ASCII borders *)

Lemma asciiSpace_small c :
  (Strings.asciiSpace c =? 1) = true -> (Utf8.RuneSelf <=? c) = false.
Proof.
  unfold Strings.asciiSpace, Utf8.RuneSelf. intros H.
  destruct ((c =? 9) || (c =? 10) || (c =? 11) || (c =? 12) || (c =? 13)
            || (c =? 32)) eqn:E; [|done].
  apply Z.leb_gt.
  repeat (apply orb_true_iff in E as [E|E]); apply Z.eqb_eq in E; lia.
Qed.

Lemma asciiSpace_one_not_zero c :
  (Strings.asciiSpace c =? 1) = true -> (Strings.asciiSpace c =? 0) = false.
Proof. intros H%Z.eqb_eq. by rewrite H. Qed.

Lemma TrimSpace_lead ws s :
  ascii_space_only ws = true ->
  Strings.TrimSpace (ws +:+ s) = Strings.TrimSpace s.
Proof.
  induction ws as [|c t IH]; [done|]. simpl.
  intros [Hc Ht]%andb_true_iff.
  by rewrite (asciiSpace_small _ Hc), (asciiSpace_one_not_zero _ Hc), IH.
Qed.

Lemma slice_to_app s t : slice_to (String.length s) (s +:+ t) = s.
Proof. induction s as [|c u IH]; simpl; [by destruct t|by rewrite IH]. Qed.

Lemma slice_from_app s t : slice_from (String.length s) (s +:+ t) = t.
Proof. induction s as [|c u IH]; simpl; [done|by rewrite IH]. Qed.

Lemma length_app_string s t :
  String.length (s +:+ t) = (String.length s + String.length t)%nat.
Proof. induction s; simpl; [done|by f_equal]. Qed.

Lemma byte_at_app_r s t k :
  byte_at (s +:+ t) (String.length s + k) = byte_at t k.
Proof. unfold byte_at. induction s as [|c u IH]; simpl; [done|exact IH]. Qed.

Lemma byte_at_last s t b :
  last_byte s = Some b ->
  byte_at (s +:+ t) (String.length s - 1) = byte_val b.
Proof.
  unfold byte_at. induction s as [|c u IH]; [done|]. simpl.
  destruct u as [|c' u']; [by intros [= ->]|].
  intros H. specialize (IH H). simpl in *. by rewrite Nat.sub_0_r in IH.
Qed.

Lemma ascii_space_only_upto s :
  ascii_space_only s = true -> spaces_upto (String.length s) s = true.
Proof.
  induction s as [|c t IH]; [done|]. simpl.
  intros [-> Ht]%andb_true_iff. by apply IH.
Qed.

Lemma spaces_upto_S k s :
  spaces_upto (S k) s = true ->
  spaces_upto k s = true ∧ (Strings.asciiSpace (byte_at s k) =? 1) = true.
Proof.
  revert s. induction k as [|k IH]; intros [|c t] H; try done.
  - apply andb_true_iff in H as [Hc _]. done.
  - change (spaces_upto (S (S k)) (String c t))
      with ((Strings.asciiSpace (byte_val c) =? 1) && spaces_upto (S k) t)
      in H.
    apply andb_true_iff in H as [Hc Ht].
    apply IH in Ht as [Ht1 Ht2].
    change (spaces_upto (S k) (String c t))
      with ((Strings.asciiSpace (byte_val c) =? 1) && spaces_upto k t).
    by rewrite Hc, Ht1.
Qed.

(** The second loop of [TrimSpace] walks back over trailing white space and
    stops at the last byte of the core. *)
Lemma TrimSpace_stop_tail core ws b :
  last_byte core = Some b -> ascii_nonspace b = true ->
  ∀ k, spaces_upto k ws = true ->
       Strings.TrimSpace_stop (core +:+ ws) (String.length core + k) = core.
Proof.
  intros Hb [Hlt Hns]%andb_true_iff k.
  induction k as [|k IH]; intros Hk.
  - rewrite Nat.add_0_r.
    pose proof (byte_at_last core ws b Hb) as Hl.
    pose proof (slice_to_app core ws) as Hs.
    destruct (String.length core) as [|n] eqn:Hn; [by destruct core|].
    simpl in Hl. rewrite Nat.sub_0_r in Hl.
    cbn [Strings.TrimSpace_stop]. rewrite Hl. apply Z.ltb_lt in Hlt.
    rewrite (proj2 (Z.leb_gt _ _)) by done. by rewrite Hns.
  - apply spaces_upto_S in Hk as [Hk Hc].
    rewrite Nat.add_succ_r. cbn [Strings.TrimSpace_stop].
    rewrite byte_at_app_r.
    by rewrite (asciiSpace_small _ Hc), (asciiSpace_one_not_zero _ Hc), IH.
Qed.

Lemma TrimSpace_core ws1 core ws2 :
  ascii_space_only ws1 = true -> ascii_space_only ws2 = true ->
  ascii_bordered core = true ->
  Strings.TrimSpace (ws1 +:+ core +:+ ws2) = core.
Proof.
  intros H1 H2 Hc. rewrite (TrimSpace_lead _ _ H1).
  unfold ascii_bordered in Hc.
  destruct core as [|a rest] eqn:Ecore; [done|].
  destruct (last_byte (String a rest)) as [b|] eqn:Hb; [|done].
  apply andb_true_iff in Hc as [Ha Hbn].
  pose proof Ha as [Hlt Hns]%andb_true_iff.
  change (String a rest +:+ ws2) with (String a (rest +:+ ws2)).
  cbn [Strings.TrimSpace]. apply Z.ltb_lt in Hlt.
  rewrite (proj2 (Z.leb_gt _ _)) by done. rewrite Hns.
  change (String a (rest +:+ ws2)) with (String a rest +:+ ws2).
  rewrite length_app_string.
  apply (TrimSpace_stop_tail _ _ b Hb Hbn).
  by apply ascii_space_only_upto.
Qed.

Lemma bordered_not_blank ws1 core ws2 :
  ascii_space_only ws1 = true -> ascii_space_only ws2 = true ->
  ascii_bordered core = true ->
  blank (ws1 +:+ core +:+ ws2) = false.
Proof.
  intros H1 H2 Hc. unfold blank. rewrite TrimSpace_core by done.
  by destruct core.
Qed.

(** X4: [Output] logs the text of the queue client's message without the
    white space around it: on a message made of a 3-byte tag, ASCII white
    space, a text that begins and ends with an ASCII byte that is not white
    space, and ASCII white space, the record written holds exactly the
    text, at the level of the tag. The receiver is an adapter over an entry
    with no field [error], as [NSQLogger] builds it: what an ERR message
    then reports to bugsnag is an [errorString], which the callback of
    [Init] leaves at once. *)
Theorem Output_logs_the_text σ n le lg calldepth tag ws1 text ws2 :
  entry_view σ n = Some le ->
  heap σ !! Logrus.Entry_Logger le = Some (OLogrusLogger lg) ->
  Logrus.Entry_Data le !! "error" = None ->
  String.length tag = 3%nat ->
  ascii_space_only ws1 = true -> ascii_space_only ws2 = true ->
  ascii_bordered text = true ->
  (NSQLogger.level_of_tag tag <= Logrus.Logger_Level lg)%N ->
  ∃ σ', NSQLogger.Output n calldepth (tag +:+ ws1 +:+ text +:+ ws2) σ
        = Some (None, σ')
        ∧ emits σ σ' [line_of le (NSQLogger.level_of_tag tag) text].
Proof.
  intros Hv Hl _ Htag H1 H2 Hc Hlv.
  destruct (Output_run σ n le lg calldepth (tag +:+ ws1 +:+ text +:+ ws2)
              Hv Hl) as (σ' & Hrun & Hout & _).
  pose proof (slice_to_app tag (ws1 +:+ text +:+ ws2)) as Ht.
  pose proof (slice_from_app tag (ws1 +:+ text +:+ ws2)) as Hf.
  rewrite Htag in Ht, Hf. rewrite Ht, Hf, TrimSpace_core in Hout by done.
  assert ((3 <? len (tag +:+ ws1 +:+ text +:+ ws2)) = true) as Hlen.
  { apply Z.ltb_lt. unfold len. rewrite !length_app_string, Htag.
    destruct text; [done|]. simpl. lia. }
  rewrite Hlen, (proj2 (N.leb_le _ _) Hlv) in Hout.
  by exists σ'.
Qed.

Lemma Output_logs_the_text_witness :
  (∃ σ', NSQLogger.Output 7%nat 2 "WRN  conn lost  " demo_adapter_store
         = Some (None, σ')
         ∧ sink σ' = [mkLogLine Logrus.WarnLevel "conn lost"
                        {[ "component" := VString "nsq" ]} EmptyString])
  ∧ (∃ σ', NSQLogger.Output 7%nat 2 "ERR conn  lost " demo_adapter_store
           = Some (None, σ')
           ∧ sink σ' = [mkLogLine Logrus.ErrorLevel "conn  lost"
                          {[ "component" := VString "nsq" ]} EmptyString]).
Proof.
  split.
  - destruct (Output_logs_the_text demo_adapter_store 7%nat
                demo_adapter_entry demo_logger 2 "WRN" "  " "conn lost" "  "
                eq_refl eq_refl eq_refl eq_refl eq_refl eq_refl eq_refl
                ltac:(by vm_compute))
      as (σ' & Hrun & Hemit).
    exists σ'. split; [exact Hrun|exact (proj1 Hemit)].
  - destruct (Output_logs_the_text demo_adapter_store 7%nat
                demo_adapter_entry demo_logger 2 "ERR" " " "conn  lost" " "
                eq_refl eq_refl eq_refl eq_refl eq_refl eq_refl eq_refl
                ltac:(by vm_compute))
      as (σ' & Hrun & Hemit).
    exists σ'. split; [exact Hrun|exact (proj1 Hemit)].
Defined.

(** X5: [WithStringFieldIgnoreEmpty] trims only to decide: a value with a
    text between ASCII white space is stored as it was given, white space
    included. *)
Theorem WithStringFieldIgnoreEmpty_keeps_padding σ e le field ws1 text ws2 :
  entry_view σ e = Some le ->
  ascii_space_only ws1 = true -> ascii_space_only ws2 = true ->
  ascii_bordered text = true ->
  Strings.TrimSpace (ws1 +:+ text +:+ ws2) = text
  ∧ result_of σ e false
      (<[field := VString (ws1 +:+ text +:+ ws2)]> (Logrus.Entry_Data le))
      (Entry.WithStringFieldIgnoreEmpty e field (ws1 +:+ text +:+ ws2) σ).
Proof.
  intros Hv H1 H2 Hc. split; [by apply TrimSpace_core|].
  pose proof (result_WithString σ e le field (ws1 +:+ text +:+ ws2) Hv) as R.
  unfold set_ignore_empty in R.
  by rewrite (bordered_not_blank _ _ _ H1 H2 Hc) in R.
Qed.

Lemma WithStringFieldIgnoreEmpty_keeps_padding_witness :
  Strings.TrimSpace " a b " = "a b"
  ∧ result_of demo_store 3%nat false {[ "relation" := VString " a b " ]}
      (Entry.WithStringFieldIgnoreEmpty 3%nat "relation" " a b " demo_store).
Proof.
  exact (WithStringFieldIgnoreEmpty_keeps_padding demo_store 3%nat demo_entry
           "relation" " " "a b" " " eq_refl eq_refl eq_refl eq_refl).
Defined.

(** ** [duration_ms] as a function of the duration *)

Lemma round_half_away_bounds d :
  2 * (round_half_away_ms d * 1000000 - d) <= 1000000
  ∧ -1000000 <= 2 * (round_half_away_ms d * 1000000 - d).
Proof.
  unfold round_half_away_ms.
  destruct (Z.abs_spec d) as [[H ->]|[H ->]];
  destruct (Z.sgn_spec d) as [[? ->]|[[? ->]|[? ->]]]; try lia;
    Z.to_euclidean_division_equations; lia.
Qed.

Lemma round_half_away_mono d1 d2 :
  d1 <= d2 -> round_half_away_ms d1 <= round_half_away_ms d2.
Proof.
  intros H. unfold round_half_away_ms.
  destruct (Z.abs_spec d1) as [[H1 ->]|[H1 ->]];
  destruct (Z.abs_spec d2) as [[H2 ->]|[H2 ->]];
  destruct (Z.sgn_spec d1) as [[? ->]|[[? ->]|[? ->]]]; try lia;
  destruct (Z.sgn_spec d2) as [[? ->]|[[? ->]|[? ->]]]; try lia;
    Z.to_euclidean_division_equations; lia.
Qed.

Lemma round_half_away_opp d :
  round_half_away_ms (- d) = - round_half_away_ms d.
Proof.
  unfold round_half_away_ms. rewrite Z.abs_opp, Z.sgn_opp. lia.
Qed.

Lemma round_half_away_whole k : round_half_away_ms (k * 1000000) = k.
Proof.
  unfold round_half_away_ms.
  destruct (Z.abs_spec (k * 1000000)) as [[H ->]|[H ->]];
  destruct (Z.sgn_spec (k * 1000000)) as [[? ->]|[[? ->]|[? ->]]]; try lia;
    Z.to_euclidean_division_equations; lia.
Qed.

(** X6: a duration of a whole number of milliseconds is recorded exactly:
    [duration_ms] of [k] milliseconds is [k]. *)
Theorem duration_ms_whole k :
  minInt64 <= k * 1000000 <= maxInt64 ->
  Entry.duration_ms (k * Time.Millisecond) = k.
Proof.
  intros H. unfold Time.Millisecond.
  destruct (duration_ms_cases _ H) as (Hmid & _ & _).
  rewrite Hmid; [apply round_half_away_whole|].
  unfold minInt64, maxInt64 in H. lia.
Qed.

Lemma duration_ms_whole_witness :
  Entry.duration_ms (9223372036854 * Time.Millisecond) = 9223372036854
  ∧ Entry.duration_ms (-250 * Time.Millisecond) = -250.
Proof.
  split.
  - apply (duration_ms_whole 9223372036854). unfold minInt64, maxInt64. lia.
  - apply (duration_ms_whole (-250)). unfold minInt64, maxInt64. lia.
Defined.

(** X7: [duration_ms] is monotone: of two durations, the longer one never
    gets the smaller number of milliseconds, saturation included. *)
Theorem duration_ms_monotone d1 d2 :
  minInt64 <= d1 -> d1 <= d2 -> d2 <= maxInt64 ->
  Entry.duration_ms d1 <= Entry.duration_ms d2.
Proof.
  intros H1 H12 H2.
  destruct (duration_ms_cases d1 ltac:(lia)) as (Hm1 & Hh1 & Hl1).
  destruct (duration_ms_cases d2 ltac:(lia)) as (Hm2 & Hh2 & Hl2).
  pose proof (round_half_away_mono d1 d2 H12) as Hmono.
  pose proof (round_half_away_mono (-9223372036854499999) d2) as Hlo2.
  pose proof (round_half_away_mono d1 9223372036854499999) as Hhi1.
  assert (round_half_away_ms (-9223372036854499999) = -9223372036854) as El
    by reflexivity.
  assert (round_half_away_ms 9223372036854499999 = 9223372036854) as Eh
    by reflexivity.
  destruct (Z_le_gt_dec 9223372036854500000 d1) as [A1|A1];
  destruct (Z_le_gt_dec 9223372036854500000 d2) as [A2|A2];
  destruct (Z_le_gt_dec d1 (-9223372036854500000)) as [B1|B1];
  destruct (Z_le_gt_dec d2 (-9223372036854500000)) as [B2|B2];
    try lia;
    rewrite ?Hh1, ?Hh2, ?Hl1, ?Hl2, ?Hm1, ?Hm2 by lia; lia.
Qed.

Lemma duration_ms_monotone_witness :
  Entry.duration_ms 1499999 <= Entry.duration_ms 1500000
  ∧ Entry.duration_ms 9223372036854499999 <= Entry.duration_ms maxInt64.
Proof.
  split.
  - apply duration_ms_monotone; unfold minInt64, maxInt64; lia.
  - apply duration_ms_monotone; unfold minInt64, maxInt64; lia.
Defined.

(** X8: [duration_ms] is odd: a duration and its negation get opposite
    numbers of milliseconds (the smallest [int64] has no negation). *)
Theorem duration_ms_odd d :
  minInt64 < d <= maxInt64 ->
  Entry.duration_ms (- d) = - Entry.duration_ms d.
Proof.
  intros H. unfold minInt64, maxInt64 in H.
  destruct (duration_ms_cases d ltac:(unfold minInt64, maxInt64; lia))
    as (Hm1 & Hh1 & Hl1).
  destruct (duration_ms_cases (- d) ltac:(unfold minInt64, maxInt64; lia))
    as (Hm2 & Hh2 & Hl2).
  destruct (Z_le_gt_dec 9223372036854500000 d) as [A1|A1];
  destruct (Z_le_gt_dec d (-9223372036854500000)) as [B1|B1]; try lia.
  rewrite Hm1, Hm2 by lia. apply round_half_away_opp.
Qed.

Lemma duration_ms_odd_witness :
  Entry.duration_ms (- 1500000) = - Entry.duration_ms 1500000
  ∧ Entry.duration_ms (- maxInt64) = - Entry.duration_ms maxInt64.
Proof.
  split.
  - apply (duration_ms_odd 1500000); unfold minInt64, maxInt64; lia.
  - apply (duration_ms_odd maxInt64); unfold minInt64, maxInt64; lia.
Defined.

(** X9: whatever the duration, [duration_ms] is less than one millisecond
    away from it, the saturated cases included. *)
Theorem duration_ms_within_one d :
  minInt64 <= d <= maxInt64 ->
  Z.abs (Entry.duration_ms d * 1000000 - d) < 1000000.
Proof.
  intros H. pose proof H as H'. unfold minInt64, maxInt64 in H'.
  destruct (duration_ms_cases d H) as (Hm1 & Hh1 & Hl1).
  pose proof (round_half_away_bounds d) as Hb.
  destruct (Z_le_gt_dec 9223372036854500000 d) as [A1|A1];
  destruct (Z_le_gt_dec d (-9223372036854500000)) as [B1|B1]; lia.
Qed.

Lemma duration_ms_within_one_witness :
  Z.abs (Entry.duration_ms maxInt64 * 1000000 - maxInt64) < 1000000.
Proof.
  apply duration_ms_within_one. unfold minInt64, maxInt64. lia.
Defined.

(** ** The enrichment methods on the Field Set *)

Ltac fields_eq :=
  apply map_eq; intros ?; rewrite ?lookup_insert;
  repeat case_decide; congruence.

Lemma set_ignore_empty_other k v (f : Logrus.Fields) j :
  j ≠ k -> set_ignore_empty k v f !! j = f !! j.
Proof.
  intros H. unfold set_ignore_empty. destruct (blank v); [done|].
  by rewrite lookup_insert_ne.
Qed.

Lemma set_field_other k v (f : Logrus.Fields) j :
  j ≠ k -> set_field k v f !! j = f !! j.
Proof.
  intros H. unfold set_field. destruct (LogrusEntry.isErrField v); [done|].
  by rewrite lookup_insert_ne.
Qed.

Lemma enriched_fields_other intSize c (f : Logrus.Fields) k :
  k ∉ own_keys c -> enriched_fields intSize c f !! k = f !! k.
Proof.
  intros H.
  destruct c as [| | | | | |event| | | | | | | | | |[span|]]; simpl in *;
    rewrite ?not_elem_of_cons in H;
    try (rewrite ?lookup_insert_ne by (intuition congruence); done);
    try (apply set_ignore_empty_other; intuition congruence);
    try (apply set_field_other; intuition congruence).
  unfold event_fields.
  destruct (Strings.Split event ",") as [|p0 [|p1 [|p2 [|p3 rest]]]];
    rewrite ?lookup_insert_ne by (intuition congruence);
    apply set_ignore_empty_other; intuition congruence.
Qed.

Lemma set_ignore_empty_keeps k v (f : Logrus.Fields) j :
  is_Some (f !! j) -> is_Some (set_ignore_empty k v f !! j).
Proof.
  intros H. unfold set_ignore_empty. destruct (blank v); [done|].
  rewrite lookup_insert_is_Some. destruct (decide (k = j)); auto.
Qed.

Lemma insert_keeps (k : string) (v : Value) (f : Logrus.Fields) j :
  is_Some (f !! j) -> is_Some (<[k := v]> f !! j).
Proof.
  intros H. rewrite lookup_insert_is_Some. destruct (decide (k = j)); auto.
Qed.

Lemma enriched_fields_keeps intSize c (f : Logrus.Fields) k :
  is_Some (f !! k) -> is_Some (enriched_fields intSize c f !! k).
Proof.
  intros H. destruct c; simpl;
    repeat (first [apply insert_keeps | apply set_ignore_empty_keeps]);
    try done.
  - unfold set_field. destruct (LogrusEntry.isErrField value); [done|].
    by apply insert_keeps.
  - unfold event_fields.
    destruct (Strings.Split event ",") as [|p0 [|p1 [|p2 [|p3 rest]]]];
    repeat (first [apply insert_keeps | apply set_ignore_empty_keeps]);
    done.
  - destruct ctx; [|done]. by repeat apply insert_keeps.
Qed.

Lemma set_ignore_empty_idem k v (f : Logrus.Fields) :
  set_ignore_empty k v (set_ignore_empty k v f) = set_ignore_empty k v f.
Proof.
  unfold set_ignore_empty. destruct (blank v); [done|]. fields_eq.
Qed.

Lemma enriched_fields_idem intSize c (f : Logrus.Fields) :
  enriched_fields intSize c (enriched_fields intSize c f)
  = enriched_fields intSize c f.
Proof.
  destruct c as [k v| | | | | |event| | | | | | | | | |[span|]]; simpl;
    try apply set_ignore_empty_idem; try fields_eq.
  - unfold set_field. destruct (LogrusEntry.isErrField v); [done|fields_eq].
  - unfold event_fields, set_ignore_empty.
    destruct (Strings.Split event ",") as [|p0 [|p1 [|p2 [|p3 rest]]]];
      try destruct (blank event); try destruct (blank p0); try done;
      fields_eq.
Qed.

(** X10: every enrichment method returns an entry that holds the receiver's
    fields with the method's own set: [service] for [WithRutilus],
    [http_method], [http_response_code], [user_id], [relation],
    [nsq_message_id], [channel], [error], [dd.trace_id] and [dd.span_id]
    for the methods of those names, and so on through [enriched_fields]. *)
Theorem enrichment_sets_fields intSize c σ e le :
  entry_view σ e = Some le ->
  ∃ e' σ',
    enrich intSize c e σ = Some (e', σ')
    ∧ entry_fields σ' e'
      = Some (enriched_fields intSize c (Logrus.Entry_Data le)).
Proof.
  intros H.
  destruct (enrich_result intSize c σ e le H) as (e' & σ' & Hr & _ & Hf & _).
  by exists e', σ'.
Qed.

Lemma enrichment_sets_fields_witness :
  ∃ e' σ',
    enrich 64 (CallWithDDTrace (Some (Tracer.mkSpan 7 9))) 3%nat demo_store
    = Some (e', σ')
    ∧ entry_fields σ' e'
      = Some (<["dd.trace_id" := VUint64 7]> {[ "dd.span_id" := VUint64 9 ]}).
Proof.
  exact (enrichment_sets_fields 64 (CallWithDDTrace (Some (Tracer.mkSpan 7 9)))
           demo_store 3%nat demo_entry eq_refl).
Defined.

(** X11: an enrichment writes its own keys only and removes nothing: every
    other key has in the entry returned the value it has in the receiver,
    and every key of the receiver is a key of the entry returned. *)
Theorem enrichment_writes_own_keys intSize c σ e le :
  entry_view σ e = Some le ->
  ∃ e' σ' f',
    enrich intSize c e σ = Some (e', σ')
    ∧ entry_fields σ' e' = Some f'
    ∧ (∀ k, k ∉ own_keys c -> f' !! k = Logrus.Entry_Data le !! k)
    ∧ (∀ k, is_Some (Logrus.Entry_Data le !! k) -> is_Some (f' !! k)).
Proof.
  intros H.
  destruct (enrich_result intSize c σ e le H) as (e' & σ' & Hr & _ & Hf & _).
  exists e', σ', (enriched_fields intSize c (Logrus.Entry_Data le)).
  split; [done|]. split; [done|]. split.
  - intros k. apply enriched_fields_other.
  - intros k. apply enriched_fields_keeps.
Qed.

Lemma enrichment_writes_own_keys_witness :
  ∃ e' σ' f',
    enrich 64 (CallWithEvent "like,1") 7%nat demo_adapter_store = Some (e', σ')
    ∧ entry_fields σ' e' = Some f'
    ∧ f' !! "component" = Some (VString "nsq")
    ∧ is_Some (f' !! "component").
Proof.
  destruct (enrichment_writes_own_keys 64 (CallWithEvent "like,1")
              demo_adapter_store 7%nat demo_adapter_entry eq_refl)
    as (e' & σ' & f' & Hr & Hf & Ho & Hk).
  exists e', σ', f'. split; [exact Hr|]. split; [exact Hf|]. split.
  - rewrite (Ho "component"); [vm_compute; reflexivity|].
    apply (bool_decide_unpack _). vm_compute. exact I.
  - apply Hk. exists (VString "nsq"). vm_compute. reflexivity.
Defined.

(** X12: an enrichment is idempotent on the Field Set: the same call made
    again on the entry it returned gives an entry with the same fields. *)
Theorem enrichment_idempotent intSize c σ e le :
  entry_view σ e = Some le ->
  ∃ e1 σ1 e2 σ2 f1,
    enrich intSize c e σ = Some (e1, σ1)
    ∧ enrich intSize c e1 σ1 = Some (e2, σ2)
    ∧ entry_fields σ1 e1 = Some f1
    ∧ entry_fields σ2 e2 = Some f1.
Proof.
  intros H.
  destruct (enrich_result intSize c σ e le H)
    as (e1 & σ1 & Hr1 & _ & Hf1 & _).
  destruct (entry_fields_view _ _ _ Hf1) as (le1 & Hv1 & Hd1).
  destruct (enrich_result intSize c σ1 e1 le1 Hv1)
    as (e2 & σ2 & Hr2 & _ & Hf2 & _).
  exists e1, σ1, e2, σ2, (enriched_fields intSize c (Logrus.Entry_Data le)).
  repeat split; try done.
  by rewrite Hf2, Hd1, enriched_fields_idem.
Qed.

Lemma enrichment_idempotent_witness :
  ∃ e1 σ1 e2 σ2 f1,
    enrich 64 (CallWithEvent "like,1,2") 3%nat demo_store = Some (e1, σ1)
    ∧ enrich 64 (CallWithEvent "like,1,2") e1 σ1 = Some (e2, σ2)
    ∧ entry_fields σ1 e1 = Some f1
    ∧ entry_fields σ2 e2 = Some f1.
Proof.
  exact (enrichment_idempotent 64 (CallWithEvent "like,1,2") demo_store 3%nat
           demo_entry eq_refl).
Defined.

(** X13: two calls of [WithField] with values logrus accepts: on different
    keys their order does not matter; on the same key the later value is
    the one that stays. *)
Theorem WithField_order σ e le k1 v1 k2 v2 :
  entry_view σ e = Some le ->
  LogrusEntry.isErrField v1 = false -> LogrusEntry.isErrField v2 = false ->
  ∃ ea σa eb σb,
    (Entry.WithField e k1 v1 ≫= fun e1 => Entry.WithField e1 k2 v2) σ
    = Some (ea, σa)
    ∧ (Entry.WithField e k2 v2 ≫= fun e1 => Entry.WithField e1 k1 v1) σ
      = Some (eb, σb)
    ∧ entry_fields σa ea
      = Some (<[k2 := v2]> (<[k1 := v1]> (Logrus.Entry_Data le)))
    ∧ (k1 ≠ k2 -> entry_fields σb eb = entry_fields σa ea)
    ∧ (k1 = k2 ->
       entry_fields σa ea = Some (<[k2 := v2]> (Logrus.Entry_Data le))).
Proof.
  intros H H1 H2.
  assert (∀ ka va kb vb,
            LogrusEntry.isErrField va = false ->
            LogrusEntry.isErrField vb = false ->
            result_of σ e false
              (<[kb := vb]> (<[ka := va]> (Logrus.Entry_Data le)))
              ((Entry.WithField e ka va
                ≫= fun e1 => Entry.WithField e1 kb vb) σ)) as Hseq.
  { intros ka va kb vb Ha Hb.
    eapply result_then_fresh; [exact (result_WithField _ _ _ ka va H)|].
    intros σ1 e1 le1 Hv1 Hd1.
    pose proof (result_WithField _ _ _ kb vb Hv1) as R.
    unfold set_field in *. rewrite Ha in Hd1. rewrite Hb, Hd1 in R.
    exact R. }
  destruct (Hseq k1 v1 k2 v2 H1 H2) as (ea & σa & Hra & _ & Hfa & _).
  destruct (Hseq k2 v2 k1 v1 H2 H1) as (eb & σb & Hrb & _ & Hfb & _).
  exists ea, σa, eb, σb. split; [done|]. split; [done|]. split; [done|].
  split.
  - intros Hne. rewrite Hfa, Hfb. f_equal. fields_eq.
  - intros ->. rewrite Hfa. f_equal. fields_eq.
Qed.

Lemma WithField_order_witness :
  ∃ ea σa eb σb,
    (Entry.WithField 3%nat "a" (VInt 1)
     ≫= fun e1 => Entry.WithField e1 "b" (VInt 2)) demo_store = Some (ea, σa)
    ∧ (Entry.WithField 3%nat "b" (VInt 2)
       ≫= fun e1 => Entry.WithField e1 "a" (VInt 1)) demo_store
      = Some (eb, σb)
    ∧ entry_fields σb eb = entry_fields σa ea.
Proof.
  destruct (WithField_order demo_store 3%nat demo_entry "a" (VInt 1) "b"
              (VInt 2) eq_refl eq_refl eq_refl)
    as (ea & σa & eb & σb & Ha & Hb & _ & Hne & _).
  exists ea, σa, eb, σb. split; [exact Ha|]. split; [exact Hb|].
  apply Hne. discriminate.
Defined.

(** X14: [WithField] with a function for a value adds no field: the entry
    returned is a new one with the receiver's fields, and it records the
    refusal in its error text, which the record written later carries. *)
Theorem WithField_refuses_functions σ e le k :
  entry_view σ e = Some le ->
  ∃ e' σ' le',
    Entry.WithField e k VFunc σ = Some (e', σ')
    ∧ fresh_in σ e'
    ∧ entry_view σ' e' = Some le'
    ∧ Logrus.Entry_Data le' = Logrus.Entry_Data le
    ∧ Logrus.Entry_err le' ≠ EmptyString
    ∧ entry_view σ' e = Some le.
Proof.
  intros H.
  destruct (wrap_WithFields_post σ e le {[ k := VFunc ]} H)
    as (e' & σ' & Hr & Hg & Hf & Hv).
  exists e', σ', (with_fields le {[ k := VFunc ]}).
  split; [exact Hr|]. split; [done|]. split; [done|].
  split; [apply with_fields_singleton_data|]. split.
  - simpl. unfold LogrusEntry.add_fields. rewrite map_fold_singleton. simpl.
    destruct (String.eqb (Logrus.Entry_err le) EmptyString) eqn:E; simpl.
    + done.
    + destruct (Logrus.Entry_err le); [done|]. done.
  - by eapply grows_entry_view.
Qed.

Lemma WithField_refuses_functions_witness :
  ∃ e' σ' le',
    Entry.WithField 3%nat "callback" VFunc demo_store = Some (e', σ')
    ∧ entry_view σ' e' = Some le'
    ∧ Logrus.Entry_Data le' = ∅
    ∧ Logrus.Entry_err le' ≠ EmptyString.
Proof.
  destruct (WithField_refuses_functions demo_store 3%nat demo_entry "callback"
              eq_refl) as (e' & σ' & le' & Hr & _ & Hv & Hd & He & _).
  exists e', σ', le'. split; [exact Hr|]. split; [exact Hv|].
  split; [exact Hd|exact He].
Defined.

(** ** Emission through a logger of the package *)

Lemma Promoted_Log_exact σ e le lg level msg (hooked : bool) :
  entry_view σ e = Some le ->
  heap σ !! Logrus.Entry_Logger le = Some (OLogrusLogger lg) ->
  (Logrus.PanicLevel < level)%N ->
  default [] (Logrus.Logger_Hooks lg !! level)
  = (if hooked then [Logrus.HookBugsnag] else []) ->
  Promoted.Log e level msg σ
  = Some (tt, if (level <=? Logrus.Logger_Level lg)%N
              then logged σ le level msg hooked else σ).
Proof.
  intros (inner & He & Hi)%entry_view_inv Hl Hlv Hh.
  unfold Promoted.Log, LogrusLogger.Entry_Log.
  rewrite (bind_run _ _ _ _ _ (deref_entry_run _ _ _ He)).
  rewrite (bind_run _ _ _ _ _ (deref_logrus_entry_run _ _ _ Hi)).
  rewrite (bind_run _ _ _ _ _ (IsLevelEnabled_run _ _ _ level Hl)).
  destruct (level <=? Logrus.Logger_Level lg)%N; [|done].
  by apply (log_exact _ _ _ lg).
Qed.

Lemma logged_entry_view σ le level msg hooked e le0 :
  entry_view σ e = Some le0 ->
  entry_view (logged σ le level msg hooked) e = Some le0.
Proof.
  intros (inner & He & Hi)%entry_view_inv. unfold entry_view, logged. simpl.
  by rewrite (lookup_app_l_Some _ _ _ _ He), (lookup_app_l_Some _ _ _ _ Hi).
Qed.

(** X15: through a logger that holds the package's hook, a record at a
    level the logger lets through is written once, and it is reported to
    bugsnag, once, exactly when its level is Error or Fatal; a record below
    the logger's level changes nothing at all. The receiver stays as it
    was. At the levels Error and Fatal the record is one on whose reported
    error the callback of [Init] returns ([unwrap_ends]); at the other
    levels the fields of the entry are free. *)
Theorem log_reports_errors_only σ e le lg level msg :
  entry_view σ e = Some le ->
  heap σ !! Logrus.Entry_Logger le = Some (OLogrusLogger lg) ->
  Logrus.Logger_Hooks lg = LogrusLogger.LevelHooks_Add ∅ Logrus.HookBugsnag ->
  (Logrus.PanicLevel < level)%N ->
  (level = Logrus.ErrorLevel ∨ level = Logrus.FatalLevel ->
   unwrap_ends (bugsnagHook.notifyErr_of (record_of le level msg)) = true) ->
  ∃ σ',
    Promoted.Log e level msg σ = Some (tt, σ')
    ∧ entry_view σ' e = Some le
    ∧ if (level <=? Logrus.Logger_Level lg)%N then
        sink σ' = line_of le level msg :: sink σ
        ∧ notified σ'
          = (if bool_decide (level = Logrus.ErrorLevel
                             ∨ level = Logrus.FatalLevel)
             then [notification_of (record_of le level msg)] else [])
            ++ notified σ
      else σ' = σ.
Proof.
  intros Hv Hl Hh Hlv _.
  pose proof (package_hooks_at level) as Hat. rewrite <- Hh in Hat.
  rewrite (Promoted_Log_exact σ e le lg level msg _ Hv Hl Hlv Hat).
  eexists. split; [reflexivity|].
  destruct (level <=? Logrus.Logger_Level lg)%N; [|done].
  split; [by apply logged_entry_view|]. split; [reflexivity|].
  unfold logged. cbn [notified].
  assert (bool_decide (level ∈ bugsnagHook.Levels)
          = bool_decide (level = Logrus.ErrorLevel
                         ∨ level = Logrus.FatalLevel)) as ->.
  { apply bool_decide_ext. unfold bugsnagHook.Levels.
    rewrite !elem_of_cons, elem_of_nil.
    assert (level ≠ Logrus.PanicLevel) by (intros ->; by apply N.lt_irrefl in Hlv).
    tauto. }
  destruct (decide (level = Logrus.ErrorLevel ∨ level = Logrus.FatalLevel))
    as [Hyes|Hno].
  - by rewrite !bool_decide_eq_true_2 by exact Hyes.
  - by rewrite !bool_decide_eq_false_2 by exact Hno.
Qed.

Lemma log_reports_errors_only_witness :
  (∃ σ', Promoted.Warn 5%nat "slow" demo_error_store = Some (tt, σ')
         ∧ sink σ'
           = [mkLogLine Logrus.WarnLevel "slow"
                (<["error" := VError (errorString "EOF")]>
                   {[ "user_id" := VUint64 10 ]}) EmptyString]
         ∧ notified σ' = [])
  ∧ (∃ σ', Promoted.Error 5%nat "down" demo_error_store = Some (tt, σ')
           ∧ sink σ'
             = [mkLogLine Logrus.ErrorLevel "down"
                  (<["error" := VError (errorString "EOF")]>
                     {[ "user_id" := VUint64 10 ]}) EmptyString]
           ∧ notified σ'
             = [Bugsnag.mkNotification
                  (Bugsnag.mkError
                     (wrapError "down: EOF" (errorString "EOF")) 4)
                  {[ "metadata" := {[ "user_id" := VUint64 10 ]} ]}]).
Proof.
  split.
  - destruct (log_reports_errors_only demo_error_store 5%nat
                demo_failed_entry demo_logger Logrus.WarnLevel "slow"
                eq_refl eq_refl eq_refl eq_refl ltac:(intros _; reflexivity))
      as (σ' & Hr & _ & Hs & Hn).
    exists σ'. split; [exact Hr|]. split; [exact Hs|exact Hn].
  - destruct (log_reports_errors_only demo_error_store 5%nat
                demo_failed_entry demo_logger Logrus.ErrorLevel "down"
                eq_refl eq_refl eq_refl eq_refl ltac:(intros _; reflexivity))
      as (σ' & Hr & _ & Hs & Hn).
    exists σ'. split; [exact Hr|]. split; [exact Hs|].
    rewrite Hn. vm_compute. reflexivity.
Defined.

(** X16: a failure to report does not lose the record: when bugsnag refuses
    the notification of a record at level Error, the call still returns, the
    record is written, and the failure goes to standard error as the line
    "Failed to fire hook: <error>"; when bugsnag accepts, standard error
    stays as it was. The record is one on whose reported error the callback
    of [Init] returns ([unwrap_ends]): bugsnag answers for no other. *)
Theorem hook_failure_keeps_the_record σ e le lg msg :
  entry_view σ e = Some le ->
  heap σ !! Logrus.Entry_Logger le = Some (OLogrusLogger lg) ->
  Logrus.Logger_Hooks lg = LogrusLogger.LevelHooks_Add ∅ Logrus.HookBugsnag ->
  (Logrus.ErrorLevel <= Logrus.Logger_Level lg)%N ->
  unwrap_ends (bugsnagHook.notifyErr_of (record_of le Logrus.ErrorLevel msg))
  = true ->
  ∃ σ',
    Promoted.Error e msg σ = Some (tt, σ')
    ∧ sink σ' = line_of le Logrus.ErrorLevel msg :: sink σ
    ∧ stderr σ'
      = match service σ (notification_of
                           (record_of le Logrus.ErrorLevel msg)) with
        | Some failure =>
            ("Failed to fire hook: " +:+ Error failure +:+ Fmt.newline)
            :: stderr σ
        | None => stderr σ
        end.
Proof.
  intros Hv Hl Hh Hlv _.
  pose proof (package_hooks_at Logrus.ErrorLevel) as Hat. rewrite <- Hh in Hat.
  unfold Promoted.Error.
  rewrite (Promoted_Log_exact σ e le lg Logrus.ErrorLevel msg true Hv Hl
             eq_refl Hat).
  rewrite (proj2 (N.leb_le _ _) Hlv).
  eexists. split; [reflexivity|]. split; reflexivity.
Qed.

Lemma hook_failure_keeps_the_record_witness :
  ∃ σ',
    Promoted.Error 3%nat "down" demo_refusing_store = Some (tt, σ')
    ∧ sink σ' = [mkLogLine Logrus.ErrorLevel "down" ∅ EmptyString]
    ∧ stderr σ'
      = ["Failed to fire hook: bugsnag: timeout" +:+ Fmt.newline]
    ∧ String.length ("Failed to fire hook: bugsnag: timeout" +:+ Fmt.newline)
      = 38%nat.
Proof.
  destruct (hook_failure_keeps_the_record demo_refusing_store 3%nat
              demo_entry demo_logger "down" eq_refl eq_refl eq_refl
              ltac:(by vm_compute) eq_refl)
    as (σ' & Hr & Hs & He).
  exists σ'. split; [exact Hr|]. split; [exact Hs|].
  split; [exact He|reflexivity].
Defined.

(** ** The logger behind an entry *)

Lemma bound_same σ e le :
  entry_view σ e = Some le -> bound_as σ e (Some (e, σ)).
Proof.
  intros H. exists le, e, σ, le. split; [done|]. split; [done|].
  split; [apply grows_refl|]. by split.
Qed.

Lemma bound_wrap σ e le fields :
  entry_view σ e = Some le -> bound_as σ e (wrap_WithFields e fields σ).
Proof.
  intros H. destruct (wrap_WithFields_post _ _ _ fields H)
    as (e' & σ' & Hr & Hg & _ & Hv).
  by exists le, e', σ', (with_fields le fields).
Qed.

Lemma bound_bind σ e (m : M loc) (k : loc -> M loc) :
  bound_as σ e (m σ) ->
  (∀ σ1 e1 le1, entry_view σ1 e1 = Some le1 -> bound_as σ1 e1 (k e1 σ1)) ->
  bound_as σ e ((m ≫= k) σ).
Proof.
  intros (le & e1 & σ1 & le1 & Hv & Hm & Hg1 & Hv1 & Hl1) Hk.
  destruct (Hk _ _ _ Hv1) as (le1' & e2 & σ2 & le2 & Hv1' & Hr & Hg2 & Hv2 & Hl2).
  rewrite Hv1 in Hv1'. injection Hv1' as <-.
  exists le, e2, σ2, le2. rewrite (bind_run _ _ _ _ _ Hm).
  split; [done|]. split; [done|]. split; [by eapply grows_trans|].
  split; [done|]. congruence.
Qed.

Lemma bound_WithString σ e le k v :
  entry_view σ e = Some le ->
  bound_as σ e (Entry.WithStringFieldIgnoreEmpty e k v σ).
Proof.
  intros H. rewrite WithStringFieldIgnoreEmpty_run. destruct (blank v).
  - by eapply bound_same.
  - exact (bound_wrap σ e le {[ k := VString v ]} H).
Qed.

Lemma bound_WithField σ e le k v :
  entry_view σ e = Some le -> bound_as σ e (Entry.WithField e k v σ).
Proof. intros H. exact (bound_wrap σ e le {[ k := v ]} H). Qed.

Lemma bound_WithEvent intSize σ e le event :
  entry_view σ e = Some le ->
  bound_as σ e (Entry.WithEvent intSize e event σ).
Proof.
  intros H. unfold Entry.WithEvent.
  pose proof (Split_nonempty event ",") as Hne.
  destruct (Strings.Split event ",") as [|p0 [|p1 [|p2 [|p3 rest]]]];
    [done| | | |]; simpl.
  - exact (bound_WithString σ e le "event" event H).
  - eapply bound_bind; [exact (bound_WithString σ e le _ _ H)|].
    intros σ1 e1 le1 H1. exact (bound_WithField σ1 e1 le1 _ _ H1).
  - eapply bound_bind; [exact (bound_WithString σ e le _ _ H)|].
    intros σ1 e1 le1 H1.
    eapply bound_bind; [exact (bound_WithField σ1 e1 le1 _ _ H1)|].
    intros σ2 e2 le2 H2. exact (bound_WithField σ2 e2 le2 _ _ H2).
  - exact (bound_WithString σ e le "event" event H).
Qed.

Lemma enrich_bound intSize c σ e le :
  entry_view σ e = Some le -> bound_as σ e (enrich intSize c e σ).
Proof.
  intros H. destruct c; cbn [enrich].
  - exact (bound_WithField σ e le _ _ H).
  - exact (bound_WithField σ e le "service" (VString "rutilus") H).
  - exact (bound_WithField σ e le "http_method" (VString method) H).
  - exact (bound_WithField σ e le "http_response_code"
             (VString (Itoa code)) H).
  - exact (bound_WithString σ e le _ _ H).
  - exact (bound_WithField σ e le "user_id" (VUint64 userID) H).
  - exact (bound_WithEvent intSize σ e le event H).
  - exact (bound_WithString σ e le "relation" relation H).
  - exact (bound_WithString σ e le "nsq_message_id" id H).
  - exact (bound_WithField σ e le "duration_ms"
             (VInt64 (Entry.duration_ms d)) H).
  - unfold Entry.WithDuration_nsq.
    eapply bound_bind; [exact (bound_WithField σ e le _ _ H)|].
    intros σ1 e1 le1 H1. exact (bound_WithField σ1 e1 le1 _ _ H1).
  - exact (bound_WithField σ e le "e2e_duration_ms"
             (VInt64 (Entry.duration_ms d)) H).
  - exact (bound_WithField σ e le "channel" (VString "fcm") H).
  - exact (bound_WithField σ e le "channel" (VString "notificationlist") H).
  - exact (bound_WithField σ e le "channel" (VString channel) H).
  - exact (bound_wrap σ e le
             {[ "error" := match err with
                           | Some x => VError x
                           | None => VNil
                           end ]} H).
  - destruct ctx as [span|].
    + exact (bound_wrap σ e le
               (<["dd.trace_id" := VUint64 (Tracer.TraceID span)]>
                  (<["dd.span_id" := VUint64 (Tracer.SpanID span)]> ∅)) H).
    + by eapply bound_same.
Qed.

(** X17: every enrichment method returns an entry of the same logger: the
    entry returned logs through the logger of the receiver, at its level and
    with its hooks. *)
Theorem enrichment_keeps_logger intSize c σ e le lg :
  entry_view σ e = Some le ->
  heap σ !! Logrus.Entry_Logger le = Some (OLogrusLogger lg) ->
  ∃ e' σ' le',
    enrich intSize c e σ = Some (e', σ')
    ∧ entry_view σ' e' = Some le'
    ∧ Logrus.Entry_Logger le' = Logrus.Entry_Logger le
    ∧ heap σ' !! Logrus.Entry_Logger le' = Some (OLogrusLogger lg).
Proof.
  intros Hv Hl.
  destruct (enrich_bound intSize c σ e le Hv)
    as (le0 & e' & σ' & le' & Hv0 & Hr & Hg & Hv' & Hsame).
  rewrite Hv in Hv0. injection Hv0 as <-.
  exists e', σ', le'. split; [done|]. split; [done|]. split; [done|].
  rewrite Hsame. by apply (grows_lookup _ _ _ _ Hg).
Qed.

Lemma enrichment_keeps_logger_witness :
  ∃ e' σ' le',
    enrich 64 (CallWithEvent "like,1,2") 3%nat demo_store = Some (e', σ')
    ∧ entry_view σ' e' = Some le'
    ∧ Logrus.Entry_Logger le' = 0%nat
    ∧ heap σ' !! Logrus.Entry_Logger le' = Some (OLogrusLogger demo_logger).
Proof.
  exact (enrichment_keeps_logger 64 (CallWithEvent "like,1,2") demo_store
           3%nat demo_entry demo_logger eq_refl eq_refl).
Defined.

(** ** The constructors of [*Logger] *)

Lemma Logger_NewEntry_view σ l inner :
  heap σ !! l = Some (OLogger inner) ->
  ∃ e1 σ1,
    Logger.NewEntry l σ = Some (e1, σ1)
    ∧ grows σ σ1
    ∧ fresh_in σ e1
    ∧ entry_view σ1 e1
      = Some (Logrus.mkEntry inner ∅ 0%N EmptyString EmptyString).
Proof.
  intros Hl. eexists _, _. split; [by apply Logger_NewEntry_run|].
  split; [by eexists|]. split.
  - unfold fresh_in. apply lookup_ge_None_2. lia.
  - unfold entry_view. rewrite with_heap_heap.
    rewrite lookup_app_r by lia.
    replace (S (List.length (heap σ)) - List.length (heap σ))%nat
      with 1%nat by lia.
    simpl. rewrite lookup_app_r by lia. by rewrite Nat.sub_diag.
Qed.

Lemma Logger_then_enrich intSize c σ l lg :
  logger_view σ l = Some lg ->
  entry_of_logger σ lg (enriched_fields intSize c ∅)
    ((Logger.NewEntry l ≫= enrich intSize c) σ).
Proof.
  intros (inner & Hl & Hi)%logger_view_inv.
  destruct (Logger_NewEntry_view σ l inner Hl)
    as (e1 & σ1 & Hr1 & Hg1 & Hf1 & Hv1).
  rewrite (bind_run _ _ _ _ _ Hr1).
  destruct (enrich_result intSize c σ1 e1 _ Hv1)
    as (e2 & σ2 & Hr2 & Hg2 & Hf2 & Hs2).
  destruct (enrich_bound intSize c σ1 e1 _ Hv1)
    as (le1 & e2' & σ2' & le2 & Hv1' & Hr2' & _ & Hv2 & Hsame).
  rewrite Hr2 in Hr2'. injection Hr2' as <- <-.
  rewrite Hv1 in Hv1'. injection Hv1' as <-.
  exists e2, σ2, le2. split; [done|]. split; [by eapply grows_trans|].
  split; [|split; [done|split]].
  - destruct (returns_receiver c).
    + by destruct Hs2 as [-> _].
    + by eapply grows_fresh.
  - unfold entry_fields in Hf2. rewrite Hv2 in Hf2. by injection Hf2.
  - rewrite Hsame. simpl.
    by apply (grows_lookup _ _ _ _ (grows_trans _ _ _ Hg1 Hg2)).
Qed.

(** X18: the constructors of [*Logger] start from an empty Field Set:
    [NewEntry] gives a new entry of the logger with no field, and
    [WithField], [WithError] and [WithDDTrace] give one with their own
    fields and no other, whatever was logged or built before. *)
Theorem Logger_entries_start_empty σ l lg field value err ctx :
  logger_view σ l = Some lg ->
  entry_of_logger σ lg ∅ (Logger.NewEntry l σ)
  ∧ entry_of_logger σ lg (set_field field value ∅)
      (Logger.WithField l field value σ)
  ∧ entry_of_logger σ lg
      {[ "error" := match err with Some x => VError x | None => VNil end ]}
      (Logger.WithError l err σ)
  ∧ entry_of_logger σ lg
      (match ctx with
       | Some span =>
           <["dd.trace_id" := VUint64 (Tracer.TraceID span)]>
             {[ "dd.span_id" := VUint64 (Tracer.SpanID span) ]}
       | None => ∅
       end)
      (Logger.WithDDTrace l ctx σ).
Proof.
  intros Hv. split; [|split; [|split]].
  - pose proof Hv as (inner & Hl & Hi)%logger_view_inv.
    destruct (Logger_NewEntry_view σ l inner Hl)
      as (e1 & σ1 & Hr1 & Hg1 & Hf1 & Hv1).
    eexists e1, σ1, _. split; [done|]. split; [done|]. split; [done|].
    split; [exact Hv1|]. split; [done|]. by apply (grows_lookup _ _ _ _ Hg1).
  - exact (Logger_then_enrich 64 (CallWithField field value) σ l lg Hv).
  - pose proof (Logger_then_enrich 64 (CallWithError err) σ l lg Hv) as R.
    cbn [enriched_fields] in R. rewrite insert_empty in R. exact R.
  - pose proof (Logger_then_enrich 64 (CallWithDDTrace ctx) σ l lg Hv) as R.
    destruct ctx as [span|]; cbn [enriched_fields] in R.
    + rewrite (insert_empty (M := gmap string)) in R. exact R.
    + exact R.
Qed.

Lemma Logger_entries_start_empty_witness :
  entry_of_logger demo_adapter_store demo_logger ∅
    (Logger.NewEntry 1%nat demo_adapter_store)
  ∧ entry_of_logger demo_adapter_store demo_logger
      {[ "user_id" := VUint64 10 ]}
      (Logger.WithField 1%nat "user_id" (VUint64 10) demo_adapter_store).
Proof.
  destruct (Logger_entries_start_empty demo_adapter_store 1%nat demo_logger
              "user_id" (VUint64 10) None None eq_refl) as (H1 & H2 & _).
  split; [exact H1|]. cbn [set_field LogrusEntry.isErrField] in H2.
  rewrite insert_empty in H2. exact H2.
Defined.

(** ** The adapter and the level it announces *)

Lemma getNSQLogLevel_run σ l lg :
  logger_view σ l = Some lg ->
  Logger.getNSQLogLevel l σ
  = Some (nsq_level_of (Logrus.Logger_Level lg), σ).
Proof.
  intros (inner & Hl & Hi)%logger_view_inv.
  unfold Logger.getNSQLogLevel, nsq_level_of.
  rewrite (bind_run _ _ _ _ _ (deref_logger_run _ _ _ Hl)).
  rewrite (bind_run _ _ _ _ _ (deref_logrus_logger_run _ _ _ Hi)).
  by repeat case_match.
Qed.

Lemma NSQLogger_run σ l lg :
  logger_view σ l = Some lg ->
  ∃ n σ' le,
    Logger.NSQLogger l σ
    = Some ((n, nsq_level_of (Logrus.Logger_Level lg)), σ')
    ∧ grows σ σ'
    ∧ entry_view σ' n = Some le
    ∧ Logrus.Entry_Data le = {[ "component" := VString "nsq" ]}
    ∧ Logrus.Entry_err le = EmptyString
    ∧ heap σ' !! Logrus.Entry_Logger le = Some (OLogrusLogger lg).
Proof.
  intros Hv.
  destruct (NSQLogger_adapter σ l lg Hv)
    as (n & level & σ' & le & Hr & Hg & Hn & Hd & He & Hl & Hlevel).
  rewrite (getNSQLogLevel_run _ _ _ Hv) in Hlevel. injection Hlevel as <-.
  by exists n, σ', le.
Qed.

(** X19: [Log.NSQLogger()] returns an adapter over a new entry of the
    logger that holds the one field [component="nsq"], with the level of
    go-nsq that stands for the logger's level; the logger itself is left as
    it was. *)
Theorem NSQLogger_builds_adapter σ l lg :
  logger_view σ l = Some lg ->
  ∃ n σ' le,
    Logger.NSQLogger l σ
    = Some ((n, nsq_level_of (Logrus.Logger_Level lg)), σ')
    ∧ entry_view σ' n = Some le
    ∧ Logrus.Entry_Data le = {[ "component" := VString "nsq" ]}
    ∧ heap σ' !! Logrus.Entry_Logger le = Some (OLogrusLogger lg)
    ∧ logger_view σ' l = Some lg
    ∧ (∀ p o, heap σ !! p = Some o -> heap σ' !! p = Some o).
Proof.
  intros Hv.
  destruct (NSQLogger_run σ l lg Hv)
    as (n & σ' & le & Hr & Hg & Hn & Hd & _ & Hl).
  exists n, σ', le. split; [done|]. split; [done|]. split; [done|].
  split; [done|]. split; [by eapply grows_logger_view|].
  intros p o. by apply grows_lookup.
Qed.

Lemma NSQLogger_builds_adapter_witness :
  ∃ n σ' le,
    Logger.NSQLogger 1%nat demo_store = Some ((n, Nsq.LogLevelDebug), σ')
    ∧ entry_view σ' n = Some le
    ∧ Logrus.Entry_Data le = {[ "component" := VString "nsq" ]}.
Proof.
  destruct (NSQLogger_builds_adapter demo_store 1%nat demo_logger eq_refl)
    as (n & σ' & le & Hr & Hn & Hd & _).
  exists n, σ', le. split; [exact Hr|]. split; [exact Hn|exact Hd].
Defined.

Lemma String_length_3 lvl : String.length (Nsq.String_ lvl) = 3%nat.
Proof. unfold Nsq.String_. by repeat case_match. Qed.

Lemma tag_passes (level : N) (lvl : Z) :
  lvl ∈ nsq_levels ->
  nsq_level_of level <= lvl ->
  (NSQLogger.level_of_tag (Nsq.String_ lvl) <=? level)%N
  = (Logrus.ErrorLevel <=? level)%N.
Proof.
  unfold nsq_levels. rewrite !elem_of_cons, elem_of_nil.
  intros Hin Hle.
  destruct (N.lt_ge_cases level 6) as [Hlt|Hge].
  - assert (level = 0 ∨ level = 1 ∨ level = 2 ∨ level = 3 ∨ level = 4
            ∨ level = 5)%N as Hcases by lia.
    destruct Hcases as [->|[->|[->|[->|[->| ->]]]]];
      destruct Hin as [->|[->|[->|[->|[]]]]]; try reflexivity;
      vm_compute in Hle; by destruct Hle.
  - assert ((Logrus.ErrorLevel <=? level)%N = true) as ->
      by (apply N.leb_le; unfold Logrus.ErrorLevel; lia).
    assert (NSQLogger.level_of_tag (Nsq.String_ lvl) <= 5)%N as H5.
    { unfold NSQLogger.level_of_tag. repeat case_match; by vm_compute. }
    apply N.leb_le. lia.
Qed.

(** X20: the level [NSQLogger] announces to go-nsq and the filter of
    [Output] agree for a logger at level Error or below it: every message
    go-nsq lets through at the announced level is written by [Output]. A
    logger at level Fatal or Panic announces Error, and [Output] writes
    none of the messages it is then sent. *)
Theorem NSQLogger_and_Output_agree σ l lg calldepth lvl body :
  logger_view σ l = Some lg ->
  lvl ∈ nsq_levels ->
  nsq_level_of (Logrus.Logger_Level lg) <= lvl ->
  body ≠ EmptyString ->
  ∃ n σ1 σ2,
    Logger.NSQLogger l σ
    = Some ((n, nsq_level_of (Logrus.Logger_Level lg)), σ1)
    ∧ NSQLogger.Output n calldepth (Nsq.String_ lvl +:+ body) σ1
      = Some (None, σ2)
    ∧ if (Logrus.ErrorLevel <=? Logrus.Logger_Level lg)%N
      then sink σ2
           = mkLogLine (NSQLogger.level_of_tag (Nsq.String_ lvl))
               (Strings.TrimSpace body)
               {[ "component" := VString "nsq" ]} EmptyString :: sink σ1
      else σ2 = σ1.
Proof.
  intros Hv Hin Hle Hbody.
  destruct (NSQLogger_run σ l lg Hv)
    as (n & σ1 & le & Hr & Hg & Hn & Hd & He & Hl).
  destruct (Output_run σ1 n le lg calldepth (Nsq.String_ lvl +:+ body)
              Hn Hl) as (σ2 & Hrun & Hout & _).
  exists n, σ1, σ2. split; [done|]. split; [done|].
  pose proof (slice_to_app (Nsq.String_ lvl) body) as Ht.
  pose proof (slice_from_app (Nsq.String_ lvl) body) as Hf.
  rewrite String_length_3 in Ht, Hf. rewrite Ht, Hf in Hout.
  assert ((3 <? len (Nsq.String_ lvl +:+ body)) = true) as Hlen.
  { apply Z.ltb_lt. unfold len. rewrite length_app_string, String_length_3.
    destruct body; [done|]. simpl. lia. }
  rewrite Hlen, (tag_passes _ _ Hin Hle) in Hout. simpl in Hout.
  destruct (Logrus.ErrorLevel <=? Logrus.Logger_Level lg)%N; [|done].
  destruct Hout as [Hs _]. rewrite Hs. unfold line_of. by rewrite Hd, He.
Qed.

Lemma NSQLogger_and_Output_agree_witness :
  ∃ n σ1 σ2,
    Logger.NSQLogger 1%nat demo_store = Some ((n, Nsq.LogLevelDebug), σ1)
    ∧ NSQLogger.Output n 2 "WRN retrying" σ1 = Some (None, σ2)
    ∧ sink σ2 = [mkLogLine Logrus.WarnLevel "retrying"
                   {[ "component" := VString "nsq" ]} EmptyString].
Proof.
  destruct (NSQLogger_and_Output_agree demo_store 1%nat demo_logger 2
              Nsq.LogLevelWarning " retrying" eq_refl
              ltac:(apply (bool_decide_unpack _); vm_compute; exact I)
              ltac:(vm_compute; discriminate) ltac:(discriminate))
    as (n & σ1 & σ2 & Hr & Ho & Hs).
  exists n, σ1, σ2. split; [exact Hr|]. split; [exact Ho|].
  vm_compute in Hr. injection Hr as <- <-. exact Hs.
Defined.

(** ** From [Init] to a report *)


Lemma initialised_logger config σ :
  logger_view (initialised config σ) (S (S (S (List.length (heap σ)))))
  = Some (new_logger true config).
Proof.
  unfold logger_view, initialised. cbn [heap].
  rewrite lookup_app_r by lia.
  replace (S (S (S (List.length (heap σ)))) - List.length (heap σ))%nat
    with 3%nat by lia.
  cbn [lookup list_lookup]. rewrite lookup_app_r by lia.
  replace (S (S (List.length (heap σ))) - List.length (heap σ))%nat
    with 2%nat by lia.
  reflexivity.
Qed.




(** ** [new] and the first [Init] *)

Lemma new_logger_view withBugsnag config σ :
  logger_view
    (with_heap (heap σ ++ [OLogrusLogger (new_logger withBugsnag config);
                           OLogger (List.length (heap σ))]) σ)
    (S (List.length (heap σ)))
  = Some (new_logger withBugsnag config).
Proof.
  unfold logger_view. rewrite with_heap_heap.
  rewrite lookup_app_r by lia.
  replace (S (List.length (heap σ)) - List.length (heap σ))%nat
    with 1%nat by lia.
  cbn [lookup list_lookup]. rewrite lookup_app_r by lia.
  by rewrite Nat.sub_diag.
Qed.

(** X22: [new(withBugsnag, config)] builds a new logger and touches nothing
    else: its level is the one the configuration names, its formatter the
    JSON formatter with the message under "message", and it holds the
    package's hook, at Error, Fatal and Panic and at no other level, exactly
    when [withBugsnag] is set. *)
Theorem new_builds_logger withBugsnag config σ :
  ∃ l σ' lg,
    new withBugsnag config σ = Some (l, σ')
    ∧ grows σ σ'
    ∧ fresh_in σ l
    ∧ logger_view σ' l = Some lg
    ∧ Logrus.Logger_Level lg = getLogrusLogLevel (LogLevel config)
    ∧ Logrus.Logger_Formatter lg
      = Logrus.JSONFormatter Logrus.RFC3339Nano {[ "msg" := "message" ]}
    ∧ ∀ level,
        default [] (Logrus.Logger_Hooks lg !! level)
        = if withBugsnag && bool_decide (level ∈ bugsnagHook.Levels)
          then [Logrus.HookBugsnag] else [].
Proof.
  eexists _, _, (new_logger withBugsnag config).
  split; [apply new_run|]. split; [by eexists|]. split.
  { unfold fresh_in. apply lookup_ge_None_2. lia. }
  split; [apply new_logger_view|]. split; [reflexivity|].
  split; [reflexivity|]. intros level. cbn [new_logger Logrus.Logger_Hooks].
  destruct withBugsnag; [apply package_hooks_at|].
  by rewrite lookup_empty.
Qed.

(** X23: the first [Init] configures bugsnag once, with the values of the
    configuration unchanged and a logger of its own that holds no hook,
    registers the callback once, and sets [Log] to a new logger with the
    configured level and the package's hook; nothing is written or reported,
    and what was in the store stays. *)
Theorem Init_configures_once config σ :
  Log σ = None ->
  ∃ σ' l cfg,
    Init config σ = Some (tt, σ')
    ∧ Log σ' = Some l
    ∧ fresh_in σ l
    ∧ logger_view σ' l = Some (new_logger true config)
    ∧ configured σ' = cfg :: configured σ
    ∧ Bugsnag.APIKey cfg = BugsnagAPIKey config
    ∧ Bugsnag.ReleaseStage cfg = Environment config
    ∧ Bugsnag.AppVersion cfg = AppVersion config
    ∧ Bugsnag.NotifyReleaseStages cfg = BugsnagNotifyReleaseStages config
    ∧ Bugsnag.ProjectPackages cfg = BugsnagProjectPackages config
    ∧ Bugsnag.ProjectPaths cfg = BugsnagProjectPaths config
    ∧ Bugsnag.PackageRoot cfg = BugsnagPackageRoot config
    ∧ logger_view σ' (Bugsnag.Logger cfg) = Some (new_logger false config)
    ∧ middleware σ' = Bugsnag.unwrapErrorClass :: middleware σ
    ∧ sink σ' = sink σ
    ∧ notified σ' = notified σ
    ∧ (∀ p o, heap σ !! p = Some o -> heap σ' !! p = Some o).
Proof.
  intros HL.
  exists (initialised config σ), (S (S (S (List.length (heap σ))))),
    (bugsnag_Configuration config (S (List.length (heap σ)))).
  split; [by apply Init_run|]. split; [reflexivity|]. split.
  { unfold fresh_in. apply lookup_ge_None_2. lia. }
  split; [apply initialised_logger|].
  do 8 (split; [reflexivity|]). split.
  { unfold logger_view, initialised. cbn [heap bugsnag_Configuration
                                           Bugsnag.Logger].
    rewrite lookup_app_r by lia.
    replace (S (List.length (heap σ)) - List.length (heap σ))%nat
      with 1%nat by lia.
    cbn [lookup list_lookup]. rewrite lookup_app_r by lia.
    by rewrite Nat.sub_diag. }
  do 3 (split; [reflexivity|]).
  intros p o Hp. unfold initialised. cbn [heap].
  by apply lookup_app_l_Some.
Qed.

Lemma Init_configures_once_witness :
  ∃ σ' l cfg,
    Init (mkLoggingConfig "DEBUG" "staging" "7" "key" ["staging"] [] []
                          "pkg") empty_store = Some (tt, σ')
    ∧ Log σ' = Some l
    ∧ configured σ' = [cfg]
    ∧ Bugsnag.APIKey cfg = "key"
    ∧ Bugsnag.ReleaseStage cfg = "staging"
    ∧ middleware σ' = [Bugsnag.unwrapErrorClass].
Proof.
  destruct (Init_configures_once
              (mkLoggingConfig "DEBUG" "staging" "7" "key" ["staging"] [] []
                               "pkg") empty_store eq_refl)
    as (σ' & l & cfg & Hr & HL & _ & _ & Hc & Hk & Hs & _ & _ & _ & _ & _
        & _ & Hm & _).
  exists σ', l, cfg. split; [exact Hr|]. split; [exact HL|].
  split; [exact Hc|]. split; [exact Hk|]. split; [exact Hs|exact Hm].
Defined.

Lemma nsq_level_of_configured name :
  nsq_level_of (getLogrusLogLevel name) = nsq_level_of_name name.
Proof.
  rewrite getLogrusLogLevel_spec. unfold spec_ParseLevel, nsq_level_of_name.
  destruct (String.eqb_spec name "ERROR") as [->|_]; [reflexivity|].
  destruct (String.eqb_spec name "WARNING") as [->|_]; [reflexivity|].
  destruct (String.eqb_spec name "INFO") as [->|_]; [reflexivity|].
  by destruct (String.eqb_spec name "DEBUG") as [->|_].
Qed.

(** X24: the level name of the configuration decides what go-nsq is told:
    after the first [Init], [Log.NSQLogger()] announces Error for "ERROR",
    Warning for "WARNING", Debug for "DEBUG" and Info for every other
    name. *)
Theorem configured_level_reaches_nsq config σ :
  Log σ = None ->
  ∃ σ1 l n σ2,
    Init config σ = Some (tt, σ1)
    ∧ Log σ1 = Some l
    ∧ Logger.NSQLogger l σ1
      = Some ((n, nsq_level_of_name (LogLevel config)), σ2).
Proof.
  intros HL.
  destruct (NSQLogger_run (initialised config σ) _ _
              (initialised_logger config σ))
    as (n & σ2 & le & Hr & _).
  exists (initialised config σ), (S (S (S (List.length (heap σ))))), n, σ2.
  split; [by apply Init_run|]. split; [reflexivity|].
  rewrite Hr. cbn [new_logger Logrus.Logger_Level].
  by rewrite nsq_level_of_configured.
Qed.

Lemma configured_level_reaches_nsq_witness :
  ∃ σ1 l n σ2,
    Init (mkLoggingConfig "warning" "" "" "" [] [] [] EmptyString) empty_store
    = Some (tt, σ1)
    ∧ Log σ1 = Some l
    ∧ Logger.NSQLogger l σ1 = Some ((n, Nsq.LogLevelInfo), σ2).
Proof.
  exact (configured_level_reaches_nsq
           (mkLoggingConfig "warning" "" "" "" [] [] [] EmptyString)
           empty_store eq_refl).
Defined.

(** X25: the logger [new(false, config)] builds, the one [Init] hands to
    bugsnag for its own messages, never reports: a record written through
    one of its entries goes to the output only, with no notification and
    nothing on standard error. *)
Theorem hookless_logger_never_reports config σ e le level msg :
  entry_view σ e = Some le ->
  heap σ !! Logrus.Entry_Logger le
  = Some (OLogrusLogger (new_logger false config)) ->
  (Logrus.PanicLevel < level)%N ->
  (∀ σ0, ∃ l σ1, new false config σ0 = Some (l, σ1)
                 ∧ logger_view σ1 l = Some (new_logger false config))
  ∧ ∃ σ',
      Promoted.Log e level msg σ = Some (tt, σ')
      ∧ notified σ' = notified σ
      ∧ stderr σ' = stderr σ
      ∧ if (level <=? getLogrusLogLevel (LogLevel config))%N
        then sink σ' = line_of le level msg :: sink σ
        else σ' = σ.
Proof.
  intros Hv Hl Hlv. split.
  { intros σ0. eexists _, _. split; [apply new_run|apply new_logger_view]. }
  rewrite (Promoted_Log_exact σ e le _ level msg false Hv Hl Hlv)
    by (cbn [new_logger Logrus.Logger_Hooks]; by rewrite lookup_empty).
  cbn [new_logger Logrus.Logger_Level].
  eexists. split; [reflexivity|].
  by destruct (level <=? getLogrusLogLevel (LogLevel config))%N.
Qed.

Lemma hookless_logger_never_reports_witness :
  ∃ σ',
    Promoted.Log 3%nat Logrus.ErrorLevel "bugsnag: sent"
      (mkStore [OLogrusLogger
                  (new_logger false
                     (mkLoggingConfig "INFO" "" "" "" [] [] [] EmptyString));
                OLogger 0%nat; OLogrusEntry demo_entry; OEntry 2%nat]
               None [] [] (fun _ => None) [] [] [])
    = Some (tt, σ')
    ∧ notified σ' = []
    ∧ sink σ' = [mkLogLine Logrus.ErrorLevel "bugsnag: sent" ∅ EmptyString].
Proof.
  destruct (hookless_logger_never_reports
              (mkLoggingConfig "INFO" "" "" "" [] [] [] EmptyString)
              (mkStore [OLogrusLogger
                          (new_logger false
                             (mkLoggingConfig "INFO" "" "" "" [] [] []
                                              EmptyString));
                        OLogger 0%nat; OLogrusEntry demo_entry; OEntry 2%nat]
                       None [] [] (fun _ => None) [] [] [])
              3%nat demo_entry Logrus.ErrorLevel "bugsnag: sent"
              eq_refl eq_refl eq_refl)
    as (_ & σ' & Hr & Hn & _ & Hs).
  exists σ'. split; [exact Hr|]. split; [exact Hn|exact Hs].
Defined.

(** ** The earlier revision: the hook of logrus-bugsnag *)

Lemma set_Formatter_last (σ0 : Store) h lg f :
  heap σ0 = h ++ [OLogrusLogger lg] ->
  LogrusLogger.set_Formatter (List.length h) f σ0
  = Some (tt, with_heap (h ++ [OLogrusLogger
            (Logrus.mkLogger (Logrus.Logger_Level lg)
               (Logrus.Logger_Hooks lg) f)]) σ0).
Proof.
  intros Hh. unfold LogrusLogger.set_Formatter.
  rewrite (bind_run _ _ _ _ _ (deref_logrus_logger_run σ0 (List.length h) lg
             ltac:(rewrite Hh; apply lookup_last_cell))).
  by rewrite store_at_run, Hh, insert_last_cell.
Qed.

Lemma set_Level_last (σ0 : Store) h lg lv :
  heap σ0 = h ++ [OLogrusLogger lg] ->
  LogrusLogger.set_Level (List.length h) lv σ0
  = Some (tt, with_heap (h ++ [OLogrusLogger
            (Logrus.mkLogger lv (Logrus.Logger_Hooks lg)
               (Logrus.Logger_Formatter lg))]) σ0).
Proof.
  intros Hh. unfold LogrusLogger.set_Level.
  rewrite (bind_run _ _ _ _ _ (deref_logrus_logger_run σ0 (List.length h) lg
             ltac:(rewrite Hh; apply lookup_last_cell))).
  by rewrite store_at_run, Hh, insert_last_cell.
Qed.

Lemma Hooks_Add_last (σ0 : Store) h lg hk :
  heap σ0 = h ++ [OLogrusLogger lg] ->
  LogrusLogger.Hooks_Add (List.length h) hk σ0
  = Some (tt, with_heap (h ++ [OLogrusLogger
            (Logrus.mkLogger (Logrus.Logger_Level lg)
               (LogrusLogger.LevelHooks_Add (Logrus.Logger_Hooks lg) hk)
               (Logrus.Logger_Formatter lg))]) σ0).
Proof.
  intros Hh. unfold LogrusLogger.Hooks_Add.
  rewrite (bind_run _ _ _ _ _ (deref_logrus_logger_run σ0 (List.length h) lg
             ltac:(rewrite Hh; apply lookup_last_cell))).
  by rewrite store_at_run, Hh, insert_last_cell.
Qed.

Lemma NewBugsnagHook_run (σ0 : Store) :
  LogrusBugsnag.NewBugsnagHook σ0
  = Some (if String.eqb (configured_key σ0) EmptyString then None
          else Some Logrus.HookLogrusBugsnag, σ0).
Proof.
  unfold LogrusBugsnag.NewBugsnagHook.
  assert (BugsnagClient.Config_APIKey σ0 = Some (configured_key σ0, σ0)) as Hk
    by reflexivity.
  rewrite (bind_run _ _ _ _ _ Hk).
  by destruct (String.eqb (configured_key σ0) EmptyString).
Qed.

Lemma addBugsnagHook_last (σ0 : Store) h lg :
  heap σ0 = h ++ [OLogrusLogger lg] ->
  addBugsnagHook (List.length h) σ0
  = Some (tt,
      if String.eqb (configured_key σ0) EmptyString then σ0
      else with_heap (h ++ [OLogrusLogger
             (Logrus.mkLogger (Logrus.Logger_Level lg)
                (LogrusLogger.LevelHooks_Add (Logrus.Logger_Hooks lg)
                   Logrus.HookLogrusBugsnag)
                (Logrus.Logger_Formatter lg))]) σ0).
Proof.
  intros Hh. unfold addBugsnagHook.
  rewrite (bind_run _ _ _ _ _ (NewBugsnagHook_run σ0)).
  destruct (String.eqb (configured_key σ0) EmptyString).
  - reflexivity.
  - by apply Hooks_Add_last.
Qed.

Lemma new_logrus_bugsnag_run withBugsnag config σ :
  new_logrus_bugsnag withBugsnag config σ
  = Some (S (List.length (heap σ)),
          with_heap (heap σ ++
            [OLogrusLogger (new_logger_logrus_bugsnag withBugsnag config
                              (configured_key σ));
             OLogger (List.length (heap σ))]) σ).
Proof.
  unfold new_logrus_bugsnag.
  assert (LogrusLogger.New σ = Some (List.length (heap σ),
            with_heap (heap σ ++ [OLogrusLogger
              (Logrus.mkLogger Logrus.InfoLevel ∅ Logrus.TextFormatter)]) σ))
    as H0 by reflexivity.
  rewrite (bind_run _ _ _ _ _ H0). clear H0.
  erewrite bind_run by (apply set_Formatter_last; reflexivity).
  erewrite bind_run by (apply set_Level_last; reflexivity).
  rewrite !with_heap_with_heap. simpl Logrus.Logger_Hooks.
  simpl Logrus.Logger_Formatter. unfold new_logger_logrus_bugsnag.
  destruct withBugsnag.
  - erewrite bind_run by (apply addBugsnagHook_last; reflexivity).
    change (configured_key (with_heap _ σ)) with (configured_key σ).
    destruct (String.eqb (configured_key σ) EmptyString); simpl.
    + rewrite alloc_run, with_heap_heap, !with_heap_with_heap.
      rewrite length_app, <- app_assoc. simpl. by rewrite Nat.add_1_r.
    + rewrite alloc_run, with_heap_heap, !with_heap_with_heap.
      rewrite length_app, <- app_assoc. simpl. by rewrite Nat.add_1_r.
  - rewrite (bind_run _ _ _ (tt) _ (ret_run tt _)).
    rewrite alloc_run, !with_heap_with_heap, with_heap_heap.
    rewrite length_app, <- app_assoc. simpl. by rewrite Nat.add_1_r.
Qed.

(** X26: in the earlier revision the first [Init] gives [Log] the hook of
    logrus-bugsnag only when bugsnag holds an API key, from this
    configuration or an earlier one: with an empty key the refusal of
    [NewBugsnagHook] is dropped and [Log] has no hook at all, so nothing is
    ever reported. The level is the configured one either way. *)
Theorem earlier_Init_needs_a_key config σ :
  Log σ = None ->
  ∃ σ' l lg,
    Init_logrus_bugsnag config σ = Some (tt, σ')
    ∧ Log σ' = Some l
    ∧ logger_view σ' l = Some lg
    ∧ Logrus.Logger_Level lg = getLogrusLogLevel (LogLevel config)
    ∧ Logrus.Logger_Hooks lg
      = if String.eqb (BugsnagAPIKey config) EmptyString
           && String.eqb (configured_key σ) EmptyString
        then ∅
        else LogrusLogger.LevelHooks_Add ∅ Logrus.HookLogrusBugsnag.
Proof.
  intros HL. unfold Init_logrus_bugsnag.
  assert (get_Log σ = Some (None, σ)) as Hg by (unfold get_Log; by rewrite HL).
  rewrite (bind_run _ _ _ _ _ Hg).
  rewrite (bind_run _ _ _ _ _ (new_logrus_bugsnag_run false config σ)).
  unfold BugsnagClient.Configure. unfold mbind at 1, M_bind at 1.
  rewrite (bind_run _ _ _ _ _ (new_logrus_bugsnag_run true config _)).
  eexists _, _, _. split; [reflexivity|]. split; [reflexivity|].
  split.
  { unfold logger_view, set_Log. cbn [heap with_Log with_heap
                                       with_configured].
    rewrite lookup_app_r by lia. rewrite Nat.sub_succ_l, Nat.sub_diag by lia.
    cbn [lookup list_lookup]. rewrite lookup_app_r by lia.
    rewrite Nat.sub_diag. reflexivity. }
  split; [reflexivity|].
  cbn [new_logger_logrus_bugsnag Logrus.Logger_Hooks andb].
  unfold configured_key. cbn [configured with_configured with_heap map
                                Bugsnag.APIKey].
  rewrite filter_cons.
  destruct (String.eqb_spec (BugsnagAPIKey config) EmptyString) as [E|E].
  - rewrite E. rewrite decide_False by (intros H; by apply H).
    cbn [andb].
    by destruct (String.eqb _ EmptyString).
  - rewrite decide_True by done. cbn [head default andb id].
    by rewrite (proj2 (String.eqb_neq _ _) E).
Qed.

Lemma earlier_Init_needs_a_key_witness :
  (∃ σ' l lg,
     Init_logrus_bugsnag
       (mkLoggingConfig "INFO" "" "" "" [] [] [] EmptyString) empty_store
     = Some (tt, σ')
     ∧ Log σ' = Some l
     ∧ logger_view σ' l = Some lg
     ∧ Logrus.Logger_Hooks lg = ∅)
  ∧ (∃ σ' l lg,
       Init_logrus_bugsnag
         (mkLoggingConfig "INFO" "" "" "key" [] [] [] EmptyString) empty_store
       = Some (tt, σ')
       ∧ Log σ' = Some l
       ∧ logger_view σ' l = Some lg
       ∧ Logrus.Logger_Hooks lg
         = LogrusLogger.LevelHooks_Add ∅ Logrus.HookLogrusBugsnag).
Proof.
  split.
  - destruct (earlier_Init_needs_a_key
                (mkLoggingConfig "INFO" "" "" "" [] [] [] EmptyString)
                empty_store eq_refl) as (σ' & l & lg & Hr & HL & Hv & _ & Hh).
    exists σ', l, lg. split; [exact Hr|]. split; [exact HL|].
    split; [exact Hv|exact Hh].
  - destruct (earlier_Init_needs_a_key
                (mkLoggingConfig "INFO" "" "" "key" [] [] [] EmptyString)
                empty_store eq_refl) as (σ' & l & lg & Hr & HL & Hv & _ & Hh).
    exists σ', l, lg. split; [exact Hr|]. split; [exact HL|].
    split; [exact Hv|exact Hh].
Defined.

(** ** The callback of [Init], case by case *)

Lemma unwrap_loop_stuck_on intSize event w fuel :
  Errors.Unwrap (Bugsnag.Err (Bugsnag.Error__ event)) = Some w ->
  TypeOf_String w = "*fmt.wrapError" ->
  ∀ count σ r σ',
    unwrap_loop intSize fuel event "*fmt.wrapError" count σ
    ≠ Some (Some r, σ').
Proof.
  intros Hw Ht. induction fuel as [|fuel IH]; intros count σ r σ';
    cbn [unwrap_loop]; [done|].
  change (String.eqb "*fmt.wrapError" "*fmt.wrapError") with true.
  cbn [negb]. rewrite Hw, Ht.
  intros (u & σ1 & _ & Hk)%bind_inv. by apply IH in Hk.
Qed.

(** [unwrap_ends] is when the callback returns. On the event bugsnag builds
    for an error [unwrap_ends] holds of, the callback returns in its first
    or second iteration, with a nil error, the error of the event and the
    store as they were; on the event of any other error its loop has no last
    iteration. *)
Lemma unwrap_ends_returns intSize e skip σ fuel :
  intSize = 32 ∨ intSize = 64 ->
  unwrap_ends e = true ->
  ∃ class,
    OnBeforeNotify_callback intSize (S (S fuel))
      (BugsnagClient.newEvent (Bugsnag.mkError e skip)) σ
    = Some (Some (Bugsnag.mkEvent class (Bugsnag.mkError e skip), None), σ).
Proof.
  intros Hsz. unfold unwrap_ends, OnBeforeNotify_callback,
    BugsnagClient.newEvent.
  cbn [unwrap_loop Bugsnag.ErrorClass Bugsnag.Error__ Bugsnag.Err].
  destruct (String.eqb_spec (TypeOf_String e) "*fmt.wrapError") as [Hc|Hc];
    cbn [negb orb]; [|by eexists].
  destruct (Errors.Unwrap e) as [w|]; [|by eexists].
  assert ((11 <=? wrap_int intSize (0 + 1)) = false) as ->
    by (by destruct Hsz as [-> | ->]).
  intros ->. by eexists.
Qed.

Lemma unwrap_ends_or_never intSize e skip σ fuel :
  unwrap_ends e = false ->
  ∀ r σ',
    OnBeforeNotify_callback intSize fuel
      (BugsnagClient.newEvent (Bugsnag.mkError e skip)) σ
    ≠ Some (Some r, σ').
Proof.
  unfold unwrap_ends. intros Hno r σ'.
  destruct (String.eqb_spec (TypeOf_String e) "*fmt.wrapError") as [Hc|Hc];
    cbn [negb orb] in Hno; [|done].
  destruct (Errors.Unwrap e) as [w|] eqn:Hw; [|done].
  apply negb_false_iff, String.eqb_eq in Hno.
  unfold OnBeforeNotify_callback, BugsnagClient.newEvent.
  cbn [Bugsnag.ErrorClass Bugsnag.Err]. rewrite Hc.
  intros ([errClass|] & σ1 & Hloop & Hret)%bind_inv; [|done].
  by apply (unwrap_loop_stuck_on intSize
              (Bugsnag.mkEvent "*fmt.wrapError" (Bugsnag.mkError e skip))
              w fuel Hw Hno) in Hloop.
Qed.

(** X27: the callback of [Init], in full. It leaves the event as it is when
    its class is not "*fmt.wrapError" or its error has nothing to unwrap;
    when the error unwraps to one of another type it sets the class to that
    type, in its second iteration; and when the error unwraps to another
    "*fmt.wrapError" its loop has no last iteration. Whenever it returns it
    returns a nil error and leaves the error of the event and the store
    untouched. *)
Theorem callback_case_by_case intSize event σ :
  intSize = 32 ∨ intSize = 64 ->
  ((Bugsnag.ErrorClass event ≠ "*fmt.wrapError"
    ∨ Errors.Unwrap (Bugsnag.Err (Bugsnag.Error__ event)) = None) ->
   ∀ fuel, OnBeforeNotify_callback intSize (S fuel) event σ
           = Some (Some (event, None), σ))
  ∧ (∀ w, Bugsnag.ErrorClass event = "*fmt.wrapError" ->
          Errors.Unwrap (Bugsnag.Err (Bugsnag.Error__ event)) = Some w ->
          TypeOf_String w ≠ "*fmt.wrapError" ->
          ∀ fuel, OnBeforeNotify_callback intSize (S (S fuel)) event σ
                  = Some (Some (Bugsnag.mkEvent (TypeOf_String w)
                                  (Bugsnag.Error__ event), None), σ))
  ∧ (∀ w, Bugsnag.ErrorClass event = "*fmt.wrapError" ->
          Errors.Unwrap (Bugsnag.Err (Bugsnag.Error__ event)) = Some w ->
          TypeOf_String w = "*fmt.wrapError" ->
          ∀ fuel r σ', OnBeforeNotify_callback intSize fuel event σ
                       ≠ Some (Some r, σ')).
Proof.
  intros Hsz. destruct event as [class err]. cbn [Bugsnag.ErrorClass
                                                   Bugsnag.Error__].
  split; [|split].
  - intros Hcase fuel. unfold OnBeforeNotify_callback.
    cbn [unwrap_loop Bugsnag.ErrorClass Bugsnag.Error__].
    destruct (String.eqb_spec class "*fmt.wrapError") as [->|Hne];
      cbn [negb]; [|reflexivity].
    destruct Hcase as [Hc|Hu]; [done|]. by rewrite Hu.
  - intros w -> Hw Ht fuel. unfold OnBeforeNotify_callback.
    cbn [unwrap_loop Bugsnag.ErrorClass Bugsnag.Error__].
    change (String.eqb "*fmt.wrapError" "*fmt.wrapError") with true.
    cbn [negb]. rewrite Hw.
    assert ((11 <=? wrap_int intSize (0 + 1)) = false) as ->
      by (by destruct Hsz as [-> | ->]).
    by rewrite (proj2 (String.eqb_neq _ _) Ht).
  - intros w -> Hw Ht fuel r σ'. unfold OnBeforeNotify_callback.
    cbn [Bugsnag.ErrorClass].
    intros ([errClass|] & σ1 & Hloop & Hret)%bind_inv; [|done].
    by apply (unwrap_loop_stuck_on intSize
                (Bugsnag.mkEvent "*fmt.wrapError" err) w fuel Hw Ht)
      in Hloop.
Qed.

Lemma callback_case_by_case_witness :
  OnBeforeNotify_callback 64 1
    (Bugsnag.mkEvent "*errors.errorString"
       (Bugsnag.mkError (errorString "EOF") 4)) demo_store
  = Some (Some (Bugsnag.mkEvent "*errors.errorString"
                  (Bugsnag.mkError (errorString "EOF") 4), None), demo_store)
  ∧ OnBeforeNotify_callback 64 2
      (Bugsnag.mkEvent "*fmt.wrapError"
         (Bugsnag.mkError (wrapError "read: EOF" (errorString "EOF")) 4))
      demo_store
    = Some (Some (Bugsnag.mkEvent "*errors.errorString"
                    (Bugsnag.mkError (wrapError "read: EOF"
                                        (errorString "EOF")) 4), None),
            demo_store).
Proof.
  split.
  - apply (proj1 (callback_case_by_case 64
                    (Bugsnag.mkEvent "*errors.errorString"
                       (Bugsnag.mkError (errorString "EOF") 4)) demo_store
                    (or_intror eq_refl))).
    left. apply (bool_decide_unpack _). vm_compute. exact I.
  - apply (proj1 (proj2 (callback_case_by_case 64
                    (Bugsnag.mkEvent "*fmt.wrapError"
                       (Bugsnag.mkError (wrapError "read: EOF"
                                           (errorString "EOF")) 4))
                    demo_store (or_intror eq_refl)))
             (errorString "EOF")); [reflexivity|reflexivity|].
    apply (bool_decide_unpack _). vm_compute. exact I.
Defined.

(** ** A nil error *)

(** X28: [WithError(nil)] is not refused: the entry returned holds the field
    [error] with a nil value, and a record logged from it at level Error is
    written with that field and reported to bugsnag as an error made of the
    message alone, with no [error] in the metadata. *)
Theorem nil_error_reports_the_message σ e le lg msg :
  entry_view σ e = Some le ->
  heap σ !! Logrus.Entry_Logger le = Some (OLogrusLogger lg) ->
  Logrus.Logger_Hooks lg = LogrusLogger.LevelHooks_Add ∅ Logrus.HookBugsnag ->
  (Logrus.ErrorLevel <= Logrus.Logger_Level lg)%N ->
  ∃ e1 σ1 σ2,
    Entry.WithError e None σ = Some (e1, σ1)
    ∧ entry_fields σ1 e1 = Some (<["error" := VNil]> (Logrus.Entry_Data le))
    ∧ Promoted.Error e1 msg σ1 = Some (tt, σ2)
    ∧ sink σ2
      = mkLogLine Logrus.ErrorLevel msg
          (<["error" := VNil]> (Logrus.Entry_Data le)) (Logrus.Entry_err le)
        :: sink σ
    ∧ notified σ2
      = Bugsnag.mkNotification
          (Bugsnag.mkError (errorString msg) 4)
          {[ "metadata" := delete "error" (Logrus.Entry_Data le) ]}
        :: notified σ.
Proof.
  intros Hv Hl Hh Hlv.
  destruct (wrap_WithFields_post σ e le {[ "error" := VNil ]} Hv)
    as (e1 & σ1 & Hr & [cells Hg] & _ & Hv1).
  pose proof (with_fields_singleton_data le "error" VNil) as Hd.
  pose proof (with_fields_singleton_err le "error" VNil eq_refl) as He.
  cbn [LogrusEntry.isErrField] in Hd.
  assert (heap σ1 !! Logrus.Entry_Logger (with_fields le {[ "error" := VNil ]})
          = Some (OLogrusLogger lg)) as Hl1.
  { rewrite Hg, with_heap_heap. by apply lookup_app_l_Some. }
  pose proof (package_hooks_at Logrus.ErrorLevel) as Hat. rewrite <- Hh in Hat.
  eexists e1, σ1, _. split; [exact Hr|]. split.
  { unfold entry_fields. by rewrite Hv1, <- Hd. }
  unfold Promoted.Error.
  rewrite (Promoted_Log_exact σ1 e1 _ lg Logrus.ErrorLevel msg true Hv1 Hl1
             eq_refl Hat).
  rewrite (proj2 (N.leb_le _ _) Hlv). split; [reflexivity|].
  unfold logged, line_of. cbn [sink notified]. rewrite Hd, He, Hg.
  cbn [sink notified with_heap]. split; [reflexivity|].
  f_equal. unfold notification_of, record_of, bugsnagHook.notifyErr_of.
  cbn [Logrus.Entry_Data Logrus.Entry_Message]. rewrite Hd.
  rewrite lookup_insert_eq, delete_insert_eq. reflexivity.
Qed.

Lemma nil_error_reports_the_message_witness :
  ∃ e1 σ1 σ2,
    Entry.WithError 3%nat None demo_store = Some (e1, σ1)
    ∧ entry_fields σ1 e1 = Some {[ "error" := VNil ]}
    ∧ Promoted.Error e1 "down" σ1 = Some (tt, σ2)
    ∧ notified σ2
      = [Bugsnag.mkNotification (Bugsnag.mkError (errorString "down") 4)
           {[ "metadata" := ∅ ]}].
Proof.
  destruct (nil_error_reports_the_message demo_store 3%nat demo_entry
              demo_logger "down" eq_refl eq_refl eq_refl
              ltac:(by vm_compute))
    as (e1 & σ1 & σ2 & Hr & Hf & Hp & _ & Hn).
  exists e1, σ1, σ2. split; [exact Hr|]. split; [exact Hf|].
  split; [exact Hp|]. rewrite Hn. vm_compute. reflexivity.
Defined.

(** ** The order of the levels *)

Lemma nsq_level_of_antitone (a b : N) :
  (a <= b)%N -> (b <= Logrus.DebugLevel)%N ->
  nsq_level_of b <= nsq_level_of a.
Proof.
  unfold Logrus.DebugLevel. intros Hab Hb.
  assert (b = 0 ∨ b = 1 ∨ b = 2 ∨ b = 3 ∨ b = 4 ∨ b = 5)%N as Hcb by lia.
  assert (a = 0 ∨ a = 1 ∨ a = 2 ∨ a = 3 ∨ a = 4 ∨ a = 5)%N as Hca by lia.
  destruct Hcb as [->|[->|[->|[->|[->| ->]]]]];
    destruct Hca as [->|[->|[->|[->|[->| ->]]]]];
    try (by vm_compute); lia.
Qed.

(** X29: [getNSQLogLevel] keeps the order of the six levels from Panic to
    Debug: of two loggers, the one that lets more through is never given the
    level of go-nsq that lets less through. The level Trace is outside this
    order: a logger at Trace is given Info, which lets less through than the
    Debug a logger at Debug is given. *)
Theorem getNSQLogLevel_keeps_order σa la lga σb lb lgb :
  logger_view σa la = Some lga ->
  logger_view σb lb = Some lgb ->
  (Logrus.Logger_Level lga <= Logrus.Logger_Level lgb)%N ->
  ∃ na nb,
    Logger.getNSQLogLevel la σa = Some (na, σa)
    ∧ Logger.getNSQLogLevel lb σb = Some (nb, σb)
    ∧ ((Logrus.Logger_Level lgb <= Logrus.DebugLevel)%N -> nb <= na)
    ∧ (Logrus.Logger_Level lga = Logrus.DebugLevel ->
       Logrus.Logger_Level lgb = Logrus.TraceLevel ->
       na = Nsq.LogLevelDebug ∧ nb = Nsq.LogLevelInfo ∧ na < nb).
Proof.
  intros Ha Hb Hab.
  exists (nsq_level_of (Logrus.Logger_Level lga)),
    (nsq_level_of (Logrus.Logger_Level lgb)).
  split; [by apply getNSQLogLevel_run|]. split; [by apply getNSQLogLevel_run|].
  split; [by apply nsq_level_of_antitone|].
  intros -> ->. by vm_compute.
Qed.

Lemma getNSQLogLevel_keeps_order_witness :
  Logger.getNSQLogLevel 1%nat demo_levels_store
  = Some (Nsq.LogLevelWarning, demo_levels_store)
  ∧ Logger.getNSQLogLevel 3%nat demo_levels_store
    = Some (Nsq.LogLevelDebug, demo_levels_store)
  ∧ Logger.getNSQLogLevel 5%nat demo_levels_store
    = Some (Nsq.LogLevelInfo, demo_levels_store)
  ∧ Nsq.LogLevelDebug <= Nsq.LogLevelWarning
  ∧ Nsq.LogLevelDebug < Nsq.LogLevelInfo.
Proof.
  destruct (getNSQLogLevel_keeps_order
              demo_levels_store 1%nat
              (Logrus.mkLogger Logrus.WarnLevel ∅ Logrus.TextFormatter)
              demo_levels_store 3%nat
              (Logrus.mkLogger Logrus.DebugLevel ∅ Logrus.TextFormatter)
              eq_refl eq_refl ltac:(by vm_compute))
    as (na & nb & Ha & Hb & Hle & _).
  destruct (getNSQLogLevel_keeps_order
              demo_levels_store 3%nat
              (Logrus.mkLogger Logrus.DebugLevel ∅ Logrus.TextFormatter)
              demo_levels_store 5%nat
              (Logrus.mkLogger Logrus.TraceLevel ∅ Logrus.TextFormatter)
              eq_refl eq_refl ltac:(by vm_compute))
    as (nd & nt & Hd & Ht & _ & Htrace).
  destruct (Htrace eq_refl eq_refl) as (-> & -> & Hlt).
  specialize (Hle ltac:(by vm_compute)).
  rewrite Hd in Hb. injection Hb as <-.
  assert (na = Nsq.LogLevelWarning) as ->.
  { vm_compute in Ha. by injection Ha as <-. }
  split; [exact Ha|]. split; [exact Hd|]. split; [exact Ht|].
  split; [exact Hle|exact Hlt].
Defined.
